(** * Pastel 2048: the board engine of [src/App.tsx] and of its tile-list
      variant

    The repository holds two versions of the game component.  [src/App.tsx]
    keeps the board as a grid [number[][]]; the second file (the one with
    animated tiles) keeps a list of [Tile] objects and rebuilds a grid from
    it with [tilesToGrid].  Both are embedded here, each in its own module,
    under the names the sources use.

    Numbers.  Tile values, scores and coordinates are JavaScript numbers that
    only ever hold integers far below 2^53; they are modelled by [Z].  Array
    indices that the source draws from [for] loops bounded by [GRID_SIZE] are
    [nat].  The two calls of [Math.random()] in [addRandomTile] are inputs of
    the model: rationals [r] with [0 <= r < 1].  The coordinates of a touch,
    read by [handleTouchEnd], are doubles, taken as the rationals they are;
    their subtraction, which rounds, is a parameter of the model. *)

From Stdlib Require Import String Ascii DecimalString DecimalZ DecimalPos.
From Stdlib Require Import ZArith List Bool Lia QArith Qround Qabs Lqa.
From Stdlib Require Import Sorting.Sorted.
(* [length] is the lists' one, not [String.length]. *)
Import Corelib.Init.Datatypes.
Import ListNotations.

Local Open Scope string_scope.
Local Open Scope list_scope.
Local Open Scope Z_scope.

(** ** Shared constants and array primitives *)

Definition GRID_SIZE : nat := 4.

(** [type Direction = 'up' | 'down' | 'left' | 'right'] *)
Inductive Direction : Type := Up | Down | Left | Right.

(** [a[i] = x].  Every write of the sources has [i < a.length] (the indices
    come from loops bounded by [GRID_SIZE] over arrays of that length), so the
    JavaScript extension of an array by an out-of-range write never happens;
    out of range the model leaves the list as it is. *)
Fixpoint set_nth {A : Type} (i : nat) (x : A) (l : list A) : list A :=
  match l, i with
  | [], _ => []
  | _ :: t, O => x :: t
  | h :: t, S i' => h :: set_nth i' x t
  end.

(** [a.splice(i, 1)]: remove the element at index [i]. *)
Definition splice1 {A : Type} (i : nat) (l : list A) : list A :=
  firstn i l ++ skipn (S i) l.

(** [String(n)] for an integer [n]: decimal digits, with a leading [-] when
    negative (JavaScript prints integers this way up to 10^21, far above any
    tile value), and [a.join(',')]. *)
Definition numToString (n : Z) : string :=
  NilZero.string_of_int (Z.to_int n).

Definition join (a : list Z) : string :=
  String.concat "," (map numToString a).

(** The inputs of [Math.random()]. *)
Definition unit_interval (r : Q) : Prop := (0 <= r)%Q /\ (r < 1)%Q.

Definition Qltb (x y : Q) : bool := negb (Qle_bool y x).

(** [Math.floor(Math.random() * n)] *)
Definition randIndex (r : Q) (n : nat) : nat :=
  Z.to_nat (Qfloor (r * inject_Z (Z.of_nat n))).

(** [Math.random() < 0.9 ? 2 : 4].  The double nearest to 0.9 lies just
    above 9/10 with no double in between, so for a draw that is a double the
    test against 9/10 decides the same. *)
Definition randValue (r : Q) : Z :=
  if Qltb r (9 # 10) then 2 else 4.

(** [number[][]], the grid type of both files. *)
Definition Grid : Type := list (list Z).

(** [grid[i][j]]; the sources read it only at [i, j < GRID_SIZE]. *)
Definition cell (g : Grid) (i j : nat) : Z := nth j (nth i g []) 0.

(** [grid[i][j] = v] *)
Definition set_cell (g : Grid) (i j : nat) (v : Z) : Grid :=
  set_nth i (set_nth j v (nth i g [])) g.

(** The boards of the game: [GRID_SIZE] rows of [GRID_SIZE] cells. *)
Definition is_board (g : Grid) : Prop :=
  length g = GRID_SIZE /\ Forall (fun row => length row = GRID_SIZE) g.

(** ** [src/App.tsx]: the grid version *)

Module GridApp.

(** [Array(GRID_SIZE).fill(null).map(() => Array(GRID_SIZE).fill(0))] *)
Definition createEmptyGrid : Grid :=
  repeat (repeat 0 GRID_SIZE) GRID_SIZE.

(** The scan of [addRandomTile] that collects [emptyCells], row by row. *)
Definition emptyCells (g : Grid) : list (nat * nat) :=
  flat_map (fun i =>
    flat_map (fun j => if cell g i j =? 0 then [(i, j)] else [])
             (seq 0 GRID_SIZE))
    (seq 0 GRID_SIZE).

(** [addRandomTile(currentGrid)], with the two random draws [r1] (the
    cell) and [r2] (the value) made explicit.  The index drawn is always
    within [emptyCells] for a draw in the unit interval ([randIndex_lt]
    below); the [None] branch only makes the function total. *)
Definition addRandomTile (currentGrid : Grid) (r1 r2 : Q) : Grid :=
  let newGrid := map (fun row => row) currentGrid in
  let empty := emptyCells newGrid in
  if (0 <? length empty)%nat then
    match nth_error empty (randIndex r1 (length empty)) with
    | Some (row, col) => set_cell newGrid row col (randValue r2)
    | None => newGrid
    end
  else newGrid.

(** [canMove(currentGrid)]: the first [return true] met by the double loop
    decides; [existsb] with the lazy [||] is that early exit. *)
Definition canMove (currentGrid : Grid) : bool :=
  existsb (fun i =>
    existsb (fun j =>
      (cell currentGrid i j =? 0)
      || ((j <? GRID_SIZE - 1)%nat
          && (cell currentGrid i j =? cell currentGrid i (j + 1)))
      || ((i <? GRID_SIZE - 1)%nat
          && (cell currentGrid i j =? cell currentGrid (i + 1) j)))
      (seq 0 GRID_SIZE))
    (seq 0 GRID_SIZE).

(** The [for] loop of [slideLeft], index by index: the array shrinks under
    [splice] while [i] advances, and [arr.length - 1] is read again at each
    test.  [fuel] bounds the number of iterations. *)
Fixpoint mergeLoop (fuel i : nat) (arr : list Z) (points : Z)
  : list Z * Z :=
  match fuel with
  | O => (arr, points)
  | S fuel' =>
      if Z.of_nat i <? Z.of_nat (length arr) - 1 then
        if nth i arr 0 =? nth (i + 1) arr 0 then
          let arr1 := set_nth i (nth i arr 0 * 2) arr in
          let points1 := points + nth i arr1 0 in
          mergeLoop fuel' (i + 1) (splice1 (i + 1) arr1) points1
        else mergeLoop fuel' (i + 1) arr points
      else (arr, points)
  end.

(** [while (arr.length < GRID_SIZE) arr.push(0)] *)
Definition pad (arr : list Z) : list Z :=
  arr ++ repeat 0 (GRID_SIZE - length arr).

(** [slideLeft(row)] returns [{ newRow, points }]. *)
Definition slideLeft (row : list Z) : list Z * Z :=
  let arr := filter (fun val => negb (val =? 0)) row in
  let '(arr', points) := mergeLoop (length arr) 0 arr 0 in
  (pad arr', points).

(** [original.join(',') !== newRow.join(',')] *)
Definition joinDiffers (original newRow : list Z) : bool :=
  negb (String.eqb (join original) (join newRow)).

(** The local variables of [move]. *)
Record Locals : Type := mkLocals {
  newGrid : Grid;
  totalScore : Z;
  moved : bool
}.

(** The column read of the [up] and [down] branches. *)
Definition readColumn (g : Grid) (col : nat) : list Z :=
  map (fun row => cell g row col) (seq 0 GRID_SIZE).

(** [for (row ...) newGrid[row][col] = line[row]] *)
Definition writeColumn (g : Grid) (col : nat) (line : list Z) : Grid :=
  fold_left (fun g' row => set_cell g' row col (nth row line 0))
            (seq 0 GRID_SIZE) g.

Definition stepLeft (s : Locals) (i : nat) : Locals :=
  let original := nth i (newGrid s) [] in
  let '(newRow, points) := slideLeft (nth i (newGrid s) []) in
  mkLocals (set_nth i newRow (newGrid s))
           (totalScore s + points)
           (if joinDiffers original newRow then true else moved s).

Definition stepRight (s : Locals) (i : nat) : Locals :=
  let original := nth i (newGrid s) [] in
  let reversed := rev (nth i (newGrid s) []) in
  let '(newRow, points) := slideLeft reversed in
  let g' := set_nth i (rev newRow) (newGrid s) in
  mkLocals g'
           (totalScore s + points)
           (if joinDiffers original (nth i g' []) then true else moved s).

Definition stepUp (s : Locals) (col : nat) : Locals :=
  let column := readColumn (newGrid s) col in
  let original := column in
  let '(newRow, points) := slideLeft column in
  mkLocals (writeColumn (newGrid s) col newRow)
           (totalScore s + points)
           (if joinDiffers original newRow then true else moved s).

Definition stepDown (s : Locals) (col : nat) : Locals :=
  let column := readColumn (newGrid s) col in
  let original := column in
  let reversed := rev column in
  let '(newRow, points) := slideLeft reversed in
  let finalCol := rev newRow in
  mkLocals (writeColumn (newGrid s) col finalCol)
           (totalScore s + points)
           (if joinDiffers original finalCol then true else moved s).

(** The slide and merge part of [move]: everything between the copy of
    [grid] and the test [if (moved)]. *)
Definition slide (grid : Grid) (direction : Direction) : Locals :=
  let start := mkLocals (map (fun row => row) grid) 0 false in
  match direction with
  | Left => fold_left stepLeft (seq 0 GRID_SIZE) start
  | Right => fold_left stepRight (seq 0 GRID_SIZE) start
  | Up => fold_left stepUp (seq 0 GRID_SIZE) start
  | Down => fold_left stepDown (seq 0 GRID_SIZE) start
  end.

(** The React state of the component and the one persisted key. *)
Record State : Type := mkState {
  grid : Grid;
  score : Z;
  bestScore : Z;
  gameOver : bool;
  won : bool;
  stored : option Z   (* localStorage['kitsch-2048-best'] *)
}.

(** [move(direction)].  The last component tells whether [addRandomTile]
    was called. *)
Definition move (st : State) (direction : Direction) (r1 r2 : Q)
  : State * bool :=
  if gameOver st then (st, false) else
  let s := slide (grid st) direction in
  if moved s then
    let g := addRandomTile (newGrid s) r1 r2 in
    let newScore := score st + totalScore s in
    let better := newScore >? bestScore st in
    (mkState g newScore
             (if better then newScore else bestScore st)
             (if canMove g then gameOver st else true)
             (won st)
             (if better then Some newScore else stored st),
     true)
  else (st, false).

(** [initGame()], with the four random draws of its two spawns. *)
Definition initGame (st : State) (r1 r2 r3 r4 : Q) : State :=
  let g0 := createEmptyGrid in
  let g1 := addRandomTile g0 r1 r2 in
  let g2 := addRandomTile g1 r3 r4 in
  mkState g2 0 (bestScore st) false false (stored st).

End GridApp.

(** ** The tile-list version (the component with animated tiles) *)

Module TileApp.

(** [interface Tile].  The optional flags are [None] when absent. *)
Record Tile : Type := mkTile {
  id : string;
  value : Z;
  row : Z;
  col : Z;
  isNew : option bool;
  isMerged : option bool
}.

(** [generateId()] increments [tileIdCounter.current] and returns
    [`tile-${tileIdCounter.current}`]; the counter is threaded. *)
Definition generateId (counter : Z) : string * Z :=
  let counter' := counter + 1 in
  (String.append "tile-" (numToString counter'), counter').

Definition inGrid (r c : Z) : bool :=
  (0 <=? r) && (r <? Z.of_nat GRID_SIZE) &&
  (0 <=? c) && (c <? Z.of_nat GRID_SIZE).

(** [tilesToGrid(tileList)] *)
Definition tilesToGrid (tileList : list Tile) : Grid :=
  fold_left (fun grid tile =>
               if inGrid (row tile) (col tile)
               then set_cell grid (Z.to_nat (row tile)) (Z.to_nat (col tile))
                             (value tile)
               else grid)
            tileList
            (repeat (repeat 0 GRID_SIZE) GRID_SIZE).

(** [getEmptyCells(tileList)] *)
Definition getEmptyCells (tileList : list Tile) : list (Z * Z) :=
  let grid := tilesToGrid tileList in
  flat_map (fun i =>
    flat_map (fun j => if cell grid i j =? 0
                       then [(Z.of_nat i, Z.of_nat j)] else [])
             (seq 0 GRID_SIZE))
    (seq 0 GRID_SIZE).

(** [addRandomTile(tileList)]: the draw of the cell, then [generateId()],
    then the draw of the value, in the order the source evaluates them.  As
    in the grid version the [None] branch is never taken for a draw in the
    unit interval. *)
Definition addRandomTile (tileList : list Tile) (counter : Z) (r1 r2 : Q)
  : list Tile * Z :=
  let empty := getEmptyCells tileList in
  if (length empty =? 0)%nat then (tileList, counter) else
  match nth_error empty (randIndex r1 (length empty)) with
  | Some (r, c) =>
      let '(newId, counter') := generateId counter in
      let newTile := mkTile newId (randValue r2) r c (Some true) None in
      (tileList ++ [newTile], counter')
  | None => (tileList, counter)
  end.

(** [canMove(tileList)]: the scan for an empty cell, then the scan for two
    equal neighbours. *)
Definition canMove (tileList : list Tile) : bool :=
  let grid := tilesToGrid tileList in
  if existsb (fun i =>
       existsb (fun j => cell grid i j =? 0) (seq 0 GRID_SIZE))
       (seq 0 GRID_SIZE)
  then true
  else
    existsb (fun i =>
      existsb (fun j =>
        ((j <? GRID_SIZE - 1)%nat
         && (cell grid i j =? cell grid i (j + 1)))
        || ((i <? GRID_SIZE - 1)%nat
            && (cell grid i j =? cell grid (i + 1) j)))
        (seq 0 GRID_SIZE))
      (seq 0 GRID_SIZE).

(** The comparison function handed to [line.sort]. *)
Definition compareFn (isHorizontal reverse : bool) (a b : Tile) : Z :=
  let aPos := if isHorizontal then col a else row a in
  let bPos := if isHorizontal then col b else row b in
  if reverse then bPos - aPos else aPos - bPos.

(** [Array.prototype.sort] is a stable sort; insertion sort is one. *)
Fixpoint insertBy (cmp : Tile -> Tile -> Z) (x : Tile) (l : list Tile)
  : list Tile :=
  match l with
  | [] => [x]
  | y :: l' => if cmp x y <=? 0 then x :: y :: l' else y :: insertBy cmp x l'
  end.

Definition sortBy (cmp : Tile -> Tile -> Z) (l : list Tile) : list Tile :=
  fold_right (insertBy cmp) [] l.

(** What the loops of [move] mutate: [processedLine], [totalPoints],
    [moved] and the id counter. *)
Record LineState : Type := mkLineState {
  processedLine : list Tile;
  linePoints : Z;
  lineMoved : bool;
  lineCounter : Z
}.

(** The branch [if (nextTile && tile.value === nextTile.value)]. *)
Definition pushMerged (isHorizontal : bool) (i : nat) (pos : Z)
           (tile : Tile) (s : LineState) : LineState :=
  let oldRow := row tile in
  let oldCol := col tile in
  let '(newId, counter') := generateId (lineCounter s) in
  let mergedTile :=
    mkTile newId (value tile * 2)
           (if isHorizontal then Z.of_nat i else pos)
           (if isHorizontal then pos else Z.of_nat i)
           None (Some true) in
  mkLineState (processedLine s ++ [mergedTile])
              (linePoints s + value tile * 2)
              (if negb (oldRow =? row mergedTile)
                  || negb (oldCol =? col mergedTile)
               then true else lineMoved s)
              counter'.

(** The [else] branch: the tile only moves. *)
Definition pushMoved (isHorizontal : bool) (i : nat) (pos : Z)
           (tile : Tile) (s : LineState) : LineState :=
  let oldRow := row tile in
  let oldCol := col tile in
  let tile' :=
    mkTile (id tile) (value tile)
           (if isHorizontal then Z.of_nat i else pos)
           (if isHorizontal then pos else Z.of_nat i)
           (isNew tile) (isMerged tile) in
  mkLineState (processedLine s ++ [tile'])
              (linePoints s)
              (if negb (oldRow =? row tile') || negb (oldCol =? col tile')
               then true else lineMoved s)
              (lineCounter s).

(** The loop [for (let j = 0; j < line.length; j++)]; a merge does [j++]
    once more, so the scan resumes two tiles further. *)
Fixpoint lineLoop (isHorizontal : bool) (i : nat) (step : Z)
         (line : list Tile) (pos : Z) (s : LineState) : LineState :=
  match line with
  | [] => s
  | tile :: rest =>
      match rest with
      | nextTile :: rest' =>
          if value tile =? value nextTile
          then lineLoop isHorizontal i step rest' (pos + step)
                        (pushMerged isHorizontal i pos tile s)
          else lineLoop isHorizontal i step rest (pos + step)
                        (pushMoved isHorizontal i pos tile s)
      | [] => lineLoop isHorizontal i step rest (pos + step)
                       (pushMoved isHorizontal i pos tile s)
      end
  end.

(** The local variables of [move]. *)
Record Locals : Type := mkLocals {
  newTiles : list Tile;
  totalPoints : Z;
  moved : bool;
  counter : Z
}.

(** One iteration of [for (let i = 0; i < GRID_SIZE; i++)]. *)
Definition stepLine (isHorizontal reverse : bool) (currentTiles : list Tile)
           (s : Locals) (i : nat) : Locals :=
  let line := filter (fun t => if isHorizontal
                               then row t =? Z.of_nat i
                               else col t =? Z.of_nat i) currentTiles in
  if (length line =? 0)%nat then s else
  let line := sortBy (compareFn isHorizontal reverse) line in
  let pos := if reverse then Z.of_nat GRID_SIZE - 1 else 0 in
  let step := if reverse then -1 else 1 in
  let r := lineLoop isHorizontal i step line pos
                    (mkLineState [] (totalPoints s) (moved s) (counter s)) in
  mkLocals (newTiles s ++ processedLine r)
           (linePoints r) (lineMoved r) (lineCounter r).

(** The slide and merge part of [move]: from the copy of [tiles] to the
    test [if (!moved) return]. *)
Definition slide (tiles : list Tile) (direction : Direction) (counter0 : Z)
  : Locals :=
  let currentTiles :=
    map (fun t => mkTile (id t) (value t) (row t) (col t)
                         (Some false) (Some false)) tiles in
  let isHorizontal :=
    match direction with Left | Right => true | _ => false end in
  let reverse :=
    match direction with Right | Down => true | _ => false end in
  fold_left (stepLine isHorizontal reverse currentTiles)
            (seq 0 GRID_SIZE)
            (mkLocals [] 0 false counter0).

(** The win test of the timeout callback,
    [finalTiles.some(t => t.value === 2048)]. *)
Definition hasTile2048 (finalTiles : list Tile) : bool :=
  existsb (fun t => value t =? 2048) finalTiles.

(** The React state, the id counter held in a ref and the persisted key. *)
Record State : Type := mkState {
  tiles : list Tile;
  score : Z;
  bestScore : Z;
  gameOver : bool;
  won : bool;
  isAnimating : bool;
  tileIdCounter : Z;
  stored : option Z   (* localStorage['kitsch-2048-best'] *)
}.

(** What the timeout callback closes over. *)
Record Pending : Type := mkPending {
  pendingTiles : list Tile;
  pendingPoints : Z;
  seenBestScore : Z;
  seenWon : bool
}.

(** [move(direction)] up to [setTimeout]: the state it leaves and, when the
    move is accepted, the callback it schedules. *)
Definition move (st : State) (direction : Direction)
  : State * option Pending :=
  if gameOver st || isAnimating st then (st, None) else
  let s := slide (tiles st) direction (tileIdCounter st) in
  if negb (moved s) then
    (mkState (tiles st) (score st) (bestScore st) (gameOver st) (won st)
             (isAnimating st) (counter s) (stored st),
     None)
  else
    (mkState (newTiles s) (score st) (bestScore st) (gameOver st) (won st)
             true (counter s) (stored st),
     Some (mkPending (newTiles s) (totalPoints s) (bestScore st) (won st))).

Definition clearFlags (t : Tile) : Tile :=
  mkTile (id t) (value t) (row t) (col t) (Some false) (Some false).

(** The callback of [setTimeout]: spawn, win test, score, game over. *)
Definition finishMove (st : State) (p : Pending) (r1 r2 : Q) : State :=
  let '(finalTiles, counter') :=
    addRandomTile (pendingTiles p) (tileIdCounter st) r1 r2 in
  let won' := if hasTile2048 finalTiles && negb (seenWon p)
              then true else won st in
  let newScore := score st + pendingPoints p in
  let better := newScore >? seenBestScore p in
  mkState (map clearFlags finalTiles)
          newScore
          (if better then newScore else bestScore st)
          (if canMove finalTiles then gameOver st else true)
          won'
          false
          counter'
          (if better then Some newScore else stored st).

(** [initGame()], with the four random draws of its two spawns. *)
Definition initGame (st : State) (r1 r2 r3 r4 : Q) : State :=
  let '(t1, c1) := addRandomTile [] 0 r1 r2 in
  let '(t2, c2) := addRandomTile t1 c1 r3 r4 in
  mkState t2 0 (bestScore st) false false false c2 (stored st).

End TileApp.

(** ** Reference definitions used by the statements *)

(** [slideLeft]'s merge as a recursion on the compacted line: two equal
    neighbours give one doubled tile and the scan resumes after both. *)
Fixpoint mergeLine (arr : list Z) : list Z :=
  match arr with
  | [] => []
  | a :: rest =>
      match rest with
      | [] => [a]
      | b :: rest' =>
          if a =? b then a * 2 :: mergeLine rest' else a :: mergeLine rest
      end
  end.

Fixpoint mergePoints (arr : list Z) : Z :=
  match arr with
  | [] => 0
  | a :: rest =>
      match rest with
      | [] => 0
      | b :: rest' =>
          if a =? b then a * 2 + mergePoints rest' else mergePoints rest
      end
  end.

(** The number of merges of a pass. *)
Fixpoint mergeCount (arr : list Z) : nat :=
  match arr with
  | [] => O
  | a :: rest =>
      match rest with
      | [] => O
      | b :: rest' =>
          if a =? b then S (mergeCount rest') else mergeCount rest
      end
  end.

Definition nonzero (val : Z) : bool := negb (val =? 0).

(** The tiles of a line, in order. *)
Definition compact (row : list Z) : list Z := filter nonzero row.

(** Whether a string holds a comma. *)
Fixpoint hasComma (s : string) : bool :=
  match s with
  | EmptyString => false
  | String c s' => if Ascii.eqb c "," then true else hasComma s'
  end.

(** Sums of tile values. *)
Definition sumZ (l : list Z) : Z := fold_right Z.add 0 l.

Definition gridSum (g : Grid) : Z := sumZ (map sumZ g).

(** The lines a move works on.  [transpose] reads the columns as
    [GridApp.readColumn] does; a move to the right or downwards works on the
    reversed lines. *)
Definition transpose (g : Grid) : Grid :=
  map (GridApp.readColumn g) (seq 0 GRID_SIZE).

Definition lines (d : Direction) (g : Grid) : list (list Z) :=
  match d with
  | Left => g
  | Right => map (@rev Z) g
  | Up => transpose g
  | Down => map (@rev Z) (transpose g)
  end.

(** Putting processed lines back in place. *)
Definition unlines (d : Direction) (ls : list (list Z)) : Grid :=
  match d with
  | Left => ls
  | Right => map (@rev Z) ls
  | Up => transpose ls
  | Down => transpose (map (@rev Z) ls)
  end.

Definition slideRow (l : list Z) : list Z := fst (GridApp.slideLeft l).
Definition slidePoints (l : list Z) : Z := snd (GridApp.slideLeft l).

(** What [tilesToGrid] reads of a tile. *)
Definition vrc (t : TileApp.Tile) : Z * Z * Z :=
  (TileApp.value t, TileApp.row t, TileApp.col t).

Definition tilePos (t : TileApp.Tile) : Z * Z :=
  (TileApp.row t, TileApp.col t).

(** One step of [tilesToGrid], and its loop from any grid. *)
Definition placeV (grid : Grid) (x : Z * Z * Z) : Grid :=
  let '(v, r, c) := x in
  if TileApp.inGrid r c
  then set_cell grid (Z.to_nat r) (Z.to_nat c) v
  else grid.

Definition gridOf (l : list (Z * Z * Z)) (g0 : Grid) : Grid :=
  fold_left placeV l g0.

(** The cell that [move] gives to a tile of line [i] put at [pos]. *)
Definition slot (isHorizontal : bool) (i : nat) (pos : Z) : Z * Z :=
  (if isHorizontal then Z.of_nat i else pos,
   if isHorizontal then pos else Z.of_nat i).

(** Values laid out from [pos] on, [step] apart, along line [i]. *)
Fixpoint placed (isHorizontal : bool) (i : nat) (step pos : Z)
         (vals : list Z) : list (Z * Z * Z) :=
  match vals with
  | [] => []
  | v :: vs =>
      (v, fst (slot isHorizontal i pos), snd (slot isHorizontal i pos))
        :: placed isHorizontal i step (pos + step) vs
  end.

(** The tile lists the game holds: no two tiles on one cell, every tile on
    the board and with a value. *)
Definition validTiles (tl : list TileApp.Tile) : Prop :=
  NoDup (map tilePos tl)
  /\ Forall (fun t => TileApp.inGrid (TileApp.row t) (TileApp.col t) = true
                      /\ TileApp.value t <> 0) tl.

Definition isHorizontalOf (d : Direction) : bool :=
  match d with Left | Right => true | _ => false end.

Definition reverseOf (d : Direction) : bool :=
  match d with Right | Down => true | _ => false end.

(** The tiles of line [i] as [move] scans them, and their values. *)
Definition sortedLine (isHorizontal reverse : bool)
           (currentTiles : list TileApp.Tile) (i : nat) : list TileApp.Tile :=
  TileApp.sortBy (TileApp.compareFn isHorizontal reverse)
    (filter (fun t => if isHorizontal
                      then TileApp.row t =? Z.of_nat i
                      else TileApp.col t =? Z.of_nat i) currentTiles).

Definition lineValues (isHorizontal reverse : bool)
           (currentTiles : list TileApp.Tile) (i : nat) : list Z :=
  map TileApp.value (sortedLine isHorizontal reverse currentTiles i).

Definition startPos (reverse : bool) : Z :=
  if reverse then Z.of_nat GRID_SIZE - 1 else 0.

Definition stepOf (reverse : bool) : Z := if reverse then -1 else 1.

(** The line a cell lies on and its rank on that line in travel order. *)
Definition lineIdx (d : Direction) (r c : nat) : nat :=
  if isHorizontalOf d then r else c.

Definition keyIdx (d : Direction) (r c : nat) : nat :=
  let p := if isHorizontalOf d then c else r in
  if reverseOf d then (GRID_SIZE - 1 - p)%nat else p.

(** The cell of rank [k] of line [i], and the order [line.sort] sorts by. *)
Definition cellAt (d : Direction) (i k : nat) : nat * nat :=
  match d with
  | Left => (i, k)
  | Right => (i, GRID_SIZE - 1 - k)%nat
  | Up => (k, i)
  | Down => (GRID_SIZE - 1 - k, i)%nat
  end.

Definition keyZ (isHorizontal reverse : bool) (t : TileApp.Tile) : Z :=
  let p := if isHorizontal then TileApp.col t else TileApp.row t in
  if reverse then - p else p.

Definition tileKey (d : Direction) (t : TileApp.Tile) : nat :=
  keyIdx d (Z.to_nat (TileApp.row t)) (Z.to_nat (TileApp.col t)).

(** An empty state, to start [initGame] from. *)
Definition blankTileState : TileApp.State :=
  TileApp.mkState [] 0 0 false false false 0 None.

Definition blankGridState : GridApp.State :=
  GridApp.mkState [] 0 0 false false None.

(** A new game whose two first tiles are both 2 and land on the first two
    cells of the top row: the draws are 0 for either cell and 1/2 for either
    value. *)
Definition twoTwosState : TileApp.State :=
  TileApp.initGame blankTileState 0 (1 # 2) 0 (1 # 2).

(** Boards and tile lists used as examples. *)
Definition exampleBoard : Grid :=
  [[2; 0; 0; 2]; [0; 4; 4; 0]; [2; 2; 2; 0]; [8; 8; 8; 8]].

Definition exampleTiles : list TileApp.Tile :=
  [TileApp.mkTile "tile-1" 2 0 3 (Some false) (Some false);
   TileApp.mkTile "tile-2" 2 0 0 (Some true) None;
   TileApp.mkTile "tile-3" 4 1 2 None (Some true);
   TileApp.mkTile "tile-4" 4 1 1 (Some false) (Some false);
   TileApp.mkTile "tile-5" 2 2 0 (Some false) (Some false);
   TileApp.mkTile "tile-6" 2 2 2 (Some false) (Some false);
   TileApp.mkTile "tile-7" 2 2 1 (Some false) (Some false)].

Definition emptyRow : list Z := [0; 0; 0; 0].

(** A new game whose two first tiles are both 2 and land on the two ends of
    the top row: the second cell is the third of the fifteen cells left. *)
Definition farTwosState : TileApp.State :=
  TileApp.initGame blankTileState 0 (1 # 2) (1 # 6) (1 # 2).

(** The tiles of a line and the merges of [slideLeft] on it: the tiles that
    went in less the tiles that came out. *)
Definition tileCount (row : list Z) : nat := length (compact row).

Definition lineMerges (row : list Z) : nat :=
  (tileCount row - tileCount (fst (GridApp.slideLeft row)))%nat.

(** A line as runs of equal tiles: [(v, k)] is [k] tiles of value [v]. *)
Definition expand (runs : list (Z * nat)) : list Z :=
  flat_map (fun vk => repeat (fst vk) (snd vk)) runs.

(** Runs that are maximal: none is empty, none holds empty cells, and two
    neighbours differ in value. *)
Fixpoint maximalRuns (runs : list (Z * nat)) : Prop :=
  match runs with
  | [] => True
  | (v, k) :: rest =>
      v <> 0 /\ (1 <= k)%nat
      /\ match rest with
         | [] => True
         | (w, _) :: _ => v <> w
         end
      /\ maximalRuns rest
  end.

(** What a pass leaves of a run of [k] tiles [v]: a doubled tile for every
    pair, and the odd tile left over. *)
Definition mergedRun (vk : Z * nat) : list Z :=
  repeat (fst vk * 2) (snd vk / 2) ++ repeat (fst vk) (snd vk mod 2).

(** Groups of source tiles, one group per tile that comes out: a tile alone,
    or two equal tiles that merge. *)
Definition isGroup (g : list Z) : Prop :=
  exists v, g = [v] \/ g = [v; v].

Definition isPair (g : list Z) : bool := (length g =? 2)%nat.

(** The scan merges whenever it can: a tile left alone is not followed by
    an equal tile. *)
Fixpoint greedy (gs : list (list Z)) : Prop :=
  match gs with
  | [] => True
  | g :: rest =>
      match g, rest with
      | [v], (w :: _) :: _ => v <> w
      | _, _ => True
      end
      /\ greedy rest
  end.

Fixpoint mergeGroups (arr : list Z) : list (list Z) :=
  match arr with
  | [] => []
  | a :: rest =>
      match rest with
      | [] => [[a]]
      | b :: rest' =>
          if a =? b then [a; b] :: mergeGroups rest'
          else [a] :: mergeGroups rest
      end
  end.

(** The spec's test for a possible move: an empty cell, or two neighbours,
    side by side or one above the other, with the same nonzero value. *)
Definition hasEmptyCell (g : Grid) : Prop :=
  exists i j, (i < GRID_SIZE)%nat /\ (j < GRID_SIZE)%nat /\ cell g i j = 0.

Definition hasEqualNeighbours (g : Grid) : Prop :=
  exists i j,
    (i < GRID_SIZE)%nat /\ (j < GRID_SIZE)%nat /\ cell g i j <> 0
    /\ (((j + 1 < GRID_SIZE)%nat /\ cell g i j = cell g i (j + 1))
        \/ ((i + 1 < GRID_SIZE)%nat /\ cell g i j = cell g (i + 1) j)).

Definition canMoveSpec (g : Grid) : Prop :=
  hasEmptyCell g \/ hasEqualNeighbours g.

Definition checkerboard : Grid :=
  [[2; 4; 2; 4]; [4; 2; 4; 2]; [2; 4; 2; 4]; [4; 2; 4; 2]].

(** A tile list for a board: one tile per nonzero cell, row by row. *)
Definition boardTiles (g : Grid) : list TileApp.Tile :=
  flat_map (fun i =>
    flat_map (fun j =>
      if cell g i j =? 0 then []
      else [TileApp.mkTile "" (cell g i j) (Z.of_nat i) (Z.of_nat j)
                           (Some false) (Some false)])
      (seq 0 GRID_SIZE))
    (seq 0 GRID_SIZE).

(** Two equal neighbours, empty or not. *)
Definition someEqualPair (g : Grid) : Prop :=
  exists i j,
    (i < GRID_SIZE)%nat /\ (j < GRID_SIZE)%nat
    /\ (((j + 1 < GRID_SIZE)%nat /\ cell g i j = cell g i (j + 1))
        \/ ((i + 1 < GRID_SIZE)%nat /\ cell g i j = cell g (i + 1) j)).

(** A board one merge away from 2048. *)
Definition winningBoard : Grid :=
  [[1024; 1024; 0; 0]; [0; 0; 0; 0]; [0; 0; 0; 0]; [0; 0; 0; 0]].

(** A board after two 2048 tiles merged: its largest tile is 4096 and no
    tile is 2048. *)
Definition past2048Tiles : list TileApp.Tile :=
  [TileApp.mkTile "tile-9" 4096 0 0 None (Some true);
   TileApp.mkTile "tile-8" 2 0 1 (Some false) (Some false)].

(** The tiles on a board. *)
Definition boardTileCount (g : Grid) : nat := list_sum (map tileCount g).

(** What a spawn does to a board: one empty cell takes a 2 or a 4, every
    other cell keeps its value, and the board holds one tile more. *)
Definition spawnedOne (g g' : Grid) : Prop :=
  exists i j,
    (i < GRID_SIZE)%nat /\ (j < GRID_SIZE)%nat
    /\ cell g i j = 0
    /\ (cell g' i j = 2 \/ cell g' i j = 4)
    /\ (forall i' j', (i' < GRID_SIZE)%nat -> (j' < GRID_SIZE)%nat ->
                      (i', j') <> (i, j) -> cell g' i' j' = cell g i' j')
    /\ boardTileCount g' = S (boardTileCount g)
    /\ is_board g'.

(** Validity read off the triples of [vrc]. *)
Definition posV (x : Z * Z * Z) : Z * Z := (snd (fst x), snd x).

Definition validV (l : list (Z * Z * Z)) : Prop :=
  NoDup (map posV l)
  /\ Forall (fun x => TileApp.inGrid (fst (posV x)) (snd (posV x)) = true
                      /\ fst (fst x) <> 0) l.

(** The tiles of a scanned line already sit on the cells the scan gives
    them. *)
Fixpoint inPlace (isHorizontal : bool) (i : nat) (step pos : Z)
         (line : list TileApp.Tile) : Prop :=
  match line with
  | [] => True
  | t :: rest =>
      tilePos t = slot isHorizontal i pos
      /\ inPlace isHorizontal i step (pos + step) rest
  end.

(** ** Further reference definitions *)

(** Every cell of a grid satisfies [P]. *)
Definition allCells (P : Z -> Prop) (g : Grid) : Prop := Forall (Forall P) g.

(** The values a cell of the game holds: empty, or a power of two from 2
    on. *)
Definition isTileValue (v : Z) : Prop :=
  v = 0 \/ exists k, 1 <= k /\ v = 2 ^ k.

(** Some cell holds a tile. *)
Definition hasTile (g : Grid) : Prop :=
  exists i j, (i < GRID_SIZE)%nat /\ (j < GRID_SIZE)%nat /\ cell g i j <> 0.

(** A line of four that a slide cannot change: no empty cell before a tile,
    no two equal tiles side by side. *)
Definition settled (l : list Z) : Prop :=
  forall k, (k + 1 < GRID_SIZE)%nat ->
            (nth k l 0 = 0 -> nth (k + 1) l 0 = 0)
            /\ (nth k l 0 <> 0 -> nth k l 0 <> nth (k + 1) l 0).

(** The value at rank [k], in travel order, of line [i] of a move in
    direction [d]. *)
Definition lineCell (d : Direction) (g : Grid) (i k : nat) : Z :=
  cell g (fst (cellAt d i k)) (snd (cellAt d i k)).

(** No tile of the board can travel or merge in direction [d]. *)
Definition stuck (g : Grid) (d : Direction) : Prop :=
  forall i, (i < GRID_SIZE)%nat ->
  forall k, (k + 1 < GRID_SIZE)%nat ->
    (lineCell d g i k = 0 -> lineCell d g i (k + 1) = 0)
    /\ (lineCell d g i k <> 0 -> lineCell d g i k <> lineCell d g i (k + 1)).

(** What a cell adds to the number of tiles. *)
Definition tileAt (v : Z) : nat := if v =? 0 then O else 1%nat.

(** ** The swipe handler of both files *)

(** [handleTouchEnd], the same function in both files: the direction it
    hands to [move], if any, from the recorded start of the touch and the
    point where the finger is lifted.  The coordinates are doubles, and the
    two subtractions round: [minus] stands for the subtraction of doubles
    and is left a parameter, so that nothing proved below depends on what it
    returns.  Every double is a rational, and [Math.abs] and the
    comparisons are exact on doubles. *)
Definition handleTouchEnd (minus : Q -> Q -> Q)
           (touchStart : option (Q * Q))
           (touchEndX touchEndY : Q) : option Direction :=
  match touchStart with
  | None => None
  | Some (startX, startY) =>
      let deltaX := minus touchEndX startX in
      let deltaY := minus touchEndY startY in
      let minSwipe := inject_Z 30 in
      if Qltb (Qabs deltaY) (Qabs deltaX) then
        if Qltb minSwipe (Qabs deltaX)
        then Some (if Qltb 0 deltaX then Right else Left)
        else None
      else
        if Qltb minSwipe (Qabs deltaY)
        then Some (if Qltb 0 deltaY then Down else Up)
        else None
  end.

Definition opposite (d : Direction) : Direction :=
  match d with
  | Up => Down
  | Down => Up
  | Left => Right
  | Right => Left
  end.

(** ** Reference definitions for whole turns and for the ids *)

(** A turn of the tile version: [move], then the callback it has scheduled
    with [setTimeout], no other event coming in between. *)
Definition playTurn (st : TileApp.State) (d : Direction) (r1 r2 : Q)
  : TileApp.State :=
  match TileApp.move st d with
  | (st', Some p) => TileApp.finishMove st' p r1 r2
  | (st', None) => st'
  end.

(** The state of the grid version that a state of the tile version
    stands for. *)
Definition gridState (st : TileApp.State) : GridApp.State :=
  GridApp.mkState (TileApp.tilesToGrid (TileApp.tiles st))
                  (TileApp.score st) (TileApp.bestScore st)
                  (TileApp.gameOver st) (TileApp.won st) (TileApp.stored st).

(** The id that [generateId] returns when it moves the counter to [n]. *)
Definition tileId (n : Z) : string := String.append "tile-" (numToString n).

(** The ids of the tiles are distinct, and each was generated with the
    counter at [c] at most. *)
Definition freshIds (tl : list TileApp.Tile) (c : Z) : Prop :=
  NoDup (map TileApp.id tl)
  /\ Forall (fun t => exists n, n <= c /\ TileApp.id t = tileId n) tl.

(** The ids that the line loop of [move] gives to the tiles it pushes, from
    the scanned line and the counter at its start. *)
Fixpoint lineIds (line : list TileApp.Tile) (c : Z) : list string :=
  match line with
  | [] => []
  | tile :: rest =>
      match rest with
      | nextTile :: rest' =>
          if TileApp.value tile =? TileApp.value nextTile
          then tileId (c + 1) :: lineIds rest' (c + 1)
          else TileApp.id tile :: lineIds rest c
      | [] => TileApp.id tile :: lineIds rest c
      end
  end.

(** The line a tile lies on, for a horizontal or a vertical move. *)
Definition lineKey (isHorizontal : bool) (t : TileApp.Tile) : Z :=
  if isHorizontal then TileApp.row t else TileApp.col t.

(** Every tile of the list holds a tile value, [n] at most. *)
Definition tilesWithin (n : Z) (tl : list TileApp.Tile) : Prop :=
  Forall (fun t => isTileValue (TileApp.value t) /\ TileApp.value t <= n) tl.


(** A tile that the slide has only moved: it keeps the id and the value of
    a tile of the list, its two flags cleared. *)
Definition keptTile (tl : list TileApp.Tile) (t : TileApp.Tile) : Prop :=
  exists t0, In t0 tl
             /\ TileApp.id t = TileApp.id t0
             /\ TileApp.value t = TileApp.value t0
             /\ TileApp.isNew t = Some false
             /\ TileApp.isMerged t = Some false.

(** A tile that the slide has made by a merge: a new id, generated with the
    counter between [c0] and [c], twice the value of a tile of the list,
    marked merged. *)
Definition mergedTile (tl : list TileApp.Tile) (c0 c : Z)
           (t : TileApp.Tile) : Prop :=
  exists t0 n, In t0 tl
               /\ c0 < n <= c
               /\ TileApp.id t = tileId n
               /\ TileApp.value t = TileApp.value t0 * 2
               /\ TileApp.isNew t = None
               /\ TileApp.isMerged t = Some true.

(** * Properties *)

(** ** Array primitives *)

Lemma set_nth_app_here {A : Type} (pre : list A) (x y : A) (post : list A) :
  set_nth (length pre) x (pre ++ y :: post) = pre ++ x :: post.
Proof.
  induction pre as [| h pre IH]; simpl; [reflexivity | now rewrite IH].
Qed.

Lemma splice1_app_here {A : Type} (pre : list A) (y : A) (post : list A) :
  splice1 (length pre) (pre ++ y :: post) = pre ++ post.
Proof.
  unfold splice1.
  rewrite firstn_app, firstn_all, Nat.sub_diag, app_nil_r.
  replace (S (length pre)) with (length (pre ++ [y]))
    by (rewrite length_app; simpl; lia).
  replace (pre ++ y :: post) with ((pre ++ [y]) ++ post)
    by (now rewrite <- app_assoc).
  rewrite skipn_app, skipn_all, Nat.sub_diag. reflexivity.
Qed.

Lemma nth_app_here {A : Type} (pre : list A) (y d : A) (post : list A) :
  nth (length pre) (pre ++ y :: post) d = y.
Proof.
  rewrite app_nth2, Nat.sub_diag by lia. reflexivity.
Qed.

(** ** The loop of [slideLeft] *)

(** With the scan at index [length pre], the loop leaves [pre] alone and
    merges what follows; [fuel] at least the length of the rest is enough. *)
Lemma mergeLoop_mergeLine (fuel : nat) :
  forall (pre arr : list Z) (points : Z),
    (length arr <= fuel)%nat ->
    GridApp.mergeLoop fuel (length pre) (pre ++ arr) points
    = (pre ++ mergeLine arr, points + mergePoints arr).
Proof.
  induction fuel as [| fuel IH]; intros pre arr points Hlen.
  - destruct arr; simpl in Hlen; [| lia].
    simpl. now rewrite Z.add_0_r.
  - cbn [GridApp.mergeLoop].
    destruct arr as [| a [| b rest]].
    + rewrite app_nil_r.
      replace (Z.of_nat (length pre) <? Z.of_nat (length pre) - 1) with false
        by (symmetry; apply Z.ltb_ge; lia).
      simpl. now rewrite app_nil_r, Z.add_0_r.
    + replace (Z.of_nat (length pre) <? Z.of_nat (length (pre ++ [a])) - 1)
        with false
        by (symmetry; apply Z.ltb_ge; rewrite length_app; simpl; lia).
      simpl. now rewrite Z.add_0_r.
    + replace (Z.of_nat (length pre)
               <? Z.of_nat (length (pre ++ a :: b :: rest)) - 1) with true
        by (symmetry; apply Z.ltb_lt; rewrite length_app; simpl; lia).
      rewrite nth_app_here.
      replace (length pre + 1)%nat with (length (pre ++ [a]))
        by (rewrite length_app; simpl; lia).
      replace (pre ++ a :: b :: rest) with ((pre ++ [a]) ++ b :: rest)
        by (now rewrite <- app_assoc).
      rewrite nth_app_here.
      cbn [mergeLine mergePoints].
      destruct (a =? b) eqn:Hab.
      * rewrite <- app_assoc. cbn [app].
        rewrite set_nth_app_here, nth_app_here.
        replace (pre ++ a * 2 :: b :: rest)
          with ((pre ++ [a * 2]) ++ b :: rest) by (now rewrite <- app_assoc).
        replace (length (pre ++ [a])) with (length (pre ++ [a * 2]))
          by (rewrite !length_app; reflexivity).
        rewrite splice1_app_here.
        rewrite IH by (simpl in Hlen; lia).
        rewrite <- app_assoc. cbn [app]. f_equal. lia.
      * rewrite IH by (simpl in Hlen |- *; lia).
        now rewrite <- app_assoc.
Qed.

(** The loop of [slideLeft] always runs to its exit: any fuel from the
    length of the array on gives the same result. *)
Lemma mergeLoop_fuel (fuel : nat) (arr : list Z) :
  (length arr <= fuel)%nat ->
  GridApp.mergeLoop fuel 0 arr 0 = GridApp.mergeLoop (length arr) 0 arr 0.
Proof.
  intros H.
  pose proof (mergeLoop_mergeLine fuel [] arr 0 H) as E1.
  pose proof (mergeLoop_mergeLine (length arr) [] arr 0 (Nat.le_refl _)) as E2.
  simpl in E1, E2. now rewrite E1, E2.
Qed.

Lemma slideLeft_eq (row : list Z) :
  GridApp.slideLeft row
  = (GridApp.pad (mergeLine (compact row)), mergePoints (compact row)).
Proof.
  unfold GridApp.slideLeft, compact.
  change (fun val : Z => negb (val =? 0)) with nonzero.
  pose proof (mergeLoop_mergeLine _ [] (filter nonzero row) 0 (Nat.le_refl _))
    as E.
  simpl in E. now rewrite E.
Qed.

(** ** [join(',')] tells arrays of integers apart *)

Lemma uint_digits_no_comma (d : Decimal.uint) :
  hasComma (NilEmpty.string_of_uint d) = false.
Proof.
  induction d; simpl; auto.
Qed.

Lemma numToString_no_comma (n : Z) : hasComma (numToString n) = false.
Proof.
  unfold numToString, NilZero.string_of_int, NilZero.string_of_uint.
  destruct (Z.to_int n) as [d | d]; destruct d; simpl;
    auto using uint_digits_no_comma.
Qed.

Lemma numToString_nonempty (n : Z) : numToString n <> "".
Proof.
  unfold numToString, NilZero.string_of_int, NilZero.string_of_uint.
  destruct (Z.to_int n) as [d | d]; destruct d; simpl; discriminate.
Qed.

Lemma numToString_inj (a b : Z) : numToString a = numToString b -> a = b.
Proof.
  unfold numToString. intros H.
  assert (Hnn : forall z, Z.to_int z <> Decimal.Pos Decimal.Nil
                          /\ Z.to_int z <> Decimal.Neg Decimal.Nil).
  { intros [| p | p]; simpl; split; try discriminate;
      intros E; injection E as E; now apply Unsigned.to_uint_nonnil in E. }
  apply DecimalZ.to_int_inj.
  assert (E : Some (Z.to_int a) = Some (Z.to_int b)).
  { rewrite <- (NilZero.isi (Z.to_int a)), <- (NilZero.isi (Z.to_int b));
      try apply Hnn.
    now rewrite H. }
  now injection E.
Qed.

(** Two strings cut at their first comma agree piece by piece. *)
Lemma comma_split (s1 s2 t1 t2 : string) :
  hasComma s1 = false -> hasComma s2 = false ->
  String.append s1 (String "," t1) = String.append s2 (String "," t2) ->
  s1 = s2 /\ t1 = t2.
Proof.
  revert s2. induction s1 as [| c s1 IH]; intros [| c2 s2] H1 H2 E;
    simpl in *.
  - injection E as E. now split.
  - injection E as Ec E. subst c2. simpl in H2. discriminate.
  - injection E as Ec E. subst c. simpl in H1. discriminate.
  - injection E as Ec E. subst c2.
    destruct (Ascii.eqb c ","); [discriminate |].
    destruct (IH s2 H1 H2 E) as [-> ->]. now split.
Qed.

Lemma comma_free_not_split (s s2 t : string) :
  hasComma s = false -> s <> String.append s2 (String "," t).
Proof.
  revert s2. induction s as [| c s IH]; intros [| c2 s2] H E; simpl in *;
    try discriminate.
  - injection E as Ec E. subst c. simpl in H. discriminate.
  - injection E as Ec E. subst c2.
    destruct (Ascii.eqb c ","); [discriminate |].
    now apply (IH s2 H).
Qed.

Lemma join_cons2 (x y : Z) (l : list Z) :
  join (x :: y :: l)
  = String.append (numToString x) (String "," (join (y :: l))).
Proof. reflexivity. Qed.

Lemma join_inj (a : list Z) : forall b, join a = join b -> a = b.
Proof.
  induction a as [| x [| x' a'] IH]; intros [| y [| y' b']] E;
    try reflexivity.
  - exfalso. simpl in E. symmetry in E. now apply numToString_nonempty in E.
  - exfalso. rewrite join_cons2 in E. change (join []) with "" in E.
    destruct (numToString y); [| discriminate].
    now apply (numToString_nonempty y).
  - exfalso. simpl in E. now apply numToString_nonempty in E.
  - simpl in E. now apply numToString_inj in E; subst.
  - exfalso. rewrite join_cons2 in E. simpl in E.
    now apply comma_free_not_split in E; [| apply numToString_no_comma].
  - exfalso. rewrite join_cons2 in E. change (join []) with "" in E.
    destruct (numToString x) eqn:Hx; [now apply numToString_nonempty in Hx |].
    discriminate.
  - exfalso. rewrite join_cons2 in E. simpl in E. symmetry in E.
    now apply comma_free_not_split in E; [| apply numToString_no_comma].
  - rewrite !join_cons2 in E.
    apply comma_split in E; try apply numToString_no_comma.
    destruct E as [Ex E]. apply numToString_inj in Ex. subst y.
    f_equal. now apply IH.
Qed.

(** The comparison of [move] is the comparison of the two arrays. *)
Lemma joinDiffers_false (original newRow : list Z) :
  GridApp.joinDiffers original newRow = false <-> original = newRow.
Proof.
  unfold GridApp.joinDiffers. rewrite negb_false_iff, String.eqb_eq.
  split; [apply join_inj | now intros ->].
Qed.

Lemma joinDiffers_true (original newRow : list Z) :
  GridApp.joinDiffers original newRow = true <-> original <> newRow.
Proof.
  rewrite <- joinDiffers_false. destruct (GridApp.joinDiffers _ _); split;
    congruence.
Qed.

(** ** The merge of one line *)

(** Induction along the scan of [mergeLine]. *)
Lemma merge_scan_ind (P : list Z -> Prop) :
  P [] ->
  (forall a, P [a]) ->
  (forall a rest, P rest -> P (a :: a :: rest)) ->
  (forall a b rest, a <> b -> P (b :: rest) -> P (a :: b :: rest)) ->
  forall arr, P arr.
Proof.
  intros Hnil Hone Hmerge Hskip arr.
  assert (H : forall n l, (length l <= n)%nat -> P l).
  { induction n as [| n IH]; intros l Hl.
    - destruct l; [assumption | simpl in Hl; lia].
    - destruct l as [| a [| b rest]]; auto.
      destruct (Z.eq_dec a b) as [-> | Hne].
      + apply Hmerge, IH. simpl in Hl. lia.
      + apply Hskip; [assumption |]. apply IH. simpl in Hl |- *. lia. }
  exact (H (length arr) arr (Nat.le_refl _)).
Qed.

Lemma mergeLine_same (a : Z) (rest : list Z) :
  mergeLine (a :: a :: rest) = a * 2 :: mergeLine rest.
Proof. cbn [mergeLine]. now rewrite Z.eqb_refl. Qed.

Lemma mergeLine_diff (a b : Z) (rest : list Z) :
  a <> b -> mergeLine (a :: b :: rest) = a :: mergeLine (b :: rest).
Proof.
  intros H. cbn [mergeLine]. apply Z.eqb_neq in H. now rewrite H.
Qed.

Lemma mergePoints_same (a : Z) (rest : list Z) :
  mergePoints (a :: a :: rest) = a * 2 + mergePoints rest.
Proof. cbn [mergePoints]. now rewrite Z.eqb_refl. Qed.

Lemma mergePoints_diff (a b : Z) (rest : list Z) :
  a <> b -> mergePoints (a :: b :: rest) = mergePoints (b :: rest).
Proof.
  intros H. cbn [mergePoints]. apply Z.eqb_neq in H. now rewrite H.
Qed.

Lemma mergeCount_same (a : Z) (rest : list Z) :
  mergeCount (a :: a :: rest) = S (mergeCount rest).
Proof. cbn [mergeCount]. now rewrite Z.eqb_refl. Qed.

Lemma mergeCount_diff (a b : Z) (rest : list Z) :
  a <> b -> mergeCount (a :: b :: rest) = mergeCount (b :: rest).
Proof.
  intros H. cbn [mergeCount]. apply Z.eqb_neq in H. now rewrite H.
Qed.

Create Rewrite HintDb merge_eqs.
#[export] Hint Rewrite mergeLine_same mergePoints_same mergeCount_same
  : merge_eqs.
#[export] Hint Rewrite mergeLine_diff mergePoints_diff mergeCount_diff
  using assumption : merge_eqs.

Ltac merge_scan arr :=
  induction arr as [| ? | ? ? ? | ? ? ? ? ?] using merge_scan_ind;
  autorewrite with merge_eqs.

Lemma mergeLine_sum (arr : list Z) : sumZ (mergeLine arr) = sumZ arr.
Proof.
  merge_scan arr; try reflexivity;
    unfold sumZ in *; cbn [fold_right] in *; lia.
Qed.

Lemma mergeLine_length (arr : list Z) :
  (length (mergeLine arr) + mergeCount arr = length arr)%nat.
Proof.
  merge_scan arr; try reflexivity; simpl in *; lia.
Qed.

Lemma mergeCount_zero (arr : list Z) :
  mergeCount arr = O -> mergeLine arr = arr /\ mergePoints arr = 0.
Proof.
  merge_scan arr; intros Hc; try (split; reflexivity); try discriminate.
  destruct (IHarr Hc) as [E1 E2]. split; congruence.
Qed.

Lemma mergeLine_nonzero (arr : list Z) :
  Forall (fun v => v <> 0) arr -> Forall (fun v => v <> 0) (mergeLine arr).
Proof.
  merge_scan arr; intros Hnz; auto.
  - inversion Hnz as [| ? ? Ha Hnz']; subst. inversion Hnz'; subst.
    constructor; [lia | auto].
  - inversion Hnz; subst. constructor; auto.
Qed.

(** ** Compaction and padding *)

Lemma compact_nonzero (row : list Z) : Forall (fun v => v <> 0) (compact row).
Proof.
  apply Forall_forall. intros v Hv. apply filter_In in Hv.
  destruct Hv as [_ Hv]. unfold nonzero in Hv.
  apply negb_true_iff, Z.eqb_neq in Hv. exact Hv.
Qed.

Lemma compact_sum (row : list Z) : sumZ (compact row) = sumZ row.
Proof.
  induction row as [| v row IH]; [reflexivity |].
  unfold compact in *. simpl. unfold nonzero at 1.
  destruct (Z.eqb_spec v 0); simpl; lia.
Qed.

Lemma compact_length (row : list Z) : (length (compact row) <= length row)%nat.
Proof. apply filter_length_le. Qed.

Lemma compact_of_nonzero (l : list Z) :
  Forall (fun v => v <> 0) l -> compact l = l.
Proof.
  induction 1 as [| v l Hv _ IH]; [reflexivity |].
  unfold compact in *. simpl. unfold nonzero at 1.
  apply Z.eqb_neq in Hv. rewrite Hv. simpl. now rewrite IH.
Qed.

Lemma compact_app (l1 l2 : list Z) :
  compact (l1 ++ l2) = compact l1 ++ compact l2.
Proof. apply filter_app. Qed.

Lemma compact_zeros (n : nat) : compact (repeat 0 n) = [].
Proof. induction n; simpl; auto. Qed.

Lemma compact_pad (l : list Z) :
  Forall (fun v => v <> 0) l -> compact (GridApp.pad l) = l.
Proof.
  intros H. unfold GridApp.pad.
  now rewrite compact_app, compact_zeros, app_nil_r, compact_of_nonzero.
Qed.

Lemma sumZ_cons (x : Z) (l : list Z) : sumZ (x :: l) = x + sumZ l.
Proof. reflexivity. Qed.

Lemma sumZ_app (l1 l2 : list Z) : sumZ (l1 ++ l2) = sumZ l1 + sumZ l2.
Proof. induction l1; simpl; lia. Qed.

Lemma sumZ_zeros (n : nat) : sumZ (repeat 0 n) = 0.
Proof. induction n; simpl; lia. Qed.

Lemma sumZ_rev (l : list Z) : sumZ (rev l) = sumZ l.
Proof.
  induction l; simpl; [reflexivity |]. rewrite sumZ_app. simpl. lia.
Qed.

Lemma pad_sum (l : list Z) : sumZ (GridApp.pad l) = sumZ l.
Proof. unfold GridApp.pad. rewrite sumZ_app, sumZ_zeros. lia. Qed.

Lemma pad_length (l : list Z) :
  (length l <= GRID_SIZE)%nat -> length (GridApp.pad l) = GRID_SIZE.
Proof.
  intros H. unfold GridApp.pad. rewrite length_app, repeat_length. lia.
Qed.

(** ** [slideLeft] on one line *)

Lemma slideRow_eq (row : list Z) :
  slideRow row = GridApp.pad (mergeLine (compact row)).
Proof. unfold slideRow. now rewrite slideLeft_eq. Qed.

Lemma slidePoints_eq (row : list Z) :
  slidePoints row = mergePoints (compact row).
Proof. unfold slidePoints. now rewrite slideLeft_eq. Qed.

Lemma slideLeft_pair (row : list Z) :
  GridApp.slideLeft row = (slideRow row, slidePoints row).
Proof. unfold slideRow, slidePoints. now destruct (GridApp.slideLeft row). Qed.

Lemma slideRow_sum (row : list Z) : sumZ (slideRow row) = sumZ row.
Proof.
  now rewrite slideRow_eq, pad_sum, mergeLine_sum, compact_sum.
Qed.

Lemma slideRow_length (row : list Z) :
  (length row <= GRID_SIZE)%nat -> length (slideRow row) = GRID_SIZE.
Proof.
  intros H. rewrite slideRow_eq. apply pad_length.
  pose proof (mergeLine_length (compact row)).
  pose proof (compact_length row). lia.
Qed.

(** A line that [slideLeft] returns as it was had no merge, hence no
    points. *)
Lemma slideRow_fixed_points (row : list Z) :
  slideRow row = row -> slidePoints row = 0.
Proof.
  rewrite slideRow_eq, slidePoints_eq. intros H.
  apply mergeCount_zero.
  assert (E : compact (GridApp.pad (mergeLine (compact row))) = compact row)
    by now rewrite H.
  rewrite compact_pad in E
    by (apply mergeLine_nonzero, compact_nonzero).
  pose proof (mergeLine_length (compact row)) as L.
  rewrite E in L. lia.
Qed.

(** ** Boards *)

Lemma board_cells (g : Grid) :
  is_board g ->
  exists a0 a1 a2 a3 b0 b1 b2 b3 c0 c1 c2 c3 d0 d1 d2 d3 : Z,
    g = [[a0; a1; a2; a3]; [b0; b1; b2; b3];
         [c0; c1; c2; c3]; [d0; d1; d2; d3]].
Proof.
  intros [Hlen Hrows].
  destruct g as [| r0 [| r1 [| r2 [| r3 [| r4 g]]]]]; try discriminate.
  apply Forall_cons_iff in Hrows as [H0 Hrows].
  apply Forall_cons_iff in Hrows as [H1 Hrows].
  apply Forall_cons_iff in Hrows as [H2 Hrows].
  apply Forall_cons_iff in Hrows as [H3 _].
  destruct r0 as [| ? [| ? [| ? [| ? [| ? ?]]]]]; try discriminate.
  destruct r1 as [| ? [| ? [| ? [| ? [| ? ?]]]]]; try discriminate.
  destruct r2 as [| ? [| ? [| ? [| ? [| ? ?]]]]]; try discriminate.
  destruct r3 as [| ? [| ? [| ? [| ? [| ? ?]]]]]; try discriminate.
  repeat eexists.
Qed.

Ltac board_cases g H :=
  let a0 := fresh "a" in
  destruct (board_cells g H)
    as (a0 & ? & ? & ? & ? & ? & ? & ? & ? & ? & ? & ? & ? & ? & ? & ? & ->).

Lemma is_board_intro (r0 r1 r2 r3 : list Z) :
  length r0 = GRID_SIZE -> length r1 = GRID_SIZE ->
  length r2 = GRID_SIZE -> length r3 = GRID_SIZE ->
  is_board [r0; r1; r2; r3].
Proof.
  intros. split; [reflexivity | repeat constructor; assumption].
Qed.

Lemma joinDiffers_rev (a b : list Z) :
  GridApp.joinDiffers a (rev b) = GridApp.joinDiffers (rev a) b.
Proof.
  destruct (GridApp.joinDiffers (rev a) b) eqn:E.
  - apply joinDiffers_true. apply joinDiffers_true in E.
    intros ->. apply E. apply rev_involutive.
  - apply joinDiffers_false. apply joinDiffers_false in E.
    rewrite <- E. symmetry. apply rev_involutive.
Qed.

Lemma stepLeft_eq (s : GridApp.Locals) (i : nat) :
  GridApp.stepLeft s i
  = let original := nth i (GridApp.newGrid s) [] in
    GridApp.mkLocals
      (set_nth i (slideRow original) (GridApp.newGrid s))
      (GridApp.totalScore s + slidePoints original)
      (GridApp.joinDiffers original (slideRow original) || GridApp.moved s).
Proof.
  unfold GridApp.stepLeft. rewrite slideLeft_pair. reflexivity.
Qed.

Lemma stepRight_eq (s : GridApp.Locals) (i : nat) :
  GridApp.stepRight s i
  = let original := nth i (GridApp.newGrid s) [] in
    let g' := set_nth i (rev (slideRow (rev original))) (GridApp.newGrid s) in
    GridApp.mkLocals
      g'
      (GridApp.totalScore s + slidePoints (rev original))
      (GridApp.joinDiffers original (nth i g' []) || GridApp.moved s).
Proof.
  unfold GridApp.stepRight. rewrite slideLeft_pair. reflexivity.
Qed.

Lemma stepUp_eq (s : GridApp.Locals) (col : nat) :
  GridApp.stepUp s col
  = let column := GridApp.readColumn (GridApp.newGrid s) col in
    GridApp.mkLocals
      (GridApp.writeColumn (GridApp.newGrid s) col (slideRow column))
      (GridApp.totalScore s + slidePoints column)
      (GridApp.joinDiffers column (slideRow column) || GridApp.moved s).
Proof.
  unfold GridApp.stepUp. rewrite slideLeft_pair. reflexivity.
Qed.

Lemma stepDown_eq (s : GridApp.Locals) (col : nat) :
  GridApp.stepDown s col
  = let column := GridApp.readColumn (GridApp.newGrid s) col in
    let finalCol := rev (slideRow (rev column)) in
    GridApp.mkLocals
      (GridApp.writeColumn (GridApp.newGrid s) col finalCol)
      (GridApp.totalScore s + slidePoints (rev column))
      (GridApp.joinDiffers column finalCol || GridApp.moved s).
Proof.
  unfold GridApp.stepDown. rewrite slideLeft_pair. reflexivity.
Qed.

(** One iteration of a loop of [GridApp.slide] on explicit locals, with the
    array reads and writes carried out. *)
Ltac grid_step :=
  match goal with
  | |- context [GridApp.stepLeft (GridApp.mkLocals ?g ?t ?m) ?i] =>
      rewrite (stepLeft_eq (GridApp.mkLocals g t m) i)
  | |- context [GridApp.stepRight (GridApp.mkLocals ?g ?t ?m) ?i] =>
      rewrite (stepRight_eq (GridApp.mkLocals g t m) i)
  | |- context [GridApp.stepUp (GridApp.mkLocals ?g ?t ?m) ?i] =>
      rewrite (stepUp_eq (GridApp.mkLocals g t m) i)
  | |- context [GridApp.stepDown (GridApp.mkLocals ?g ?t ?m) ?i] =>
      rewrite (stepDown_eq (GridApp.mkLocals g t m) i)
  end;
  cbv zeta;
  cbn [GridApp.newGrid GridApp.totalScore GridApp.moved
       GridApp.readColumn GridApp.writeColumn cell set_cell
       nth set_nth map seq fold_left GRID_SIZE].

Lemma orb_four (b0 b1 b2 b3 : bool) :
  b3 || (b2 || (b1 || (b0 || false))) = b0 || (b1 || (b2 || (b3 || false))).
Proof. destruct b0, b1, b2, b3; reflexivity. Qed.

(** [GridApp.slide] line by line: every line of the direction of travel goes
    through [slideLeft] on its own, the points add up, and [moved] records
    whether [join] told some line from its image. *)
Lemma slide_lines (g : Grid) (d : Direction) :
  is_board g ->
  GridApp.slide g d
  = GridApp.mkLocals
      (unlines d (map slideRow (lines d g)))
      (sumZ (map slidePoints (lines d g)))
      (existsb (fun l => GridApp.joinDiffers l (slideRow l)) (lines d g)).
Proof.
  intros H. board_cases g H.
  unfold GridApp.slide. rewrite map_id.
  destruct d; cbn [GRID_SIZE seq fold_left].
  all: do 4 grid_step.
  all: rewrite ?joinDiffers_rev.
  all: unfold unlines, lines, transpose, sumZ.
  all: cbn [GridApp.readColumn cell nth map seq GRID_SIZE existsb fold_right].
  all: rewrite orb_four.
  all: f_equal; lia.
Qed.

(** ** Lines of a board *)

Lemma lines_board (d : Direction) (g : Grid) :
  is_board g -> is_board (lines d g).
Proof.
  intros H. board_cases g H.
  destruct d; apply is_board_intro; reflexivity.
Qed.

Lemma unlines_lines (d : Direction) (g : Grid) :
  is_board g -> unlines d (lines d g) = g.
Proof.
  intros H. board_cases g H. destruct d; reflexivity.
Qed.

Lemma lines_unlines (d : Direction) (ls : list (list Z)) :
  is_board ls -> lines d (unlines d ls) = ls.
Proof.
  intros H. board_cases ls H. destruct d; reflexivity.
Qed.

Lemma unlines_board (d : Direction) (ls : list (list Z)) :
  is_board ls -> is_board (unlines d ls).
Proof.
  intros H. board_cases ls H.
  destruct d; apply is_board_intro; reflexivity.
Qed.

Lemma gridSum_lines (d : Direction) (g : Grid) :
  is_board g -> gridSum (lines d g) = gridSum g.
Proof.
  intros H. board_cases g H.
  destruct d; unfold gridSum, sumZ; cbn; lia.
Qed.

Lemma gridSum_unlines (d : Direction) (ls : list (list Z)) :
  is_board ls -> gridSum (unlines d ls) = gridSum ls.
Proof.
  intros H. board_cases ls H.
  destruct d; unfold gridSum, sumZ; cbn; lia.
Qed.

Lemma slideRow_board (ls : list (list Z)) :
  is_board ls -> is_board (map slideRow ls).
Proof.
  intros [Hlen Hrows]. split; [now rewrite length_map |].
  apply Forall_map. eapply Forall_impl; [| exact Hrows].
  intros l Hl. apply slideRow_length. cbv beta in Hl. lia.
Qed.

Lemma slideRow_gridSum (ls : list (list Z)) :
  gridSum (map slideRow ls) = gridSum ls.
Proof.
  unfold gridSum. induction ls as [| l ls IH]; [reflexivity |].
  cbn [map]. rewrite !sumZ_cons, slideRow_sum. now rewrite IH.
Qed.

Lemma slide_board (g : Grid) (d : Direction) :
  is_board g -> is_board (GridApp.newGrid (GridApp.slide g d)).
Proof.
  intros H. rewrite slide_lines by assumption. cbn [GridApp.newGrid].
  now apply unlines_board, slideRow_board, lines_board.
Qed.

(** [moved] stays [false] exactly when [slideLeft] returned every line as
    it was. *)
Lemma slide_not_moved (g : Grid) (d : Direction) :
  is_board g ->
  GridApp.moved (GridApp.slide g d) = false
  <-> map slideRow (lines d g) = lines d g.
Proof.
  intros H. rewrite slide_lines by assumption. cbn [GridApp.moved].
  generalize (lines d g). intros ls.
  induction ls as [| l ls IH]; [now split |].
  cbn [existsb map]. rewrite orb_false_iff, joinDiffers_false, IH.
  split.
  - intros [E1 E2]. congruence.
  - intros E. injection E as E1 E2. split; congruence.
Qed.

Lemma slide_fixed_iff (g : Grid) (d : Direction) :
  is_board g ->
  map slideRow (lines d g) = lines d g
  <-> GridApp.newGrid (GridApp.slide g d) = g.
Proof.
  intros H. rewrite slide_lines by assumption. cbn [GridApp.newGrid].
  split.
  - intros ->. now apply unlines_lines.
  - intros E. apply (f_equal (lines d)) in E.
    rewrite lines_unlines in E; [exact E |].
    now apply slideRow_board, lines_board.
Qed.

Lemma fixed_lines_no_points (ls : list (list Z)) :
  map slideRow ls = ls -> sumZ (map slidePoints ls) = 0.
Proof.
  induction ls as [| l ls IH]; [reflexivity |].
  cbn [map]. intros E. injection E as E1 E2.
  unfold sumZ in *. cbn [fold_right].
  rewrite (slideRow_fixed_points l E1), (IH E2). reflexivity.
Qed.

(** ** Cells under writes *)

Lemma set_nth_length {A : Type} (i : nat) (x : A) (l : list A) :
  length (set_nth i x l) = length l.
Proof.
  revert i. induction l as [| h l IH]; intros [| i]; simpl; auto.
Qed.

Lemma nth_set_nth_same {A : Type} (i : nat) (x d : A) (l : list A) :
  (i < length l)%nat -> nth i (set_nth i x l) d = x.
Proof.
  revert i. induction l as [| h l IH]; intros [| i] H; simpl in *;
    try lia; auto. apply IH. lia.
Qed.

Lemma nth_set_nth_other {A : Type} (i j : nat) (x d : A) (l : list A) :
  i <> j -> nth j (set_nth i x l) d = nth j l d.
Proof.
  revert i j. induction l as [| h l IH]; intros [| i] [| j] H; simpl;
    try reflexivity; try lia. apply IH. lia.
Qed.

Lemma set_nth_beyond {A : Type} (i : nat) (x : A) (l : list A) :
  (length l <= i)%nat -> set_nth i x l = l.
Proof.
  revert i. induction l as [| h l IH]; intros [| i] H; simpl in *;
    try reflexivity; try lia. f_equal. apply IH. lia.
Qed.

Lemma Forall_set_nth {A : Type} (P : A -> Prop) (i : nat) (x : A)
      (l : list A) :
  Forall P l -> P x -> Forall P (set_nth i x l).
Proof.
  intros H Hx. revert i.
  induction H as [| h l Hh Hl IH]; intros [| i]; simpl;
    try constructor; auto.
Qed.

Lemma board_row_length (g : Grid) (i : nat) :
  is_board g -> (i < GRID_SIZE)%nat -> length (nth i g []) = GRID_SIZE.
Proof.
  intros [Hl Hr] Hi. rewrite Forall_forall in Hr.
  apply Hr, nth_In. lia.
Qed.

Lemma set_cell_board (g : Grid) (i j : nat) (v : Z) :
  is_board g -> is_board (set_cell g i j v).
Proof.
  intros H. destruct (Nat.lt_ge_cases i GRID_SIZE) as [Hi | Hi].
  - destruct H as [Hl Hr]. unfold set_cell. split.
    + now rewrite set_nth_length.
    + apply Forall_set_nth; [assumption |].
      rewrite set_nth_length. now apply board_row_length.
  - unfold set_cell. rewrite set_nth_beyond; [assumption |].
    destruct H as [Hl _]. lia.
Qed.

Lemma cell_set_cell_same (g : Grid) (i j : nat) (v : Z) :
  is_board g -> (i < GRID_SIZE)%nat -> (j < GRID_SIZE)%nat ->
  cell (set_cell g i j v) i j = v.
Proof.
  intros H Hi Hj. unfold cell, set_cell.
  rewrite nth_set_nth_same by (destruct H; lia).
  apply nth_set_nth_same. rewrite board_row_length; assumption.
Qed.

Lemma cell_set_cell_other (g : Grid) (i j r c : nat) (v : Z) :
  (i, j) <> (r, c) -> cell (set_cell g i j v) r c = cell g r c.
Proof.
  intros Hne. unfold cell, set_cell.
  destruct (Nat.eq_dec i r) as [-> | Hir].
  - assert (Hjc : j <> c) by congruence.
    destruct (Nat.lt_ge_cases r (length g)) as [Hr | Hr].
    + rewrite nth_set_nth_same by assumption.
      now apply nth_set_nth_other.
    + now rewrite set_nth_beyond.
  - now rewrite nth_set_nth_other.
Qed.

Lemma empty_board : is_board (repeat (repeat 0 GRID_SIZE) GRID_SIZE).
Proof. apply is_board_intro; reflexivity. Qed.

(** Two boards with the same cells are the same board. *)
Lemma board_ext (g1 g2 : Grid) :
  is_board g1 -> is_board g2 ->
  (forall r c, (r < GRID_SIZE)%nat -> (c < GRID_SIZE)%nat ->
               cell g1 r c = cell g2 r c) ->
  g1 = g2.
Proof.
  intros H1 H2 E. board_cases g1 H1. board_cases g2 H2.
  assert (L : forall n, (n < 4)%nat -> (n < GRID_SIZE)%nat)
    by (intros n Hn; exact Hn).
  pose proof (E 0%nat 0%nat (L 0%nat ltac:(lia)) (L 0%nat ltac:(lia))).
  pose proof (E 0%nat 1%nat (L 0%nat ltac:(lia)) (L 1%nat ltac:(lia))).
  pose proof (E 0%nat 2%nat (L 0%nat ltac:(lia)) (L 2%nat ltac:(lia))).
  pose proof (E 0%nat 3%nat (L 0%nat ltac:(lia)) (L 3%nat ltac:(lia))).
  pose proof (E 1%nat 0%nat (L 1%nat ltac:(lia)) (L 0%nat ltac:(lia))).
  pose proof (E 1%nat 1%nat (L 1%nat ltac:(lia)) (L 1%nat ltac:(lia))).
  pose proof (E 1%nat 2%nat (L 1%nat ltac:(lia)) (L 2%nat ltac:(lia))).
  pose proof (E 1%nat 3%nat (L 1%nat ltac:(lia)) (L 3%nat ltac:(lia))).
  pose proof (E 2%nat 0%nat (L 2%nat ltac:(lia)) (L 0%nat ltac:(lia))).
  pose proof (E 2%nat 1%nat (L 2%nat ltac:(lia)) (L 1%nat ltac:(lia))).
  pose proof (E 2%nat 2%nat (L 2%nat ltac:(lia)) (L 2%nat ltac:(lia))).
  pose proof (E 2%nat 3%nat (L 2%nat ltac:(lia)) (L 3%nat ltac:(lia))).
  pose proof (E 3%nat 0%nat (L 3%nat ltac:(lia)) (L 0%nat ltac:(lia))).
  pose proof (E 3%nat 1%nat (L 3%nat ltac:(lia)) (L 1%nat ltac:(lia))).
  pose proof (E 3%nat 2%nat (L 3%nat ltac:(lia)) (L 2%nat ltac:(lia))).
  pose proof (E 3%nat 3%nat (L 3%nat ltac:(lia)) (L 3%nat ltac:(lia))).
  cbn in *. congruence.
Qed.

(** ** [tilesToGrid] *)

Lemma tilesToGrid_gridOf (tl : list TileApp.Tile) :
  TileApp.tilesToGrid tl
  = gridOf (map vrc tl) (repeat (repeat 0 GRID_SIZE) GRID_SIZE).
Proof.
  unfold TileApp.tilesToGrid, gridOf.
  generalize (repeat (repeat 0 GRID_SIZE) GRID_SIZE).
  induction tl as [| t tl IH]; intros g0; [reflexivity |].
  cbn [map fold_left]. rewrite IH. reflexivity.
Qed.

Lemma placeV_board (g : Grid) (x : Z * Z * Z) :
  is_board g -> is_board (placeV g x).
Proof.
  intros H. destruct x as [[v r] c]. unfold placeV.
  destruct (TileApp.inGrid r c); [now apply set_cell_board | assumption].
Qed.

Lemma gridOf_board (l : list (Z * Z * Z)) (g0 : Grid) :
  is_board g0 -> is_board (gridOf l g0).
Proof.
  revert g0. induction l as [| x l IH]; intros g0 H; [assumption |].
  apply IH, placeV_board, H.
Qed.

Lemma tilesToGrid_board (tl : list TileApp.Tile) :
  is_board (TileApp.tilesToGrid tl).
Proof.
  rewrite tilesToGrid_gridOf. apply gridOf_board, empty_board.
Qed.

Lemma gridOf_app (l1 l2 : list (Z * Z * Z)) (g0 : Grid) :
  gridOf (l1 ++ l2) g0 = gridOf l2 (gridOf l1 g0).
Proof. apply fold_left_app. Qed.

Lemma inGrid_bounds (r c : Z) :
  TileApp.inGrid r c = true <-> 0 <= r < 4 /\ 0 <= c < 4.
Proof.
  unfold TileApp.inGrid, GRID_SIZE.
  rewrite !andb_true_iff, !Z.leb_le, !Z.ltb_lt. lia.
Qed.

(** A write elsewhere leaves a cell alone. *)
Lemma placeV_other (g : Grid) (v p q : Z) (r c : nat) :
  (p, q) <> (Z.of_nat r, Z.of_nat c) ->
  cell (placeV g (v, p, q)) r c = cell g r c.
Proof.
  intros Hne. unfold placeV.
  destruct (TileApp.inGrid p q) eqn:Hin; [| reflexivity].
  apply inGrid_bounds in Hin.
  apply cell_set_cell_other. intros E. injection E as E1 E2.
  apply Hne. f_equal; lia.
Qed.

Lemma placeV_same (g : Grid) (v : Z) (r c : nat) :
  is_board g -> (r < GRID_SIZE)%nat -> (c < GRID_SIZE)%nat ->
  cell (placeV g (v, Z.of_nat r, Z.of_nat c)) r c = v.
Proof.
  intros H Hr Hc. unfold placeV.
  replace (TileApp.inGrid (Z.of_nat r) (Z.of_nat c)) with true
    by (symmetry; apply inGrid_bounds; unfold GRID_SIZE in *; lia).
  rewrite !Nat2Z.id. now apply cell_set_cell_same.
Qed.

Lemma gridOf_frame (l : list (Z * Z * Z)) (g0 : Grid) (r c : nat) :
  (forall v p q, In (v, p, q) l -> (p, q) <> (Z.of_nat r, Z.of_nat c)) ->
  cell (gridOf l g0) r c = cell g0 r c.
Proof.
  revert g0. induction l as [| [[v p] q] l IH]; intros g0 H; [reflexivity |].
  cbn [gridOf fold_left]. change (fold_left placeV l ?g) with (gridOf l g).
  rewrite IH by (intros; eapply H; right; eassumption).
  apply placeV_other. eapply H. left. reflexivity.
Qed.

(** ** The line loop of the tile version *)

Lemma pushMerged_vrc (isH : bool) (i : nat) (pos : Z) (tile : TileApp.Tile)
      (s : TileApp.LineState) :
  map vrc (TileApp.processedLine (TileApp.pushMerged isH i pos tile s))
  = map vrc (TileApp.processedLine s)
    ++ [(TileApp.value tile * 2, fst (slot isH i pos), snd (slot isH i pos))]
  /\ TileApp.linePoints (TileApp.pushMerged isH i pos tile s)
     = TileApp.linePoints s + TileApp.value tile * 2.
Proof.
  unfold TileApp.pushMerged, TileApp.generateId. cbn.
  rewrite map_app. split; reflexivity.
Qed.

Lemma pushMoved_vrc (isH : bool) (i : nat) (pos : Z) (tile : TileApp.Tile)
      (s : TileApp.LineState) :
  map vrc (TileApp.processedLine (TileApp.pushMoved isH i pos tile s))
  = map vrc (TileApp.processedLine s)
    ++ [(TileApp.value tile, fst (slot isH i pos), snd (slot isH i pos))]
  /\ TileApp.linePoints (TileApp.pushMoved isH i pos tile s)
     = TileApp.linePoints s.
Proof.
  unfold TileApp.pushMoved. cbn. rewrite map_app. split; reflexivity.
Qed.

Lemma lineLoop_one (isH : bool) (i : nat) (step : Z) (tile : TileApp.Tile)
      (pos : Z) (s : TileApp.LineState) :
  TileApp.lineLoop isH i step [tile] pos s = TileApp.pushMoved isH i pos tile s.
Proof. reflexivity. Qed.

Lemma lineLoop_merge (isH : bool) (i : nat) (step : Z)
      (tile nextTile : TileApp.Tile) (rest : list TileApp.Tile) (pos : Z)
      (s : TileApp.LineState) :
  TileApp.value tile = TileApp.value nextTile ->
  TileApp.lineLoop isH i step (tile :: nextTile :: rest) pos s
  = TileApp.lineLoop isH i step rest (pos + step)
                     (TileApp.pushMerged isH i pos tile s).
Proof.
  intros E. apply Z.eqb_eq in E.
  cbn [TileApp.lineLoop]. rewrite E. reflexivity.
Qed.

Lemma lineLoop_move (isH : bool) (i : nat) (step : Z)
      (tile nextTile : TileApp.Tile) (rest : list TileApp.Tile) (pos : Z)
      (s : TileApp.LineState) :
  TileApp.value tile <> TileApp.value nextTile ->
  TileApp.lineLoop isH i step (tile :: nextTile :: rest) pos s
  = TileApp.lineLoop isH i step (nextTile :: rest) (pos + step)
                     (TileApp.pushMoved isH i pos tile s).
Proof.
  intros E. apply Z.eqb_neq in E.
  cbn [TileApp.lineLoop]. rewrite E. reflexivity.
Qed.

(** The loop lays the merged values out from [pos] on; its points are
    those of [mergeLine]. *)
Lemma lineLoop_vrc (isH : bool) (i : nat) (step : Z) (n : nat) :
  forall (line : list TileApp.Tile) (pos : Z) (s : TileApp.LineState),
    (length line <= n)%nat ->
    map vrc (TileApp.processedLine (TileApp.lineLoop isH i step line pos s))
    = map vrc (TileApp.processedLine s)
      ++ placed isH i step pos (mergeLine (map TileApp.value line))
    /\ TileApp.linePoints (TileApp.lineLoop isH i step line pos s)
       = TileApp.linePoints s + mergePoints (map TileApp.value line).
Proof.
  induction n as [| n IH]; intros line pos s Hlen.
  - destruct line; [| simpl in Hlen; lia].
    cbn. rewrite app_nil_r. split; [reflexivity | lia].
  - destruct line as [| tile [| nextTile rest]].
    + cbn. rewrite app_nil_r. split; [reflexivity | lia].
    + rewrite lineLoop_one. cbn [map mergeLine mergePoints placed].
      destruct (pushMoved_vrc isH i pos tile s) as [E1 E2].
      rewrite E1, E2. split; [reflexivity | lia].
    + cbn [map].
      destruct (Z.eq_dec (TileApp.value tile) (TileApp.value nextTile))
        as [Hv | Hv].
      * rewrite lineLoop_merge by assumption.
        rewrite Hv, mergeLine_same, mergePoints_same, <- Hv.
        destruct (IH rest (pos + step)
                     (TileApp.pushMerged isH i pos tile s)) as [E1 E2];
          [simpl in Hlen; lia |].
        destruct (pushMerged_vrc isH i pos tile s) as [M1 M2].
        rewrite E1, E2, M1, M2. cbn [placed]. rewrite <- app_assoc.
        split; [reflexivity | lia].
      * rewrite lineLoop_move by assumption.
        rewrite mergeLine_diff, mergePoints_diff by assumption.
        destruct (IH (nextTile :: rest) (pos + step)
                     (TileApp.pushMoved isH i pos tile s)) as [E1 E2];
          [simpl in Hlen |- *; lia |].
        destruct (pushMoved_vrc isH i pos tile s) as [M1 M2].
        cbn [map] in E1, E2.
        rewrite E1, E2, M1, M2. cbn [placed]. rewrite <- app_assoc.
        split; [reflexivity | lia].
Qed.

Lemma sortBy_of_empty (cmp : TileApp.Tile -> TileApp.Tile -> Z)
      (l : list TileApp.Tile) :
  length l = O -> TileApp.sortBy cmp l = [].
Proof. destruct l; [reflexivity | discriminate]. Qed.

Lemma stepLine_vrc (isH reverse : bool) (cur : list TileApp.Tile)
      (s : TileApp.Locals) (i : nat) :
  map vrc (TileApp.newTiles (TileApp.stepLine isH reverse cur s i))
  = map vrc (TileApp.newTiles s)
    ++ placed isH i (stepOf reverse) (startPos reverse)
              (mergeLine (lineValues isH reverse cur i))
  /\ TileApp.totalPoints (TileApp.stepLine isH reverse cur s i)
     = TileApp.totalPoints s + mergePoints (lineValues isH reverse cur i).
Proof.
  unfold TileApp.stepLine, lineValues, sortedLine.
  set (line := filter _ cur).
  destruct (length line =? 0)%nat eqn:Hlen.
  - apply Nat.eqb_eq in Hlen. rewrite sortBy_of_empty by assumption.
    cbn. rewrite app_nil_r. split; [reflexivity | lia].
  - cbn [TileApp.newTiles TileApp.totalPoints].
    destruct (lineLoop_vrc isH i (stepOf reverse) _
                (TileApp.sortBy (TileApp.compareFn isH reverse) line)
                (startPos reverse)
                (TileApp.mkLineState [] (TileApp.totalPoints s)
                   (TileApp.moved s) (TileApp.counter s))
                (Nat.le_refl _)) as [E1 E2].
    rewrite map_app. unfold stepOf, startPos in *.
    rewrite E1, E2. split; reflexivity.
Qed.

Lemma fold_stepLine_vrc (isH reverse : bool) (cur : list TileApp.Tile)
      (idx : list nat) :
  forall s : TileApp.Locals,
    map vrc (TileApp.newTiles
               (fold_left (TileApp.stepLine isH reverse cur) idx s))
    = map vrc (TileApp.newTiles s)
      ++ flat_map (fun i => placed isH i (stepOf reverse) (startPos reverse)
                                   (mergeLine (lineValues isH reverse cur i)))
                  idx
    /\ TileApp.totalPoints
         (fold_left (TileApp.stepLine isH reverse cur) idx s)
       = TileApp.totalPoints s
         + sumZ (map (fun i => mergePoints (lineValues isH reverse cur i))
                     idx).
Proof.
  induction idx as [| i idx IH]; intros s.
  - cbn. rewrite app_nil_r. split; [reflexivity | lia].
  - cbn [fold_left flat_map map].
    destruct (IH (TileApp.stepLine isH reverse cur s i)) as [E1 E2].
    destruct (stepLine_vrc isH reverse cur s i) as [S1 S2].
    rewrite E1, E2, S1, S2. rewrite <- app_assoc.
    split; [reflexivity |]. unfold sumZ. cbn [fold_right]. lia.
Qed.

(** ** Laying a line out on a grid *)

Lemma placed_In (isH : bool) (i : nat) (step : Z) (vals : list Z) :
  forall (pos v p q : Z),
    In (v, p, q) (placed isH i step pos vals) ->
    exists k, (k < length vals)%nat
              /\ (p, q) = slot isH i (pos + Z.of_nat k * step)
              /\ v = nth k vals 0.
Proof.
  induction vals as [| v0 vals IH]; intros pos v p q H; [destruct H |].
  cbn [placed] in H. destruct H as [H | H].
  - injection H as Hv Hp Hq. exists O. split; [simpl; lia |].
    split; [| now subst].
    cbn [Z.of_nat]. rewrite Z.mul_0_l, Z.add_0_r. subst p q.
    reflexivity.
  - destruct (IH _ _ _ _ H) as (k & Hk & Hs & Hn).
    exists (S k). split; [simpl; lia |]. split; [| exact Hn].
    rewrite Hs. f_equal. lia.
Qed.

Lemma slot_inj (isH : bool) (i : nat) (p q : Z) :
  slot isH i p = slot isH i q -> p = q.
Proof. unfold slot. destruct isH; intros H; now injection H. Qed.

Lemma placed_frame (isH : bool) (i : nat) (step pos : Z) (vals : list Z)
      (g0 : Grid) (r c : nat) :
  (forall k, (k < length vals)%nat ->
             slot isH i (pos + Z.of_nat k * step)
             <> (Z.of_nat r, Z.of_nat c)) ->
  cell (gridOf (placed isH i step pos vals) g0) r c = cell g0 r c.
Proof.
  intros H. apply gridOf_frame. intros v p q Hin.
  destruct (placed_In _ _ _ _ _ _ _ _ Hin) as (k & Hk & Hs & _).
  rewrite Hs. now apply H.
Qed.

Lemma placed_content (isH : bool) (i : nat) (step : Z) (vals : list Z) :
  step <> 0 ->
  forall (pos : Z) (g0 : Grid) (k r c : nat),
    is_board g0 ->
    (k < length vals)%nat ->
    (r < GRID_SIZE)%nat -> (c < GRID_SIZE)%nat ->
    slot isH i (pos + Z.of_nat k * step) = (Z.of_nat r, Z.of_nat c) ->
    cell (gridOf (placed isH i step pos vals) g0) r c = nth k vals 0.
Proof.
  intros Hstep.
  induction vals as [| v vals IH]; intros pos g0 k r c Hb Hk Hr Hc Hs;
    [simpl in Hk; lia |].
  cbn [placed gridOf fold_left].
  change (fold_left placeV ?l ?g) with (gridOf l g).
  destruct k as [| k].
  - rewrite Z.mul_0_l, Z.add_0_r in Hs.
    rewrite placed_frame.
    + rewrite Hs. cbn [fst snd nth]. now apply placeV_same.
    + intros k' _ E. rewrite <- Hs in E. apply slot_inj in E. nia.
  - cbn [nth]. apply IH; try assumption.
    + now apply placeV_board.
    + simpl in Hk. lia.
    + rewrite <- Hs. f_equal. lia.
Qed.

Lemma slot_cell (d : Direction) (i k r c : nat) :
  (k < GRID_SIZE)%nat -> (r < GRID_SIZE)%nat -> (c < GRID_SIZE)%nat ->
  slot (isHorizontalOf d) i
       (startPos (reverseOf d) + Z.of_nat k * stepOf (reverseOf d))
  = (Z.of_nat r, Z.of_nat c)
  <-> lineIdx d r c = i /\ keyIdx d r c = k.
Proof.
  unfold slot, lineIdx, keyIdx, startPos, stepOf, GRID_SIZE.
  intros Hk Hr Hc.
  destruct d; cbn [isHorizontalOf reverseOf].
  all: rewrite pair_equal_spec; lia.
Qed.

Lemma place_one_line (d : Direction) (i : nat) (vals : list Z) (g0 : Grid)
      (r c : nat) :
  is_board g0 -> (length vals <= GRID_SIZE)%nat ->
  (r < GRID_SIZE)%nat -> (c < GRID_SIZE)%nat ->
  cell (gridOf (placed (isHorizontalOf d) i (stepOf (reverseOf d))
                       (startPos (reverseOf d)) vals) g0) r c
  = if ((lineIdx d r c =? i) && (keyIdx d r c <? length vals))%nat
    then nth (keyIdx d r c) vals 0
    else cell g0 r c.
Proof.
  intros Hb Hlen Hr Hc.
  destruct ((lineIdx d r c =? i) && (keyIdx d r c <? length vals))%nat
    eqn:Hon.
  - apply andb_true_iff in Hon. destruct Hon as [Hl Hk].
    apply Nat.eqb_eq in Hl. apply Nat.ltb_lt in Hk.
    apply placed_content; try assumption.
    + unfold stepOf. destruct (reverseOf d); lia.
    + apply slot_cell; try assumption; [lia | now split].
  - apply placed_frame. intros k Hk E.
    apply slot_cell in E; try assumption; [| lia].
    destruct E as [E1 E2]. subst i k.
    rewrite Nat.eqb_refl in Hon. cbn in Hon.
    apply Nat.ltb_ge in Hon. lia.
Qed.

(** The grid of the tiles that the four line loops pushed. *)
Lemma placed_lines_cell (d : Direction) (vals : nat -> list Z) (r c : nat) :
  (forall i, (i < GRID_SIZE)%nat -> (length (vals i) <= GRID_SIZE)%nat) ->
  (r < GRID_SIZE)%nat -> (c < GRID_SIZE)%nat ->
  cell (gridOf
          (flat_map (fun i => placed (isHorizontalOf d) i
                                     (stepOf (reverseOf d))
                                     (startPos (reverseOf d)) (vals i))
                    (seq 0 GRID_SIZE))
          (repeat (repeat 0 GRID_SIZE) GRID_SIZE)) r c
  = nth (keyIdx d r c) (vals (lineIdx d r c)) 0.
Proof.
  intros Hlen Hr Hc.
  assert (Hline : (lineIdx d r c < GRID_SIZE)%nat)
    by (unfold lineIdx; destruct (isHorizontalOf d); assumption).
  cbn [seq GRID_SIZE flat_map]. rewrite app_nil_r.
  rewrite !gridOf_app.
  pose proof empty_board as B0.
  set (g0 := repeat (repeat 0 GRID_SIZE) GRID_SIZE) in *.
  assert (C0 : cell g0 r c = 0).
  { unfold GRID_SIZE in Hr, Hc.
    destruct r as [| [| [| [| r]]]]; try lia;
      destruct c as [| [| [| [| c]]]]; try lia; reflexivity. }
  set (g1 := gridOf (placed _ 0 _ _ (vals 0%nat)) g0).
  set (g2 := gridOf (placed _ 1 _ _ (vals 1%nat)) g1).
  set (g3 := gridOf (placed _ 2 _ _ (vals 2%nat)) g2).
  assert (B1 : is_board g1) by now apply gridOf_board.
  assert (B2 : is_board g2) by now apply gridOf_board.
  assert (B3 : is_board g3) by now apply gridOf_board.
  assert (L : forall i, (i < 4)%nat -> (length (vals i) <= GRID_SIZE)%nat)
    by (intros; now apply Hlen).
  rewrite (place_one_line d 3 (vals 3%nat) g3 r c B3
             (L 3%nat ltac:(lia)) Hr Hc).
  subst g3.
  rewrite (place_one_line d 2 (vals 2%nat) g2 r c B2
             (L 2%nat ltac:(lia)) Hr Hc).
  subst g2.
  rewrite (place_one_line d 1 (vals 1%nat) g1 r c B1
             (L 1%nat ltac:(lia)) Hr Hc).
  subst g1.
  rewrite (place_one_line d 0 (vals 0%nat) g0 r c B0
             (L 0%nat ltac:(lia)) Hr Hc).
  rewrite C0.
  unfold GRID_SIZE in Hline.
  destruct (lineIdx d r c) as [| [| [| [| n]]]]; try lia; cbn [Nat.eqb andb];
    match goal with
    | |- context [(?k <? ?n)%nat] => destruct (Nat.ltb_spec k n)
    end;
    try reflexivity; symmetry; now apply nth_overflow.
Qed.

(** ** Lines of a board, cell by cell *)

Ltac small_index r :=
  match goal with
  | H : (r < GRID_SIZE)%nat |- _ =>
      unfold GRID_SIZE in H;
      destruct r as [| [| [| [| r]]]]; [| | | | exfalso; lia]
  end.

Lemma unlines_cell (d : Direction) (ls : list (list Z)) (r c : nat) :
  is_board ls -> (r < GRID_SIZE)%nat -> (c < GRID_SIZE)%nat ->
  cell (unlines d ls) r c
  = nth (keyIdx d r c) (nth (lineIdx d r c) ls []) 0.
Proof.
  intros H Hr Hc. board_cases ls H.
  small_index r; small_index c; destruct d; reflexivity.
Qed.

Lemma lines_nth (d : Direction) (g : Grid) (i : nat) :
  is_board g -> (i < GRID_SIZE)%nat ->
  nth i (lines d g) []
  = map (fun k => cell g (fst (cellAt d i k)) (snd (cellAt d i k)))
        (seq 0 GRID_SIZE).
Proof.
  intros H Hi. board_cases g H.
  small_index i; destruct d; reflexivity.
Qed.

Lemma map_nth_in {A B : Type} (f : A -> B) (l : list A) (i : nat) (da : A)
      (db : B) :
  (i < length l)%nat -> nth i (map f l) db = f (nth i l da).
Proof.
  revert i. induction l as [| a l IH]; intros [| i] H; simpl in *;
    try lia; auto. apply IH. lia.
Qed.

(** ** The sort of a line *)

Lemma compareFn_keyZ (isH reverse : bool) (a b : TileApp.Tile) :
  TileApp.compareFn isH reverse a b = keyZ isH reverse a - keyZ isH reverse b.
Proof.
  unfold TileApp.compareFn, keyZ. destruct isH, reverse; lia.
Qed.

Lemma insertBy_In (cmp : TileApp.Tile -> TileApp.Tile -> Z)
      (x y : TileApp.Tile) (l : list TileApp.Tile) :
  In y (TileApp.insertBy cmp x l) <-> y = x \/ In y l.
Proof.
  induction l as [| z l IH]; cbn [TileApp.insertBy].
  - simpl. intuition.
  - destruct (cmp x z <=? 0); simpl in *; rewrite ?IH; intuition.
Qed.

Lemma sortBy_In (cmp : TileApp.Tile -> TileApp.Tile -> Z)
      (y : TileApp.Tile) (l : list TileApp.Tile) :
  In y (TileApp.sortBy cmp l) <-> In y l.
Proof.
  induction l as [| x l IH]; [reflexivity |].
  cbn [TileApp.sortBy fold_right].
  change (fold_right (TileApp.insertBy cmp) [] l) with (TileApp.sortBy cmp l).
  rewrite insertBy_In, IH. simpl. intuition.
Qed.

Lemma sortBy_length (cmp : TileApp.Tile -> TileApp.Tile -> Z)
      (l : list TileApp.Tile) :
  length (TileApp.sortBy cmp l) = length l.
Proof.
  assert (I : forall x l', length (TileApp.insertBy cmp x l') = S (length l')).
  { intros x l'. induction l' as [| z l' IH]; [reflexivity |].
    cbn [TileApp.insertBy]. destruct (cmp x z <=? 0); simpl; auto. }
  induction l as [| x l IH]; [reflexivity |].
  cbn [TileApp.sortBy fold_right].
  change (fold_right (TileApp.insertBy cmp) [] l) with (TileApp.sortBy cmp l).
  rewrite I, IH. reflexivity.
Qed.

Section SortedLine.

Variables isH reverse : bool.

Let ltk (a b : TileApp.Tile) : Prop :=
  keyZ isH reverse a < keyZ isH reverse b.

Lemma insertBy_sorted (x : TileApp.Tile) (l : list TileApp.Tile) :
  StronglySorted ltk l ->
  (forall y, In y l -> keyZ isH reverse y <> keyZ isH reverse x) ->
  StronglySorted ltk (TileApp.insertBy (TileApp.compareFn isH reverse) x l).
Proof.
  induction 1 as [| z l Hs IH Hz]; intros Hx; cbn [TileApp.insertBy].
  - repeat constructor.
  - rewrite compareFn_keyZ.
    assert (Hxz : keyZ isH reverse z <> keyZ isH reverse x)
      by (apply Hx; now left).
    destruct (Z.leb_spec (keyZ isH reverse x - keyZ isH reverse z) 0).
    + constructor; [now constructor |].
      constructor; [unfold ltk; lia |].
      rewrite Forall_forall in Hz |- *. intros y Hy.
      specialize (Hz y Hy). unfold ltk in *. lia.
    + constructor.
      * apply IH. intros y Hy. apply Hx. now right.
      * rewrite Forall_forall in Hz |- *. intros y Hy.
        apply insertBy_In in Hy. destruct Hy as [-> | Hy];
          [unfold ltk; lia | now apply Hz].
Qed.

Lemma sortBy_sorted (l : list TileApp.Tile) :
  NoDup (map (keyZ isH reverse) l) ->
  StronglySorted ltk (TileApp.sortBy (TileApp.compareFn isH reverse) l).
Proof.
  induction l as [| x l IH]; intros Hnd; [constructor |].
  cbn [map] in Hnd. apply NoDup_cons_iff in Hnd. destruct Hnd as [Hx Hnd].
  cbn [TileApp.sortBy fold_right].
  apply insertBy_sorted; [now apply IH |].
  intros y Hy E. apply Hx. rewrite <- E. apply in_map.
  now apply (sortBy_In (TileApp.compareFn isH reverse)).
Qed.

End SortedLine.

Lemma StronglySorted_weaken {A : Type} (R R' : A -> A -> Prop) (l : list A) :
  StronglySorted R l ->
  (forall a b, In a l -> In b l -> R a b -> R' a b) ->
  StronglySorted R' l.
Proof.
  induction 1 as [| a l Hs IH Ha]; intros Himp; constructor.
  - apply IH. intros; apply Himp; simpl; auto.
  - rewrite Forall_forall in Ha |- *. intros b Hb.
    apply Himp; simpl; auto.
Qed.

Lemma NoDup_map_coarser {A B C : Type} (f : A -> B) (g : A -> C)
      (l : list A) :
  NoDup (map f l) ->
  (forall a b, In a l -> In b l -> g a = g b -> f a = f b) ->
  NoDup (map g l).
Proof.
  induction l as [| x l IH]; intros Hnd Hfg; [constructor |].
  cbn [map] in *. apply NoDup_cons_iff in Hnd. destruct Hnd as [Hx Hnd].
  constructor.
  - intros Hin. apply in_map_iff in Hin. destruct Hin as (y & Ey & Hy).
    apply Hx. rewrite <- (Hfg y x); simpl; auto. now apply in_map.
  - apply IH; [assumption |]. intros; apply Hfg; simpl; auto.
Qed.

Lemma NoDup_map_filter {T K : Type} (proj : T -> K) (keep : T -> bool)
      (xs : list T) (Hnd : NoDup (map proj xs)) :
  NoDup (map proj (filter keep xs)).
Proof.
  induction xs as [| x xs IH]; [constructor |].
  cbn [map] in Hnd. apply NoDup_cons_iff in Hnd. destruct Hnd as [Hx Hnd].
  cbn [filter]. destruct (keep x); [| now apply IH].
  cbn [map]. constructor; [| now apply IH].
  intros Hin. apply Hx. apply in_map_iff in Hin.
  destruct Hin as (y & Ey & Hy). apply filter_In in Hy.
  rewrite <- Ey. apply in_map. tauto.
Qed.

(** ** A strictly sorted line against the cells it fills *)

Section LineCells.

Variable key : TileApp.Tile -> nat.
Variable f : nat -> Z.

Lemma sorted_line_compact (n : nat) :
  forall (lo : nat) (L : list TileApp.Tile),
    StronglySorted (fun a b => (key a < key b)%nat) L ->
    (forall t, In t L -> (lo <= key t < lo + n)%nat) ->
    (forall t, In t L -> TileApp.value t <> 0) ->
    (forall t, In t L -> f (key t) = TileApp.value t) ->
    (forall k, (lo <= k < lo + n)%nat ->
               (forall t, In t L -> key t <> k) -> f k = 0) ->
    compact (map f (seq lo n)) = map TileApp.value L.
Proof.
  induction n as [| n IH]; intros lo L Hs Hrange Hnz Hin Hout.
  - destruct L as [| t L]; [reflexivity |].
    specialize (Hrange t (or_introl eq_refl)). lia.
  - cbn [seq map]. unfold compact in *. cbn [filter].
    destruct L as [| t L].
    + rewrite (Hout lo) by (try lia; intros t []).
      cbn [nonzero Z.eqb negb].
      apply (IH (S lo) []).
      * constructor.
      * intros t [].
      * intros t [].
      * intros t [].
      * intros k Hk _. apply Hout; [lia | intros t []].
    + inversion Hs as [| ? ? Hs' Hlt]; subst.
      rewrite Forall_forall in Hlt.
      destruct (Nat.eq_dec (key t) lo) as [Ek | Nk].
      * replace (f lo) with (TileApp.value t)
          by (rewrite <- Ek; symmetry; apply Hin; now left).
        unfold nonzero at 1.
        pose proof (Hnz t (or_introl eq_refl)) as Hv.
        apply Z.eqb_neq in Hv. rewrite Hv. cbn [negb map]. f_equal.
        apply IH; try assumption.
        -- intros t' Ht'. specialize (Hlt t' Ht').
           specialize (Hrange t' (or_intror Ht')). lia.
        -- intros; apply Hnz; now right.
        -- intros; apply Hin; now right.
        -- intros k Hk Hno. apply Hout; [lia |].
           intros t' [<- | Ht']; [lia | now apply Hno].
      * assert (Hlo : (lo < key t)%nat)
          by (specialize (Hrange t (or_introl eq_refl)); lia).
        rewrite (Hout lo).
        -- cbn [nonzero Z.eqb negb].
           apply IH; try assumption.
           ++ intros t' [<- | Ht'].
              ** specialize (Hrange t (or_introl eq_refl)). lia.
              ** specialize (Hlt t' Ht').
                 specialize (Hrange t' (or_intror Ht')). lia.
           ++ intros k Hk Hno. apply Hout; [lia | assumption].
        -- lia.
        -- intros t' [<- | Ht']; [lia |]. specialize (Hlt t' Ht'). lia.
Qed.

End LineCells.

(** ** The cells of [tilesToGrid] for a valid tile list *)

Lemma gridOf_cell_in (tl : list TileApp.Tile) :
  forall (g0 : Grid) (t : TileApp.Tile),
    is_board g0 ->
    NoDup (map tilePos tl) ->
    In t tl ->
    TileApp.inGrid (TileApp.row t) (TileApp.col t) = true ->
    cell (gridOf (map vrc tl) g0)
         (Z.to_nat (TileApp.row t)) (Z.to_nat (TileApp.col t))
    = TileApp.value t.
Proof.
  induction tl as [| a tl IH]; intros g0 t Hb Hnd Hin Hgrid; [destruct Hin |].
  cbn [map] in Hnd. apply NoDup_cons_iff in Hnd. destruct Hnd as [Ha Hnd].
  cbn [map gridOf fold_left].
  change (fold_left placeV ?l ?g) with (gridOf l g).
  destruct Hin as [-> | Hin].
  - pose proof Hgrid as Hbounds. apply inGrid_bounds in Hbounds.
    rewrite gridOf_frame.
    + unfold vrc.
      rewrite <- (Z2Nat.id (TileApp.row t)) at 1 by lia.
      rewrite <- (Z2Nat.id (TileApp.col t)) at 1 by lia.
      apply placeV_same; [assumption | unfold GRID_SIZE; lia ..].
    + intros v p q Hv E. apply Ha.
      apply in_map_iff in Hv. destruct Hv as (t' & Ev & Ht').
      unfold vrc in Ev. injection Ev as _ Ep Eq.
      apply in_map_iff. exists t'. split; [| assumption].
      unfold tilePos. rewrite Ep, Eq, E. f_equal; lia.
  - apply IH; try assumption. now apply placeV_board.
Qed.

Lemma tilesToGrid_cell_in (tl : list TileApp.Tile) (t : TileApp.Tile) :
  validTiles tl -> In t tl ->
  cell (TileApp.tilesToGrid tl)
       (Z.to_nat (TileApp.row t)) (Z.to_nat (TileApp.col t))
  = TileApp.value t.
Proof.
  intros [Hnd Hall] Hin. rewrite tilesToGrid_gridOf.
  apply gridOf_cell_in; try assumption; [apply empty_board |].
  rewrite Forall_forall in Hall. now apply Hall.
Qed.

Lemma tilesToGrid_cell_out (tl : list TileApp.Tile) (r c : nat) :
  (r < GRID_SIZE)%nat -> (c < GRID_SIZE)%nat ->
  (forall t, In t tl -> tilePos t <> (Z.of_nat r, Z.of_nat c)) ->
  cell (TileApp.tilesToGrid tl) r c = 0.
Proof.
  intros Hr Hc H. rewrite tilesToGrid_gridOf, gridOf_frame.
  - small_index r; small_index c; reflexivity.
  - intros v p q Hv. apply in_map_iff in Hv.
    destruct Hv as (t & Ev & Ht). unfold vrc in Ev.
    injection Ev as _ Ep Eq. subst p q. now apply H.
Qed.

(** ** The scanned line of the tile version is the compacted line of the
       grid *)

Lemma sortedLine_In (isH reverse : bool) (tl : list TileApp.Tile) (i : nat)
      (t : TileApp.Tile) :
  In t (sortedLine isH reverse (map TileApp.clearFlags tl) i)
  <-> exists t0, In t0 tl /\ t = TileApp.clearFlags t0
                 /\ (if isH then TileApp.row t0 else TileApp.col t0)
                    = Z.of_nat i.
Proof.
  unfold sortedLine. rewrite sortBy_In, filter_In, in_map_iff. split.
  - intros [(t0 & <- & H0) Hline]. exists t0. repeat split; [assumption |].
    destruct isH; cbn in Hline; now apply Z.eqb_eq in Hline.
  - intros (t0 & H0 & -> & Hline). split; [now exists t0 |].
    destruct isH; cbn; now apply Z.eqb_eq.
Qed.

Lemma keyZ_tileKey (d : Direction) (a b : TileApp.Tile) :
  TileApp.inGrid (TileApp.row a) (TileApp.col a) = true ->
  TileApp.inGrid (TileApp.row b) (TileApp.col b) = true ->
  keyZ (isHorizontalOf d) (reverseOf d) a
  < keyZ (isHorizontalOf d) (reverseOf d) b ->
  (tileKey d a < tileKey d b)%nat.
Proof.
  intros Ha Hb. apply inGrid_bounds in Ha, Hb.
  unfold keyZ, tileKey, keyIdx, GRID_SIZE.
  destruct d; cbn [isHorizontalOf reverseOf]; lia.
Qed.

Lemma cellAt_tileKey (d : Direction) (i : nat) (t : TileApp.Tile) :
  TileApp.inGrid (TileApp.row t) (TileApp.col t) = true ->
  (if isHorizontalOf d then TileApp.row t else TileApp.col t) = Z.of_nat i ->
  cellAt d i (tileKey d t)
  = (Z.to_nat (TileApp.row t), Z.to_nat (TileApp.col t))
  /\ (tileKey d t < GRID_SIZE)%nat.
Proof.
  intros Hg Hl. apply inGrid_bounds in Hg.
  unfold cellAt, tileKey, keyIdx, GRID_SIZE.
  destruct d; cbn [isHorizontalOf reverseOf] in *; split; try lia;
    f_equal; lia.
Qed.

Lemma tilePos_cellAt (d : Direction) (i k : nat) (t : TileApp.Tile) :
  (i < GRID_SIZE)%nat -> (k < GRID_SIZE)%nat ->
  tilePos t = (Z.of_nat (fst (cellAt d i k)), Z.of_nat (snd (cellAt d i k))) ->
  (if isHorizontalOf d then TileApp.row t else TileApp.col t) = Z.of_nat i
  /\ tileKey d t = k.
Proof.
  unfold tilePos, cellAt, tileKey, keyIdx, GRID_SIZE. intros Hi Hk E.
  destruct d; cbn [isHorizontalOf reverseOf fst snd] in *;
    apply pair_equal_spec in E; destruct E as [E1 E2]; split; lia.
Qed.

Lemma cellAt_bounds (d : Direction) (i k : nat) :
  (i < GRID_SIZE)%nat -> (k < GRID_SIZE)%nat ->
  (fst (cellAt d i k) < GRID_SIZE)%nat /\ (snd (cellAt d i k) < GRID_SIZE)%nat.
Proof.
  unfold cellAt, GRID_SIZE. destruct d; cbn [fst snd]; lia.
Qed.

Lemma lineValues_cells (d : Direction) (tl : list TileApp.Tile) (i : nat) :
  validTiles tl -> (i < GRID_SIZE)%nat ->
  lineValues (isHorizontalOf d) (reverseOf d) (map TileApp.clearFlags tl) i
  = compact (nth i (lines d (TileApp.tilesToGrid tl)) []).
Proof.
  intros Hvalid Hi. pose proof Hvalid as [Hnd Hall].
  rewrite Forall_forall in Hall.
  rewrite lines_nth by (try apply tilesToGrid_board; assumption).
  unfold lineValues. symmetry.
  set (L := sortedLine _ _ _ i).
  assert (HL : forall t, In t L ->
             exists t0, In t0 tl /\ t = TileApp.clearFlags t0
               /\ (if isHorizontalOf d then TileApp.row t0 else TileApp.col t0)
                  = Z.of_nat i)
    by (intros t Ht; now apply sortedLine_In in Ht).
  apply (sorted_line_compact (tileKey d)).
  - apply StronglySorted_weaken
      with (R := fun a b => keyZ (isHorizontalOf d) (reverseOf d) a
                            < keyZ (isHorizontalOf d) (reverseOf d) b).
    + apply sortBy_sorted.
      apply NoDup_map_coarser with (f := tilePos).
      * apply NoDup_map_filter. rewrite map_map.
        erewrite map_ext; [exact Hnd | reflexivity].
      * intros a b Ha Hb E. apply filter_In in Ha, Hb.
        destruct Ha as [_ Ha], Hb as [_ Hb].
        unfold keyZ in E. unfold tilePos.
        destruct d; cbn [isHorizontalOf reverseOf] in *;
          apply Z.eqb_eq in Ha, Hb; f_equal; lia.
    + intros a b Ha Hb.
      destruct (HL a Ha) as (a0 & Ha0 & -> & _).
      destruct (HL b Hb) as (b0 & Hb0 & -> & _).
      apply keyZ_tileKey; cbn; now apply Hall.
  - intros t Ht. destruct (HL t Ht) as (t0 & Ht0 & -> & Hline).
    destruct (cellAt_tileKey d i (TileApp.clearFlags t0)) as [_ Hk];
      cbn; try assumption; [now apply Hall | lia].
  - intros t Ht. destruct (HL t Ht) as (t0 & Ht0 & -> & _).
    cbn. now apply Hall.
  - intros t Ht. destruct (HL t Ht) as (t0 & Ht0 & -> & Hline).
    destruct (cellAt_tileKey d i (TileApp.clearFlags t0)) as [E _];
      cbn; try assumption; [now apply Hall |].
    rewrite E. cbn [fst snd TileApp.clearFlags TileApp.row TileApp.col
                    TileApp.value].
    now apply tilesToGrid_cell_in.
  - intros k Hk Hno.
    destruct (cellAt_bounds d i k) as [Br Bc]; [assumption | lia |].
    apply tilesToGrid_cell_out; try assumption.
    intros t0 Ht0 E.
    destruct (tilePos_cellAt d i k t0) as [Hline Hkey];
      [assumption | lia | assumption |].
    apply (Hno (TileApp.clearFlags t0)).
    + apply sortedLine_In. now exists t0.
    + exact Hkey.
Qed.

(** ** The two slides agree on the board and on the points *)

Lemma nth_pad (k : nat) (l : list Z) : nth k (GridApp.pad l) 0 = nth k l 0.
Proof.
  unfold GridApp.pad. destruct (Nat.lt_ge_cases k (length l)) as [H | H].
  - now apply app_nth1.
  - rewrite app_nth2 by assumption. rewrite nth_repeat.
    symmetry. now apply nth_overflow.
Qed.

Lemma board_lines_seq (ls : list (list Z)) :
  is_board ls -> ls = map (fun i => nth i ls []) (seq 0 GRID_SIZE).
Proof. intros H. board_cases ls H. reflexivity. Qed.

Lemma tile_slide_unfold (tl : list TileApp.Tile) (d : Direction) (c0 : Z) :
  TileApp.slide tl d c0
  = fold_left (TileApp.stepLine (isHorizontalOf d) (reverseOf d)
                                (map TileApp.clearFlags tl))
              (seq 0 GRID_SIZE)
              (TileApp.mkLocals [] 0 false c0).
Proof. reflexivity. Qed.

Lemma lineValues_length (d : Direction) (tl : list TileApp.Tile) (i : nat) :
  validTiles tl -> (i < GRID_SIZE)%nat ->
  (length (mergeLine (lineValues (isHorizontalOf d) (reverseOf d)
                                 (map TileApp.clearFlags tl) i))
   <= GRID_SIZE)%nat.
Proof.
  intros Hv Hi. rewrite lineValues_cells by assumption.
  set (l := nth i _ []).
  assert (Hl : length l = GRID_SIZE).
  { apply board_row_length; [| assumption].
    apply lines_board, tilesToGrid_board. }
  pose proof (mergeLine_length (compact l)).
  pose proof (compact_length l). lia.
Qed.

(** On a valid tile list the slide of the tile version leaves the board
    that the slide of [src/App.tsx] computes from [tilesToGrid], and counts
    the same points. *)
Lemma tile_slide_grid (tl : list TileApp.Tile) (d : Direction) (c0 : Z) :
  validTiles tl ->
  TileApp.tilesToGrid (TileApp.newTiles (TileApp.slide tl d c0))
  = GridApp.newGrid (GridApp.slide (TileApp.tilesToGrid tl) d)
  /\ TileApp.totalPoints (TileApp.slide tl d c0)
     = GridApp.totalScore (GridApp.slide (TileApp.tilesToGrid tl) d).
Proof.
  intros Hv.
  pose proof (tilesToGrid_board tl) as Hb.
  rewrite slide_lines by assumption.
  cbn [GridApp.newGrid GridApp.totalScore].
  rewrite tile_slide_unfold.
  destruct (fold_stepLine_vrc (isHorizontalOf d) (reverseOf d)
              (map TileApp.clearFlags tl) (seq 0 GRID_SIZE)
              (TileApp.mkLocals [] 0 false c0)) as [E1 E2].
  cbn [TileApp.newTiles TileApp.totalPoints map app] in E1, E2.
  split.
  - apply board_ext.
    + apply tilesToGrid_board.
    + now apply unlines_board, slideRow_board, lines_board.
    + intros r c Hr Hc.
      rewrite tilesToGrid_gridOf, E1.
      rewrite placed_lines_cell; try assumption;
        [| intros i Hi; now apply lineValues_length].
      assert (Hline : (lineIdx d r c < GRID_SIZE)%nat)
        by (unfold lineIdx; destruct (isHorizontalOf d); assumption).
      rewrite unlines_cell;
        [| now apply slideRow_board, lines_board | assumption ..].
      rewrite (map_nth_in slideRow _ _ [] [])
        by (destruct (lines_board d _ Hb) as [-> _]; assumption).
      rewrite slideRow_eq, nth_pad.
      now rewrite lineValues_cells.
  - rewrite E2, Z.add_0_l.
    rewrite (board_lines_seq (lines d (TileApp.tilesToGrid tl))) at 1
      by now apply lines_board.
    rewrite map_map. f_equal. apply map_ext_in. intros i Hi.
    apply in_seq in Hi.
    rewrite slidePoints_eq. rewrite lineValues_cells; [reflexivity | |];
      [assumption | lia].
Qed.

(** ** The tile list stays valid *)

Lemma validTiles_validV (tl : list TileApp.Tile) :
  validTiles tl <-> validV (map vrc tl).
Proof.
  unfold validTiles, validV. rewrite map_map, Forall_map. reflexivity.
Qed.

Lemma NoDup_flat_map_lines {B : Type} (f : nat -> list B) (l : list nat) :
  (forall a, In a l -> NoDup (f a)) ->
  (forall a b x, In a l -> In b l -> In x (f a) -> In x (f b) -> a = b) ->
  NoDup l ->
  NoDup (flat_map f l).
Proof.
  induction l as [| a l IH]; intros Hf Hdis Hnd; [constructor |].
  apply NoDup_cons_iff in Hnd. destruct Hnd as [Ha Hnd].
  cbn [flat_map]. apply NoDup_app.
  - apply Hf. now left.
  - apply IH; [| | assumption].
    + intros; apply Hf; now right.
    + intros a' b x Ha' Hb; apply Hdis; now right.
  - intros x Hx Hin. apply in_flat_map in Hin.
    destruct Hin as (b & Hb & Hxb). apply Ha.
    rewrite (Hdis a b x); auto; [now left | now right].
Qed.

Lemma placed_positions (isH : bool) (i : nat) (step : Z) (vals : list Z) :
  step <> 0 ->
  forall pos, NoDup (map posV (placed isH i step pos vals)).
Proof.
  intros Hstep. induction vals as [| v vals IH]; intros pos; [constructor |].
  cbn [placed map]. constructor; [| apply IH].
  intros Hin. apply in_map_iff in Hin. destruct Hin as ([[v' p] q] & E & Hin).
  destruct (placed_In _ _ _ _ _ _ _ _ Hin) as (k & _ & Hs & _).
  unfold posV in E. cbn [fst snd] in E. rewrite Hs in E.
  assert (E' : slot isH i (pos + step + Z.of_nat k * step) = slot isH i pos)
    by (rewrite E; now destruct (slot isH i pos)).
  apply slot_inj in E'. nia.
Qed.

Lemma placed_line (isH : bool) (i : nat) (step : Z) (vals : list Z)
      (pos : Z) (x : Z * Z * Z) :
  In x (placed isH i step pos vals) ->
  (if isH then fst (posV x) else snd (posV x)) = Z.of_nat i.
Proof.
  destruct x as [[v p] q]. intros Hin.
  destruct (placed_In _ _ _ _ _ _ _ _ Hin) as (k & _ & Hs & _).
  unfold posV, slot in *. cbn [fst snd]. destruct isH; now injection Hs.
Qed.

Lemma slide_valid (tl : list TileApp.Tile) (d : Direction) (c0 : Z) :
  validTiles tl -> validTiles (TileApp.newTiles (TileApp.slide tl d c0)).
Proof.
  intros Hv. apply validTiles_validV.
  rewrite tile_slide_unfold.
  destruct (fold_stepLine_vrc (isHorizontalOf d) (reverseOf d)
              (map TileApp.clearFlags tl) (seq 0 GRID_SIZE)
              (TileApp.mkLocals [] 0 false c0)) as [E _].
  cbn [TileApp.newTiles map app] in E. rewrite E. clear E.
  assert (Hstep : stepOf (reverseOf d) <> 0)
    by (unfold stepOf; destruct (reverseOf d); lia).
  split.
  - rewrite flat_map_concat_map, concat_map, map_map,
      <- flat_map_concat_map.
    apply NoDup_flat_map_lines.
    + intros i _. now apply placed_positions.
    + intros a b p _ _ Ha Hb.
      apply in_map_iff in Ha, Hb.
      destruct Ha as (xa & <- & Ha), Hb as (xb & Eb & Hb).
      apply placed_line in Ha, Hb. rewrite Eb in Hb.
      rewrite Ha in Hb. lia.
    + apply seq_NoDup.
  - apply Forall_forall. intros [[v p] q] Hin. apply in_flat_map in Hin.
    destruct Hin as (i & Hi & Hin). apply in_seq in Hi.
    destruct (placed_In _ _ _ _ _ _ _ _ Hin) as (k & Hk & Hs & Hval).
    pose proof (lineValues_length d tl i Hv ltac:(lia)) as Hlen.
    unfold posV. cbn [fst snd]. split.
    + apply inGrid_bounds.
      unfold slot, startPos, stepOf, GRID_SIZE in *.
      destruct d; cbn [isHorizontalOf reverseOf] in *;
        apply pair_equal_spec in Hs; lia.
    + rewrite Hval.
      assert (Hnz : Forall (fun v => v <> 0)
                (mergeLine (lineValues (isHorizontalOf d) (reverseOf d)
                                       (map TileApp.clearFlags tl) i))).
      { apply mergeLine_nonzero.
        rewrite lineValues_cells by (try assumption; lia).
        apply compact_nonzero. }
      rewrite Forall_forall in Hnz. apply Hnz, nth_In. exact Hk.
Qed.

(** ** When the tile version reports a move *)

Lemma mergeCount_zero_tail (v : Z) (vs : list Z) :
  mergeCount (v :: vs) = O ->
  mergeCount vs = O /\ match vs with [] => True | w :: _ => v <> w end.
Proof.
  destruct vs as [| w vs]; [now split |].
  destruct (Z.eq_dec v w) as [-> | Hne].
  - rewrite mergeCount_same. discriminate.
  - rewrite mergeCount_diff by assumption. now split.
Qed.

(** A line without two equal neighbours whose tiles are in place leaves
    [moved] as it was. *)
Lemma lineLoop_still (isH : bool) (i : nat) (step : Z)
      (line : list TileApp.Tile) :
  forall (pos : Z) (s : TileApp.LineState),
    mergeCount (map TileApp.value line) = O ->
    inPlace isH i step pos line ->
    TileApp.lineMoved (TileApp.lineLoop isH i step line pos s)
    = TileApp.lineMoved s.
Proof.
  induction line as [| t rest IH]; intros pos s Hno Hin; [reflexivity |].
  cbn [map] in Hno. apply mergeCount_zero_tail in Hno.
  destruct Hno as [Hno Hhead]. destruct Hin as [Hpos Hin].
  assert (Hpush : TileApp.lineMoved (TileApp.pushMoved isH i pos t s)
                  = TileApp.lineMoved s).
  { unfold TileApp.pushMoved. cbn.
    unfold tilePos, slot in Hpos. injection Hpos as E1 E2.
    rewrite <- E1, <- E2, !Z.eqb_refl. reflexivity. }
  destruct rest as [| t' rest'].
  - rewrite lineLoop_one. exact Hpush.
  - cbn [map] in Hhead. rewrite lineLoop_move by assumption.
    rewrite IH by assumption. exact Hpush.
Qed.

Lemma inPlace_nth (isH : bool) (i : nat) (step : Z) (dflt : TileApp.Tile)
      (line : list TileApp.Tile) :
  forall pos,
    (forall m, (m < length line)%nat ->
               tilePos (nth m line dflt)
               = slot isH i (pos + Z.of_nat m * step)) ->
    inPlace isH i step pos line.
Proof.
  induction line as [| t rest IH]; intros pos H; [exact I |].
  split.
  - specialize (H O ltac:(simpl; lia)). cbn [nth Z.of_nat] in H.
    now rewrite Z.mul_0_l, Z.add_0_r in H.
  - apply IH. intros m Hm. specialize (H (S m) ltac:(simpl; lia)).
    cbn [nth] in H. rewrite H. f_equal. lia.
Qed.

(** Strictly increasing keys that fit below the length of the list are
    0, 1, 2, ... *)
Lemma dense_keys (key : TileApp.Tile -> nat) (L : list TileApp.Tile) :
  forall lo,
    StronglySorted (fun a b => (key a < key b)%nat) L ->
    (forall t, In t L -> (lo <= key t < lo + length L)%nat) ->
    map key L = seq lo (length L).
Proof.
  induction L as [| t L IH]; intros lo Hs Hr; [reflexivity |].
  inversion Hs as [| ? ? Hs' Hlt]; subst. rewrite Forall_forall in Hlt.
  assert (Hrest : map key L = seq (S (key t)) (length L)).
  { apply IH; [assumption |]. intros t' Ht'.
    specialize (Hlt t' Ht').
    pose proof (Hr t' (or_intror Ht')) as Hr'.
    pose proof (Hr t (or_introl eq_refl)) as Ht. simpl in *. lia. }
  assert (Ekey : key t = lo).
  { pose proof (Hr t (or_introl eq_refl)) as Ht. simpl in Ht.
    destruct (length L) as [| n] eqn:En; [lia |].
    assert (Hin : In (key t + S n)%nat (map key L)).
    { rewrite Hrest. apply in_seq. lia. }
    apply in_map_iff in Hin. destruct Hin as (t' & E' & Ht').
    specialize (Hr t' (or_intror Ht')). simpl in Hr. lia. }
  cbn [map length seq]. rewrite Hrest, Ekey. reflexivity.
Qed.

(** The scanned line of a grid line that [slideLeft] returns unchanged:
    nothing to merge, every tile in place. *)
Lemma fixed_line_still (d : Direction) (tl : list TileApp.Tile) (i : nat) :
  validTiles tl -> (i < GRID_SIZE)%nat ->
  slideRow (nth i (lines d (TileApp.tilesToGrid tl)) [])
  = nth i (lines d (TileApp.tilesToGrid tl)) [] ->
  let L := sortedLine (isHorizontalOf d) (reverseOf d)
                      (map TileApp.clearFlags tl) i in
  mergeCount (map TileApp.value L) = O
  /\ inPlace (isHorizontalOf d) i (stepOf (reverseOf d))
             (startPos (reverseOf d)) L.
Proof.
  intros Hv Hi Hfix L.
  pose proof (lineValues_cells d tl i Hv Hi) as Hvals.
  unfold lineValues in Hvals. fold L in Hvals.
  set (l := nth i (lines d (TileApp.tilesToGrid tl)) []) in *.
  pose proof Hv as [Hnd Hall]. rewrite Forall_forall in Hall.
  assert (Hl : length l = GRID_SIZE).
  { apply board_row_length; [| assumption].
    apply lines_board, tilesToGrid_board. }
  (* no merge *)
  assert (Hno : mergeCount (compact l) = O).
  { rewrite slideRow_eq in Hfix.
    assert (E : compact (GridApp.pad (mergeLine (compact l))) = compact l)
      by now rewrite Hfix.
    rewrite compact_pad in E by (apply mergeLine_nonzero, compact_nonzero).
    pose proof (mergeLine_length (compact l)) as Hlen.
    rewrite E in Hlen. lia. }
  split; [now rewrite Hvals |].
  (* the line is its tiles followed by empty cells *)
  assert (Epad : l = GridApp.pad (compact l)).
  { rewrite slideRow_eq in Hfix.
    destruct (mergeCount_zero _ Hno) as [E _]. now rewrite E in Hfix. }
  assert (HL : forall t, In t L ->
             exists t0, In t0 tl /\ t = TileApp.clearFlags t0
               /\ (if isHorizontalOf d then TileApp.row t0 else TileApp.col t0)
                  = Z.of_nat i)
    by (intros t Ht; now apply sortedLine_In in Ht).
  assert (Hlen : length L = length (compact l))
    by (rewrite <- Hvals; now rewrite length_map).
  (* every key is below the number of tiles *)
  assert (Hkeys : forall t, In t L -> (0 <= tileKey d t < 0 + length L)%nat).
  { intros t Ht. destruct (HL t Ht) as (t0 & Ht0 & -> & Hline).
    destruct (Hall t0 Ht0) as [Hg Hnz].
    destruct (cellAt_tileKey d i (TileApp.clearFlags t0)) as [Ecell Hk];
      cbn; try assumption.
    split; [lia |]. rewrite Hlen. cbn [Nat.add].
    destruct (Nat.lt_ge_cases (tileKey d (TileApp.clearFlags t0))
                              (length (compact l))) as [Hlt | Hge];
      [assumption | exfalso].
    apply Hnz. rewrite <- (tilesToGrid_cell_in tl t0 Hv Ht0).
    cbn [TileApp.clearFlags TileApp.row TileApp.col] in Ecell.
    assert (En : nth (tileKey d (TileApp.clearFlags t0)) l 0 = 0).
    { rewrite Epad, nth_pad. now apply nth_overflow. }
    unfold l in En at 1.
    rewrite lines_nth in En by (try apply tilesToGrid_board; assumption).
    rewrite (map_nth_in _ _ _ O 0) in En by (rewrite length_seq; exact Hk).
    rewrite seq_nth in En by exact Hk. cbn [Nat.add] in En.
    rewrite Ecell in En. exact En. }
  assert (Hsorted : StronglySorted
            (fun a b => (tileKey d a < tileKey d b)%nat) L).
  { apply StronglySorted_weaken
      with (R := fun a b => keyZ (isHorizontalOf d) (reverseOf d) a
                            < keyZ (isHorizontalOf d) (reverseOf d) b).
    - apply sortBy_sorted.
      apply NoDup_map_coarser with (f := tilePos).
      + apply NoDup_map_filter. rewrite map_map.
        erewrite map_ext; [exact Hnd | reflexivity].
      + intros a b Ha Hb E. apply filter_In in Ha, Hb.
        destruct Ha as [_ Ha], Hb as [_ Hb].
        unfold keyZ in E. unfold tilePos.
        destruct d; cbn [isHorizontalOf reverseOf] in *;
          apply Z.eqb_eq in Ha, Hb; f_equal; lia.
    - intros a b Ha Hb.
      destruct (HL a Ha) as (a0 & Ha0 & -> & _).
      destruct (HL b Hb) as (b0 & Hb0 & -> & _).
      apply keyZ_tileKey; cbn; now apply Hall. }
  pose proof (dense_keys (tileKey d) L O Hsorted Hkeys) as Hdense.
  apply inPlace_nth with (dflt := TileApp.mkTile "" 0 0 0 None None).
  intros m Hm.
  set (t := nth m L _).
  assert (Ht : In t L) by (apply nth_In; exact Hm).
  assert (Ekey : tileKey d t = m).
  { pose proof (f_equal (fun ks => nth m ks O) Hdense) as E.
    cbv beta in E. rewrite seq_nth in E by exact Hm.
    rewrite (map_nth_in (tileKey d) L m
                        (TileApp.mkTile "" 0 0 0 None None) O) in E
      by exact Hm.
    exact E. }
  destruct (HL t Ht) as (t0 & Ht0 & Et & Hline).
  destruct (Hall t0 Ht0) as [Hg _]. pose proof Hg as Hb.
  apply inGrid_bounds in Hb.
  assert (Hm4 : (m < GRID_SIZE)%nat).
  { pose proof (compact_length l). lia. }
  assert (Epos : tilePos t = tilePos t0) by (rewrite Et; reflexivity).
  assert (Ek0 : tileKey d t0 = m) by (rewrite <- Ekey, Et; reflexivity).
  rewrite Epos. unfold tilePos. symmetry.
  rewrite <- (Z2Nat.id (TileApp.row t0)), <- (Z2Nat.id (TileApp.col t0))
    by lia.
  apply slot_cell; try assumption; try (unfold GRID_SIZE; lia).
  split; [| exact Ek0].
  unfold lineIdx. destruct (isHorizontalOf d); lia.
Qed.

(** ** What [moved] says in [src/App.tsx] *)

(** In the grid version [moved] is [false] exactly when the slide returned
    the board cell for cell. *)
Lemma grid_moved_false_iff (g : Grid) (d : Direction) :
  is_board g ->
  GridApp.moved (GridApp.slide g d) = false
  <-> GridApp.newGrid (GridApp.slide g d) = g.
Proof.
  intros H. rewrite slide_not_moved by assumption.
  now apply slide_fixed_iff.
Qed.

(** In the grid version a move that reports [moved = false] has changed no
    cell and counted no point, and [move] leaves the whole state as it was,
    without a call of [addRandomTile]. *)
Lemma grid_no_move_noop (st : GridApp.State) (d : Direction) (r1 r2 : Q) :
  is_board (GridApp.grid st) ->
  GridApp.moved (GridApp.slide (GridApp.grid st) d) = false ->
  GridApp.newGrid (GridApp.slide (GridApp.grid st) d) = GridApp.grid st
  /\ GridApp.totalScore (GridApp.slide (GridApp.grid st) d) = 0
  /\ GridApp.move st d r1 r2 = (st, false).
Proof.
  intros Hb Hm. split; [| split].
  - now apply grid_moved_false_iff.
  - apply slide_not_moved in Hm; [| assumption].
    rewrite slide_lines by assumption. cbn [GridApp.totalScore].
    now apply fixed_lines_no_points.
  - unfold GridApp.move. rewrite Hm. now destruct (GridApp.gameOver st).
Qed.

(** In the tile version a move that reports [moved = false] leaves tiles,
    scores and flags as they were and schedules no spawn; only the id counter
    may have advanced. *)
Lemma tile_no_move_state (st : TileApp.State) (d : Direction) :
  TileApp.moved (TileApp.slide (TileApp.tiles st) d (TileApp.tileIdCounter st))
  = false ->
  let st' := fst (TileApp.move st d) in
  TileApp.tiles st' = TileApp.tiles st
  /\ TileApp.score st' = TileApp.score st
  /\ TileApp.bestScore st' = TileApp.bestScore st
  /\ TileApp.gameOver st' = TileApp.gameOver st
  /\ TileApp.won st' = TileApp.won st
  /\ TileApp.isAnimating st' = TileApp.isAnimating st
  /\ TileApp.stored st' = TileApp.stored st
  /\ snd (TileApp.move st d) = None.
Proof.
  intros Hm. unfold TileApp.move.
  destruct (TileApp.gameOver st || TileApp.isAnimating st);
    [cbn; repeat split |].
  rewrite Hm. cbn. repeat split.
Qed.

Lemma stepLine_still (isH reverse : bool) (cur : list TileApp.Tile)
      (s : TileApp.Locals) (i : nat) :
  mergeCount (map TileApp.value (sortedLine isH reverse cur i)) = O ->
  inPlace isH i (stepOf reverse) (startPos reverse)
          (sortedLine isH reverse cur i) ->
  TileApp.moved (TileApp.stepLine isH reverse cur s i) = TileApp.moved s.
Proof.
  intros Hno Hin. unfold TileApp.stepLine.
  destruct (length _ =? 0)%nat; [reflexivity |].
  cbn [TileApp.moved].
  unfold sortedLine, stepOf, startPos in *.
  now rewrite lineLoop_still.
Qed.

Lemma fold_stepLine_still (isH reverse : bool) (cur : list TileApp.Tile)
      (idx : list nat) :
  (forall i, In i idx ->
     mergeCount (map TileApp.value (sortedLine isH reverse cur i)) = O
     /\ inPlace isH i (stepOf reverse) (startPos reverse)
                (sortedLine isH reverse cur i)) ->
  forall s,
    TileApp.moved (fold_left (TileApp.stepLine isH reverse cur) idx s)
    = TileApp.moved s.
Proof.
  induction idx as [| i idx IH]; intros H s; [reflexivity |].
  cbn [fold_left]. rewrite IH by (intros; apply H; now right).
  destruct (H i (or_introl eq_refl)) as [Hno Hin].
  now apply stepLine_still.
Qed.

(** In the tile version a move that leaves the board as it was reports
    [moved = false]: whenever [moved] is [true] the board has changed.  (The
    converse is what fails, see C1.) *)
Lemma tile_unchanged_not_moved (tl : list TileApp.Tile) (d : Direction)
      (c0 : Z) :
  validTiles tl ->
  TileApp.tilesToGrid (TileApp.newTiles (TileApp.slide tl d c0))
  = TileApp.tilesToGrid tl ->
  TileApp.moved (TileApp.slide tl d c0) = false.
Proof.
  intros Hv Hsame.
  pose proof (tilesToGrid_board tl) as Hb.
  destruct (tile_slide_grid tl d c0 Hv) as [Eg _].
  rewrite Hsame in Eg. symmetry in Eg.
  apply slide_fixed_iff in Eg; [| assumption].
  rewrite tile_slide_unfold.
  rewrite fold_stepLine_still; [reflexivity |].
  intros i Hi. apply in_seq in Hi.
  assert (Hi4 : (i < GRID_SIZE)%nat) by lia.
  apply (fixed_line_still d tl i Hv Hi4).
  pose proof (f_equal (fun ls => nth i ls []) Eg) as E. cbv beta in E.
  rewrite (map_nth_in slideRow _ _ [] []) in E
    by (destruct (lines_board d _ Hb) as [-> _]; exact Hi4).
  exact E.
Qed.

(** The two [moved] flags: the tile version reports a move only when the
    grid version does. *)
Lemma tile_moved_grid_moved (tl : list TileApp.Tile) (d : Direction)
      (c0 : Z) :
  validTiles tl ->
  TileApp.moved (TileApp.slide tl d c0) = true ->
  GridApp.moved (GridApp.slide (TileApp.tilesToGrid tl) d) = true.
Proof.
  intros Hv Hm.
  destruct (GridApp.moved _) eqn:Hg; [reflexivity | exfalso].
  apply grid_moved_false_iff in Hg; [| apply tilesToGrid_board].
  destruct (tile_slide_grid tl d c0 Hv) as [Eg _].
  rewrite Hg in Eg.
  rewrite (tile_unchanged_not_moved tl d c0 Hv Eg) in Hm. discriminate.
Qed.

(** ** Concrete boards *)

Ltac concrete_board := apply is_board_intro; reflexivity.

Ltac concrete_valid :=
  vm_compute; split;
  [ repeat (apply NoDup_cons; [cbn; intuition congruence |]);
    apply NoDup_nil
  | repeat (apply Forall_cons; [split; [reflexivity | discriminate] |]);
    apply Forall_nil ].

Lemma exampleBoard_board : is_board exampleBoard.
Proof. concrete_board. Defined.

Lemma exampleTiles_valid : validTiles exampleTiles.
Proof. concrete_valid. Defined.

Lemma twoTwos_tiles :
  map vrc (TileApp.tiles twoTwosState) = [(2, 0, 0); (2, 0, 1)]
  /\ TileApp.tilesToGrid (TileApp.tiles twoTwosState)
     = [[2; 2; 0; 0]; emptyRow; emptyRow; emptyRow]
  /\ TileApp.gameOver twoTwosState = false
  /\ TileApp.isAnimating twoTwosState = false.
Proof. vm_compute. repeat split. Qed.

Lemma twoTwos_valid : validTiles (TileApp.tiles twoTwosState).
Proof. concrete_valid. Qed.

(** * The claims, each after the lemmas it rests on *)

(** C1 (the tile version breaks it).  The claim: [moved = false] exactly
    when the board after the slide is the board before it; a merge always
    changes the board, also when the surviving tile keeps its cell.  In the
    tile version the merge branch compares the cell of the merged tile with
    the old cell of the first tile of the pair only.  On the new game
    [twoTwosState], whose top row is [2, 2, 0, 0], a move to the left merges
    the two tiles into a 4 on the first cell: the board changes, [moved]
    stays [false].  The grid version reports [moved = true] on that board
    (and satisfies the claim on every board, [grid_moved_false_iff]). *)
Theorem C1_tile_merge_in_place_not_reported :
  let tl := TileApp.tiles twoTwosState in
  let s := TileApp.slide tl Left (TileApp.tileIdCounter twoTwosState) in
  TileApp.tilesToGrid tl = [[2; 2; 0; 0]; emptyRow; emptyRow; emptyRow]
  /\ TileApp.tilesToGrid (TileApp.newTiles s)
     = [[4; 0; 0; 0]; emptyRow; emptyRow; emptyRow]
  /\ TileApp.tilesToGrid (TileApp.newTiles s) <> TileApp.tilesToGrid tl
  /\ TileApp.moved s = false
  /\ GridApp.moved (GridApp.slide (TileApp.tilesToGrid tl) Left) = true.
Proof.
  vm_compute. repeat split. discriminate.
Qed.

(** C7 (the tile version breaks it, by the defect of C1).  The claim: when
    the slide reports [moved = false], the board it computed is the input
    board and the points it counted are 0.  On [twoTwosState] moved to the
    left the tile version reports [moved = false] with 4 points counted and
    with a computed board that differs from the input.  The guard
    [if (!moved) return] then drops both: no spawn is scheduled and the state
    keeps its tiles and score ([tile_no_move_state]), so the key press is
    lost.  The grid version satisfies the claim ([grid_no_move_noop]). *)
Theorem C7_tile_unreported_move_has_points :
  let tl := TileApp.tiles twoTwosState in
  let s := TileApp.slide tl Left (TileApp.tileIdCounter twoTwosState) in
  TileApp.moved s = false
  /\ TileApp.totalPoints s = 4
  /\ TileApp.tilesToGrid (TileApp.newTiles s) <> TileApp.tilesToGrid tl
  /\ TileApp.tiles (fst (TileApp.move twoTwosState Left)) = tl
  /\ TileApp.score (fst (TileApp.move twoTwosState Left))
     = TileApp.score twoTwosState
  /\ snd (TileApp.move twoTwosState Left) = None.
Proof.
  vm_compute. repeat split. discriminate.
Qed.

(** C10 (the two versions differ, by the defect of C1).  The claim: on
    every board and direction the grid version and the tile version compute
    the same board, the same points and the same [moved].  On the board
    [2, 2, 0, 0] of [twoTwosState] moved to the left, board and points agree
    (they do on every valid tile list, [tile_slide_grid]) but the grid version
    reports [moved = true] and the tile version [moved = false]. *)
Theorem C10_moved_flags_differ :
  let tl := TileApp.tiles twoTwosState in
  let s := TileApp.slide tl Left (TileApp.tileIdCounter twoTwosState) in
  let s' := GridApp.slide (TileApp.tilesToGrid tl) Left in
  TileApp.tilesToGrid (TileApp.newTiles s) = GridApp.newGrid s'
  /\ TileApp.totalPoints s = GridApp.totalScore s'
  /\ GridApp.moved s' = true
  /\ TileApp.moved s = false.
Proof.
  vm_compute. repeat split.
Qed.

(** C2.  The board that the slide leaves sums to what the input board sums
    to, in either version and in every direction. *)
Theorem C2_slide_preserves_sum (g : Grid) (tl : list TileApp.Tile)
        (d : Direction) (c0 : Z) :
  is_board g ->
  validTiles tl ->
  gridSum (GridApp.newGrid (GridApp.slide g d)) = gridSum g
  /\ gridSum (TileApp.tilesToGrid (TileApp.newTiles (TileApp.slide tl d c0)))
     = gridSum (TileApp.tilesToGrid tl).
Proof.
  intros Hb Hv.
  assert (G : forall g', is_board g' ->
                gridSum (GridApp.newGrid (GridApp.slide g' d)) = gridSum g').
  { intros g' Hb'. rewrite slide_lines by assumption.
    cbn [GridApp.newGrid].
    rewrite gridSum_unlines by now apply slideRow_board, lines_board.
    rewrite slideRow_gridSum. now apply gridSum_lines. }
  split; [now apply G |].
  destruct (tile_slide_grid tl d c0 Hv) as [-> _].
  apply G, tilesToGrid_board.
Qed.

Lemma C2_witness :
  is_board exampleBoard /\ validTiles exampleTiles
  /\ gridSum (GridApp.newGrid (GridApp.slide exampleBoard Down))
     = gridSum exampleBoard
  /\ gridSum (TileApp.tilesToGrid
                (TileApp.newTiles (TileApp.slide exampleTiles Down 7)))
     = gridSum (TileApp.tilesToGrid exampleTiles).
Proof.
  split; [exact exampleBoard_board |].
  split; [exact exampleTiles_valid |].
  exact (C2_slide_preserves_sum exampleBoard exampleTiles Down 7
           exampleBoard_board exampleTiles_valid).
Defined.

(** ** Moves towards the far edge *)

Lemma rev_rows_board (g : Grid) : is_board g -> is_board (map (@rev Z) g).
Proof. intros H. board_cases g H. concrete_board. Qed.

Lemma rev_board (g : Grid) : is_board g -> is_board (rev g).
Proof. intros H. board_cases g H. concrete_board. Qed.

Lemma transpose_rev (g : Grid) :
  is_board g -> transpose (rev g) = map (@rev Z) (transpose g).
Proof. intros H. board_cases g H. reflexivity. Qed.

Lemma transpose_rev_rows (ls : list (list Z)) :
  is_board ls -> transpose (map (@rev Z) ls) = rev (transpose ls).
Proof. intros H. board_cases ls H. reflexivity. Qed.

Lemma transpose_board (g : Grid) : is_board g -> is_board (transpose g).
Proof. intros H. board_cases g H. concrete_board. Qed.

Lemma readColumn_transpose (g : Grid) (c : nat) :
  is_board g -> (c < GRID_SIZE)%nat ->
  GridApp.readColumn (transpose g) c = nth c g [].
Proof. intros H Hc. board_cases g H. small_index c; reflexivity. Qed.

Lemma nth_transpose (g : Grid) (c : nat) :
  (c < GRID_SIZE)%nat -> nth c (transpose g) [] = GridApp.readColumn g c.
Proof. intros Hc. small_index c; reflexivity. Qed.

(** A move to the right is the move to the left of the board with every
    row reversed, reversed back; a move downwards is the move upwards of the
    board with every column reversed, reversed back; points and [moved] are
    those of the reversed board.  Row by row (column by column) the result
    is [slideLeft] of the reversed line, reversed.  The tile version leaves
    the same boards and counts the same points. *)
Lemma far_edge_is_reversed_slideLeft
        (g : Grid) (tl : list TileApp.Tile) (c0 : Z) :
  is_board g ->
  validTiles tl ->
  (let R := GridApp.slide g Right in
   let L := GridApp.slide (map (@rev Z) g) Left in
   GridApp.newGrid R = map (@rev Z) (GridApp.newGrid L)
   /\ GridApp.totalScore R = GridApp.totalScore L
   /\ GridApp.moved R = GridApp.moved L)
  /\ (let D := GridApp.slide g Down in
      let U := GridApp.slide (rev g) Up in
      GridApp.newGrid D = rev (GridApp.newGrid U)
      /\ GridApp.totalScore D = GridApp.totalScore U
      /\ GridApp.moved D = GridApp.moved U)
  /\ (forall i, (i < GRID_SIZE)%nat ->
        nth i (GridApp.newGrid (GridApp.slide g Right)) []
        = rev (fst (GridApp.slideLeft (rev (nth i g [])))))
  /\ (forall c, (c < GRID_SIZE)%nat ->
        GridApp.readColumn (GridApp.newGrid (GridApp.slide g Down)) c
        = rev (fst (GridApp.slideLeft (rev (GridApp.readColumn g c)))))
  /\ GridApp.totalScore (GridApp.slide g Right)
     = sumZ (map (fun line => snd (GridApp.slideLeft (rev line))) g)
  /\ GridApp.totalScore (GridApp.slide g Down)
     = sumZ (map (fun c => snd (GridApp.slideLeft
                                  (rev (GridApp.readColumn g c))))
                 (seq 0 GRID_SIZE))
  /\ (let T := TileApp.slide tl Right c0 in
      let L := GridApp.slide (map (@rev Z) (TileApp.tilesToGrid tl)) Left in
      TileApp.tilesToGrid (TileApp.newTiles T)
      = map (@rev Z) (GridApp.newGrid L)
      /\ TileApp.totalPoints T = GridApp.totalScore L)
  /\ (let T := TileApp.slide tl Down c0 in
      let U := GridApp.slide (rev (TileApp.tilesToGrid tl)) Up in
      TileApp.tilesToGrid (TileApp.newTiles T) = rev (GridApp.newGrid U)
      /\ TileApp.totalPoints T = GridApp.totalScore U).
Proof.
  intros Hb Hv.
  assert (HR : forall g', is_board g' ->
    let R := GridApp.slide g' Right in
    let L := GridApp.slide (map (@rev Z) g') Left in
    GridApp.newGrid R = map (@rev Z) (GridApp.newGrid L)
    /\ GridApp.totalScore R = GridApp.totalScore L
    /\ GridApp.moved R = GridApp.moved L).
  { intros g' Hb'. cbv zeta.
    rewrite (slide_lines g' Right Hb').
    rewrite (slide_lines _ Left (rev_rows_board g' Hb')).
    repeat split. }
  assert (HD : forall g', is_board g' ->
    let D := GridApp.slide g' Down in
    let U := GridApp.slide (rev g') Up in
    GridApp.newGrid D = rev (GridApp.newGrid U)
    /\ GridApp.totalScore D = GridApp.totalScore U
    /\ GridApp.moved D = GridApp.moved U).
  { intros g' Hb'. cbv zeta.
    rewrite (slide_lines g' Down Hb').
    rewrite (slide_lines _ Up (rev_board g' Hb')).
    cbn [GridApp.newGrid GridApp.totalScore GridApp.moved lines unlines].
    rewrite (transpose_rev g' Hb').
    rewrite transpose_rev_rows
      by now apply slideRow_board, rev_rows_board, transpose_board.
    repeat split. }
  pose proof (tilesToGrid_board tl) as Hbt.
  split; [now apply HR |].
  split; [now apply HD |].
  split; [| split; [| split; [| split; [| split]]]].
  - intros i Hi. rewrite (slide_lines g Right Hb).
    cbn [GridApp.newGrid lines unlines]. rewrite !map_map.
    rewrite (map_nth_in _ g i [] []) by (destruct Hb as [-> _]; exact Hi).
    reflexivity.
  - intros c Hc. rewrite (slide_lines g Down Hb).
    cbn [GridApp.newGrid lines unlines].
    rewrite readColumn_transpose;
      [| now apply rev_rows_board, slideRow_board, rev_rows_board,
           transpose_board | assumption].
    rewrite !map_map.
    rewrite (map_nth_in _ (transpose g) c [] [])
      by (destruct (transpose_board g Hb) as [-> _]; exact Hc).
    now rewrite nth_transpose.
  - rewrite (slide_lines g Right Hb).
    cbn [GridApp.totalScore lines]. now rewrite map_map.
  - rewrite (slide_lines g Down Hb).
    cbn [GridApp.totalScore lines]. unfold transpose. now rewrite !map_map.
  - cbv zeta. destruct (tile_slide_grid tl Right c0 Hv) as [-> ->].
    destruct (HR _ Hbt) as (E1 & E2 & _). now split.
  - cbv zeta. destruct (tile_slide_grid tl Down c0 Hv) as [-> ->].
    destruct (HD _ Hbt) as (E1 & E2 & _). now split.
Qed.


(** C9 (the tile version breaks its example, by the defect of C1).  The
    claim: a move to the right or downwards is [slideLeft] on the reversed
    line, reversed back, with the same points, and the row [2, 0, 0, 2] moved
    to the right becomes [0, 0, 0, 4] with 4 points and [moved = true].  Board
    and points are as claimed in both versions
    ([far_edge_is_reversed_slideLeft]).  On the new game [farTwosState], whose
    top row is [2, 0, 0, 2], the grid version reports [moved = true]; the tile
    version merges the two tiles on the cell of the first one scanned and
    reports [moved = false]. *)
Theorem C9_tile_far_edge_merge_not_reported :
  let tl := TileApp.tiles farTwosState in
  let s := TileApp.slide tl Right (TileApp.tileIdCounter farTwosState) in
  let s' := GridApp.slide (TileApp.tilesToGrid tl) Right in
  TileApp.tilesToGrid tl = [[2; 0; 0; 2]; emptyRow; emptyRow; emptyRow]
  /\ s' = GridApp.mkLocals [[0; 0; 0; 4]; emptyRow; emptyRow; emptyRow] 4 true
  /\ TileApp.tilesToGrid (TileApp.newTiles s)
     = [[0; 0; 0; 4]; emptyRow; emptyRow; emptyRow]
  /\ TileApp.totalPoints s = 4
  /\ TileApp.moved s = false.
Proof.
  vm_compute. repeat split.
Qed.

(** ** Runs of equal tiles *)

Lemma half_step (k : nat) :
  (S (S k) / 2 = S (k / 2))%nat /\ (S (S k) mod 2 = k mod 2)%nat.
Proof.
  replace (S (S k)) with (k + 1 * 2)%nat by lia.
  rewrite Nat.div_add, Nat.Div0.mod_add by lia. split; lia.
Qed.

(** A run followed by something that does not start with its value merges
    on its own. *)
Lemma mergeLine_run (v : Z) (rest : list Z) :
  (forall w rest', rest = w :: rest' -> v <> w) ->
  forall k,
    mergeLine (repeat v k ++ rest) = mergedRun (v, k) ++ mergeLine rest
    /\ mergePoints (repeat v k ++ rest)
       = v * 2 * Z.of_nat (k / 2) + mergePoints rest
    /\ mergeCount (repeat v k ++ rest) = (k / 2 + mergeCount rest)%nat.
Proof.
  intros Hrest.
  assert (H : forall n k, (k <= n)%nat ->
    mergeLine (repeat v k ++ rest) = mergedRun (v, k) ++ mergeLine rest
    /\ mergePoints (repeat v k ++ rest)
       = v * 2 * Z.of_nat (k / 2) + mergePoints rest
    /\ mergeCount (repeat v k ++ rest) = (k / 2 + mergeCount rest)%nat).
  { induction n as [| n IH]; intros k Hk.
    - assert (k = O) by lia. subst k. cbn. repeat split. lia.
    - destruct k as [| [| k]].
      + cbn. repeat split. lia.
      + unfold mergedRun. cbn [fst snd repeat app].
        change (1 / 2)%nat with 0%nat. change (1 mod 2)%nat with 1%nat.
        cbn [repeat app Z.of_nat].
        destruct rest as [| w rest'].
        * cbn. repeat split. lia.
        * assert (v <> w) by (eapply Hrest; reflexivity).
          rewrite mergeLine_diff, mergePoints_diff, mergeCount_diff
            by assumption.
          repeat split. lia.
      + destruct (IH k ltac:(lia)) as (E1 & E2 & E3).
        destruct (half_step k) as [Hd Hm].
        cbn [repeat app].
        rewrite mergeLine_same, mergePoints_same, mergeCount_same.
        rewrite E1, E2, E3. unfold mergedRun. cbn [fst snd].
        rewrite Hd, Hm. cbn [repeat app]. repeat split; lia. }
  intros k. exact (H k k (Nat.le_refl _)).
Qed.

Lemma expand_head (runs : list (Z * nat)) (v w : Z) (rest' : list Z) :
  maximalRuns runs ->
  match runs with [] => True | (u, _) :: _ => v <> u end ->
  expand runs = w :: rest' -> v <> w.
Proof.
  destruct runs as [| [u k] runs]; [discriminate |].
  cbn [maximalRuns expand flat_map fst snd]. intros (_ & Hk & _) Hvu E.
  destruct k as [| k]; [lia |]. cbn in E. injection E as E _. congruence.
Qed.

(** Every maximal run of [k] equal tiles is merged on its own, into
    [k / 2] doubled tiles and the odd tile left over. *)
Lemma mergeLine_runs (runs : list (Z * nat)) :
  maximalRuns runs ->
  mergeLine (expand runs) = flat_map mergedRun runs
  /\ mergePoints (expand runs)
     = sumZ (map (fun vk => fst vk * 2 * Z.of_nat (snd vk / 2)) runs)
  /\ mergeCount (expand runs)
     = list_sum (map (fun vk => (snd vk / 2)%nat) runs).
Proof.
  induction runs as [| [v k] runs IH]; intros Hmax; [now cbn |].
  pose proof Hmax as (Hv & Hk & Hnext & Hrest).
  destruct (IH Hrest) as (E1 & E2 & E3).
  cbn [expand flat_map map fst snd list_sum].
  change (flat_map (fun vk => repeat (fst vk) (snd vk)) runs)
    with (expand runs).
  destruct (mergeLine_run v (expand runs)) with (k := k) as (R1 & R2 & R3).
  { intros w rest' E. eapply expand_head; eassumption. }
  rewrite R1, R2, R3, E1, E2, E3, sumZ_cons. cbn [fst snd].
  repeat split.
Qed.

Lemma lineMerges_mergeCount (row : list Z) :
  lineMerges row = mergeCount (compact row).
Proof.
  unfold lineMerges, tileCount. fold (slideRow row).
  rewrite slideRow_eq.
  rewrite compact_pad by (apply mergeLine_nonzero, compact_nonzero).
  pose proof (mergeLine_length (compact row)). lia.
Qed.

(** ** Groups of source tiles *)

Lemma mergeGroups_same (a : Z) (rest : list Z) :
  mergeGroups (a :: a :: rest) = [a; a] :: mergeGroups rest.
Proof. cbn [mergeGroups]. now rewrite Z.eqb_refl. Qed.

Lemma mergeGroups_diff (a b : Z) (rest : list Z) :
  a <> b -> mergeGroups (a :: b :: rest) = [a] :: mergeGroups (b :: rest).
Proof.
  intros H. cbn [mergeGroups]. apply Z.eqb_neq in H. now rewrite H.
Qed.

#[export] Hint Rewrite mergeGroups_same : merge_eqs.
#[export] Hint Rewrite mergeGroups_diff using assumption : merge_eqs.

Lemma mergeGroups_head (arr : list Z) (w : Z) (g : list Z)
      (gs : list (list Z)) :
  mergeGroups arr = (w :: g) :: gs -> exists arr', arr = w :: arr'.
Proof.
  destruct arr as [| a [| b rest]]; cbn [mergeGroups]; intros E;
    try discriminate.
  - injection E as -> _ _. eauto.
  - destruct (a =? b); injection E as -> _ _; eauto.
Qed.

Lemma mergeGroups_spec (arr : list Z) :
  concat (mergeGroups arr) = arr
  /\ Forall isGroup (mergeGroups arr)
  /\ greedy (mergeGroups arr)
  /\ mergeLine arr = map sumZ (mergeGroups arr)
  /\ mergePoints arr = sumZ (map sumZ (filter isPair (mergeGroups arr)))
  /\ mergeCount arr = length (filter isPair (mergeGroups arr)).
Proof.
  merge_scan arr.
  - cbn. repeat split; constructor.
  - cbn [mergeGroups mergeLine mergePoints mergeCount concat app map filter
         isPair length Nat.eqb greedy].
    split; [reflexivity |].
    split; [constructor; [exists a; now left | constructor] |].
    split; [now split |].
    split; [cbn; f_equal; lia |].
    split; reflexivity.
  - destruct IHarr as (E1 & E2 & E3 & E4 & E5 & E6).
    cbn [concat app map filter isPair length Nat.eqb greedy].
    split; [now rewrite E1 |].
    split; [constructor; [exists a; now right | assumption] |].
    split; [now split |].
    split; [rewrite E4; cbn [sumZ fold_right]; f_equal; lia |].
    split; [rewrite E5, !sumZ_cons; cbn [sumZ fold_right]; lia |].
    now rewrite E6.
  - destruct IHarr as (E1 & E2 & E3 & E4 & E5 & E6).
    cbn [concat app map filter isPair length Nat.eqb greedy].
    split; [now rewrite E1 |].
    split; [constructor; [exists a; now left | assumption] |].
    split.
    { split; [| assumption].
      destruct (mergeGroups (b :: arr)) as [| [| w g] gs] eqn:Eg;
        try exact I.
      apply mergeGroups_head in Eg. destruct Eg as (arr' & Eg).
      injection Eg as <- _. assumption. }
    split; [rewrite E4; cbn [sumZ fold_right]; f_equal; lia |].
    split; assumption.
Qed.

Lemma placed_values (isH : bool) (i : nat) (step : Z) (vals : list Z) :
  forall pos, map (fun x => fst (fst x)) (placed isH i step pos vals) = vals.
Proof.
  induction vals as [| v vals IH]; intros pos; [reflexivity |].
  cbn [placed map fst]. now rewrite IH.
Qed.

(** The values that the line loop of the tile version pushes are those of
    [mergeLine]. *)
Lemma lineLoop_values (isH : bool) (i : nat) (step : Z)
      (line : list TileApp.Tile) (pos pts : Z) (mv : bool) (ctr : Z) :
  let r := TileApp.lineLoop isH i step line pos
             (TileApp.mkLineState [] pts mv ctr) in
  map TileApp.value (TileApp.processedLine r)
  = mergeLine (map TileApp.value line)
  /\ TileApp.linePoints r = pts + mergePoints (map TileApp.value line).
Proof.
  cbv zeta.
  destruct (lineLoop_vrc isH i step _ line pos
              (TileApp.mkLineState [] pts mv ctr) (Nat.le_refl _))
    as [E1 E2].
  split; [| exact E2].
  cbn [TileApp.processedLine map app] in E1.
  transitivity (map (fun x => fst (fst x))
                    (map vrc (TileApp.processedLine
                                (TileApp.lineLoop isH i step line pos
                                   (TileApp.mkLineState [] pts mv ctr))))).
  - now rewrite map_map.
  - rewrite E1. apply placed_values.
Qed.

(** C3, as the code has it.  The claim gives every contiguous run of equal
    tiles exactly one merge; the code gives a run of [k] tiles [k / 2]
    merges, each of two source tiles: one merge for a run of two or three
    (the first pair in travel order, the third tile stays), two for a run of
    four.  Runs do not interfere, and no doubled tile merges again.  The tile
    version does the same on the tiles of a line.  The line [2, 2, 2, 0] moved
    left becomes [4, 2, 0, 0] with 4 points. *)
Theorem C3_run_of_k_merges_half_k
        (row : list Z) (runs : list (Z * nat))
        (isH : bool) (i : nat) (step : Z) (line : list TileApp.Tile)
        (pos pts : Z) (mv : bool) (ctr : Z) :
  compact row = expand runs ->
  map TileApp.value line = expand runs ->
  maximalRuns runs ->
  fst (GridApp.slideLeft row) = GridApp.pad (flat_map mergedRun runs)
  /\ snd (GridApp.slideLeft row)
     = sumZ (map (fun vk => fst vk * 2 * Z.of_nat (snd vk / 2)) runs)
  /\ lineMerges row = list_sum (map (fun vk => (snd vk / 2)%nat) runs)
  /\ (let r := TileApp.lineLoop isH i step line pos
                 (TileApp.mkLineState [] pts mv ctr) in
      map TileApp.value (TileApp.processedLine r) = flat_map mergedRun runs
      /\ TileApp.linePoints r
         = pts + sumZ (map (fun vk => fst vk * 2 * Z.of_nat (snd vk / 2))
                           runs))
  /\ GridApp.slideLeft [2; 2; 2; 0] = ([4; 2; 0; 0], 4).
Proof.
  intros Hrow Hline Hmax.
  destruct (mergeLine_runs runs Hmax) as (E1 & E2 & E3).
  rewrite lineMerges_mergeCount, slideLeft_eq, Hrow. cbn [fst snd].
  rewrite E1, E2, E3.
  split; [reflexivity |]. split; [reflexivity |]. split; [reflexivity |].
  split; [| reflexivity].
  destruct (lineLoop_values isH i step line pos pts mv ctr) as [L1 L2].
  cbv zeta. rewrite L1, L2, Hline, E1, E2. now split.
Qed.

Lemma C3_witness :
  compact [2; 2; 2; 0] = expand [(2, 3%nat)]
  /\ maximalRuns [(2, 3%nat)]
  /\ lineMerges [2; 2; 2; 0] = list_sum (map (fun vk => (snd vk / 2)%nat)
                                             [(2, 3%nat)]).
Proof.
  assert (H1 : compact [2; 2; 2; 0] = expand [(2, 3%nat)]) by reflexivity.
  assert (H2 : map TileApp.value
                   [TileApp.mkTile "tile-1" 2 0 0 None None;
                    TileApp.mkTile "tile-2" 2 0 1 None None;
                    TileApp.mkTile "tile-3" 2 0 2 None None]
               = expand [(2, 3%nat)]) by reflexivity.
  assert (H3 : maximalRuns [(2, 3%nat)])
    by (simpl; repeat split; [discriminate | lia]).
  split; [exact H1 |]. split; [exact H3 |].
  exact (proj1 (proj2 (proj2
           (C3_run_of_k_merges_half_k [2; 2; 2; 0] [(2, 3%nat)]
              true 0 1 _ 0 0 false 0 H1 H2 H3)))).
Defined.

(** C3, as the claim has it, fails on a run of four: the line [2, 2, 2, 2]
    is one contiguous run of equal tiles and gets two merges, not one, in
    [slideLeft] and in the line loop of the tile version alike. *)
Lemma C3_run_of_four_merges_twice :
  compact [2; 2; 2; 2] = expand [(2, 4%nat)]
  /\ maximalRuns [(2, 4%nat)]
  /\ GridApp.slideLeft [2; 2; 2; 2] = ([4; 4; 0; 0], 8)
  /\ lineMerges [2; 2; 2; 2] = 2%nat
  /\ lineMerges [2; 2; 2; 2] <> 1%nat
  /\ map TileApp.value
         (TileApp.processedLine
            (TileApp.lineLoop true 0 1
               [TileApp.mkTile "tile-1" 2 0 0 None None;
                TileApp.mkTile "tile-2" 2 0 1 None None;
                TileApp.mkTile "tile-3" 2 0 2 None None;
                TileApp.mkTile "tile-4" 2 0 3 None None]
               0 (TileApp.mkLineState [] 0 false 4)))
     = [4; 4].
Proof.
  vm_compute. repeat split; try discriminate. lia.
Qed.

(** C4.  No tile merges twice in a pass: the tiles of a line fall into
    consecutive groups, each a tile alone or two equal tiles, the scan
    pairing a tile with its neighbour whenever the two are equal; every tile
    that comes out is the sum of one group, and the points are the sums of
    the pairs.  So a doubled tile [2 V] comes from exactly two source tiles
    [V], and the scan resumes after both.  This holds for [slideLeft] and for
    the line loop of the tile version.  The row [0, 2, 2, 4] moved left gives
    [4, 4, 0, 0] with 4 points, not [8, 0, 0, 0]; a second move gives
    [8, 0, 0, 0] with 8 points. *)
Theorem C4_each_tile_merges_at_most_once
        (row : list Z)
        (isH : bool) (i : nat) (step : Z) (line : list TileApp.Tile)
        (pos pts : Z) (mv : bool) (ctr : Z) :
  (exists groups : list (list Z),
      concat groups = compact row
      /\ Forall isGroup groups
      /\ greedy groups
      /\ fst (GridApp.slideLeft row) = GridApp.pad (map sumZ groups)
      /\ snd (GridApp.slideLeft row) = sumZ (map sumZ (filter isPair groups))
      /\ lineMerges row = length (filter isPair groups))
  /\ (exists groups : list (list Z),
         let r := TileApp.lineLoop isH i step line pos
                    (TileApp.mkLineState [] pts mv ctr) in
         concat groups = map TileApp.value line
         /\ Forall isGroup groups
         /\ greedy groups
         /\ map TileApp.value (TileApp.processedLine r) = map sumZ groups
         /\ TileApp.linePoints r
            = pts + sumZ (map sumZ (filter isPair groups)))
  /\ GridApp.slideLeft [0; 2; 2; 4] = ([4; 4; 0; 0], 4)
  /\ fst (GridApp.slideLeft [0; 2; 2; 4]) <> [8; 0; 0; 0]
  /\ GridApp.slideLeft [4; 4; 0; 0] = ([8; 0; 0; 0], 8).
Proof.
  split; [| split].
  - exists (mergeGroups (compact row)).
    destruct (mergeGroups_spec (compact row)) as (E1 & E2 & E3 & E4 & E5 & E6).
    rewrite lineMerges_mergeCount, slideLeft_eq. cbn [fst snd].
    rewrite <- E4, <- E5, <- E6. repeat split; assumption.
  - exists (mergeGroups (map TileApp.value line)).
    destruct (mergeGroups_spec (map TileApp.value line))
      as (E1 & E2 & E3 & E4 & E5 & _).
    destruct (lineLoop_values isH i step line pos pts mv ctr) as [L1 L2].
    cbv zeta. rewrite L1, L2, <- E4, <- E5. repeat split; assumption.
  - vm_compute. repeat split. discriminate.
Qed.

(** ** [canMove] *)

Lemma existsb_grid (f : nat -> nat -> bool) :
  existsb (fun i => existsb (fun j => f i j) (seq 0 GRID_SIZE))
          (seq 0 GRID_SIZE) = true
  <-> exists i j, (i < GRID_SIZE)%nat /\ (j < GRID_SIZE)%nat /\ f i j = true.
Proof.
  rewrite existsb_exists. split.
  - intros (i & Hi & H). apply existsb_exists in H.
    destruct H as (j & Hj & H). apply in_seq in Hi, Hj.
    exists i, j. repeat split; try assumption; lia.
  - intros (i & j & Hi & Hj & H). exists i. split; [apply in_seq; lia |].
    apply existsb_exists. exists j. split; [apply in_seq; lia | assumption].
Qed.

Lemma canMoveSpec_pairs (g : Grid) :
  canMoveSpec g <-> hasEmptyCell g \/ someEqualPair g.
Proof.
  unfold canMoveSpec. split.
  - intros [H | (i & j & Hi & Hj & _ & H)]; [now left | right].
    exists i, j. auto.
  - intros [H | (i & j & Hi & Hj & H)]; [now left |].
    destruct (Z.eq_dec (cell g i j) 0) as [E | E].
    + left. exists i, j. auto.
    + right. exists i, j. auto.
Qed.

Lemma pair_test (g : Grid) (i j : nat) :
  ((j <? GRID_SIZE - 1)%nat && (cell g i j =? cell g i (j + 1)))
  || ((i <? GRID_SIZE - 1)%nat && (cell g i j =? cell g (i + 1) j)) = true
  <-> ((j + 1 < GRID_SIZE)%nat /\ cell g i j = cell g i (j + 1))
      \/ ((i + 1 < GRID_SIZE)%nat /\ cell g i j = cell g (i + 1) j).
Proof.
  rewrite orb_true_iff, !andb_true_iff, !Nat.ltb_lt, !Z.eqb_eq.
  unfold GRID_SIZE. split; intros [[H1 H2] | [H1 H2]];
    (left; split; [lia | assumption]) || (right; split; [lia | assumption]).
Qed.

Lemma grid_canMove_spec (g : Grid) :
  GridApp.canMove g = true <-> canMoveSpec g.
Proof.
  rewrite canMoveSpec_pairs. unfold GridApp.canMove.
  rewrite existsb_grid. split.
  - intros (i & j & Hi & Hj & H).
    rewrite <- orb_assoc in H. apply orb_true_iff in H.
    destruct H as [H | H].
    + left. apply Z.eqb_eq in H. exists i, j. auto.
    + right. apply pair_test in H. exists i, j. auto.
  - intros [(i & j & Hi & Hj & H) | (i & j & Hi & Hj & H)];
      exists i, j; split; try assumption; split; try assumption;
      rewrite <- orb_assoc; apply orb_true_iff.
    + left. now apply Z.eqb_eq.
    + right. now apply pair_test.
Qed.

Lemma tile_canMove_spec (tl : list TileApp.Tile) :
  TileApp.canMove tl = true <-> canMoveSpec (TileApp.tilesToGrid tl).
Proof.
  rewrite canMoveSpec_pairs. unfold TileApp.canMove.
  set (g := TileApp.tilesToGrid tl).
  destruct (existsb _ (seq 0 GRID_SIZE)) eqn:He.
  - split; [| reflexivity]. intros _. left.
    apply existsb_grid in He. destruct He as (i & j & Hi & Hj & H).
    apply Z.eqb_eq in H. exists i, j. auto.
  - rewrite (existsb_grid
               (fun i j =>
                  ((j <? GRID_SIZE - 1)%nat
                   && (cell g i j =? cell g i (j + 1)))
                  || ((i <? GRID_SIZE - 1)%nat
                      && (cell g i j =? cell g (i + 1) j)))).
    split.
    + intros (i & j & Hi & Hj & H). right. apply pair_test in H.
      exists i, j. auto.
    + intros [(i & j & Hi & Hj & H) | (i & j & Hi & Hj & H)].
      * exfalso.
        assert (Ht : existsb
                  (fun i => existsb (fun j => cell g i j =? 0)
                                    (seq 0 GRID_SIZE))
                  (seq 0 GRID_SIZE) = true).
        { apply existsb_grid. exists i, j. repeat split; try assumption.
          now apply Z.eqb_eq. }
        congruence.
      * exists i, j. repeat split; try assumption. now apply pair_test.
Qed.

(** C5.  [canMove] is [true] exactly when some cell is empty or two
    neighbours, in a row or in a column, hold the same nonzero value, in the
    grid version and (on the grid of its tiles) in the tile version.  On the
    full checkerboard of 2s and 4s it is [false]. *)
Theorem C5_canMove_iff_empty_or_equal_neighbours
        (g : Grid) (tl : list TileApp.Tile) :
  is_board g ->
  (GridApp.canMove g = true <-> hasEmptyCell g \/ hasEqualNeighbours g)
  /\ (TileApp.canMove tl = true
      <-> hasEmptyCell (TileApp.tilesToGrid tl)
          \/ hasEqualNeighbours (TileApp.tilesToGrid tl))
  /\ GridApp.canMove checkerboard = false
  /\ TileApp.tilesToGrid (boardTiles checkerboard) = checkerboard
  /\ TileApp.canMove (boardTiles checkerboard) = false.
Proof.
  intros _.
  split; [apply grid_canMove_spec |].
  split; [apply tile_canMove_spec |].
  vm_compute. repeat split.
Qed.

Lemma C5_witness :
  is_board checkerboard
  /\ (GridApp.canMove checkerboard = true
      <-> hasEmptyCell checkerboard \/ hasEqualNeighbours checkerboard).
Proof.
  assert (H : is_board checkerboard) by (apply is_board_intro; reflexivity).
  split; [exact H |].
  exact (proj1 (C5_canMove_iff_empty_or_equal_neighbours
                  checkerboard (boardTiles checkerboard) H)).
Defined.

(** ** The win test *)

Lemma tilesToGrid_cell_tile (tl : list TileApp.Tile) (r c : nat) :
  (r < GRID_SIZE)%nat -> (c < GRID_SIZE)%nat ->
  cell (TileApp.tilesToGrid tl) r c <> 0 ->
  exists t, In t tl /\ tilePos t = (Z.of_nat r, Z.of_nat c).
Proof.
  intros Hr Hc Hnz.
  destruct (find (fun t => (TileApp.row t =? Z.of_nat r)
                           && (TileApp.col t =? Z.of_nat c)) tl) as [t |] eqn:F.
  - apply find_some in F. destruct F as [Hin Ht].
    apply andb_true_iff in Ht. destruct Ht as [E1 E2].
    apply Z.eqb_eq in E1, E2. exists t. split; [assumption |].
    unfold tilePos. now rewrite E1, E2.
  - exfalso. apply Hnz. apply tilesToGrid_cell_out; try assumption.
    intros t Ht E. pose proof (find_none _ _ F t Ht) as N. cbv beta in N.
    unfold tilePos in E. injection E as E1 E2.
    rewrite E1, E2, !Z.eqb_refl in N. discriminate.
Qed.

Lemma hasTile2048_In (tl : list TileApp.Tile) :
  TileApp.hasTile2048 tl = true
  <-> exists t, In t tl /\ TileApp.value t = 2048.
Proof.
  unfold TileApp.hasTile2048. rewrite existsb_exists.
  split; intros (t & Ht & E); exists t; (split; [assumption |]);
    now apply Z.eqb_eq.
Qed.

Lemma grid_move_keeps_won (st : GridApp.State) (d : Direction) (r1 r2 : Q) :
  GridApp.won (fst (GridApp.move st d r1 r2)) = GridApp.won st.
Proof.
  unfold GridApp.move. destruct (GridApp.gameOver st); [reflexivity |].
  destruct (GridApp.moved _); reflexivity.
Qed.

(** The win test of the tile version,
    [finalTiles.some(t => t.value === 2048)], is [true] exactly when some
    tile, that is some cell of the board, equals 2048: one cell of 2048
    anywhere is enough, whatever the other cells hold. *)
Lemma tile_win_test_is_equality_with_2048 (tl : list TileApp.Tile) :
  validTiles tl ->
  (TileApp.hasTile2048 tl = true
   <-> exists r c, (r < GRID_SIZE)%nat /\ (c < GRID_SIZE)%nat
                   /\ cell (TileApp.tilesToGrid tl) r c = 2048)
  /\ (TileApp.hasTile2048 tl = true
      <-> exists t, In t tl /\ TileApp.value t = 2048).
Proof.
  intros Hv. split.
  - rewrite hasTile2048_In. pose proof Hv as [_ Hall].
    rewrite Forall_forall in Hall. split.
    + intros (t & Ht & E). destruct (Hall t Ht) as [Hg _].
      apply inGrid_bounds in Hg.
      exists (Z.to_nat (TileApp.row t)), (Z.to_nat (TileApp.col t)).
      unfold GRID_SIZE. repeat split; try lia.
      rewrite tilesToGrid_cell_in by assumption. exact E.
    + intros (r & c & Hr & Hc & E).
      destruct (tilesToGrid_cell_tile tl r c Hr Hc) as (t & Ht & Hp);
        [rewrite E; discriminate |].
      exists t. split; [assumption |].
      rewrite <- E. unfold tilePos in Hp. injection Hp as E1 E2.
      rewrite <- (tilesToGrid_cell_in tl t Hv Ht), E1, E2, !Nat2Z.id.
      reflexivity.
  - apply hasTile2048_In.
Qed.

(** Larger values do not count for the test of the tile version: on
    [past2048Tiles] the cell in the corner is 4096, no cell is 2048, and
    the test is [false]. *)
Lemma tile_win_test_skips_4096 :
  validTiles past2048Tiles
  /\ cell (TileApp.tilesToGrid past2048Tiles) 0 0 = 4096
  /\ TileApp.hasTile2048 past2048Tiles = false.
Proof.
  split; [concrete_valid |]. vm_compute. repeat split.
Qed.

(** C6 ([src/App.tsx] breaks it).  The claim: a board with a cell of 2048
    is a win.  [src/App.tsx] keeps the state [won] and shows an overlay when
    it is set, but its [move] has no win test and never calls
    [setWon(true)]: no move changes [won].  On the board [winningBoard],
    whose top row is [1024, 1024, 0, 0], a move to the right is accepted and
    leaves 2048 on the last cell of the row, and [won] stays [false].  The
    tile version, on the tiles of the same board and with the same draws,
    leaves the same board and sets [won]. *)
Theorem C6_grid_reaches_2048_without_winning :
  let st := GridApp.mkState winningBoard 0 0 false false None in
  let st' := fst (GridApp.move st Right (1 # 2) (1 # 3)) in
  let ts := TileApp.mkState (boardTiles winningBoard) 0 0 false false false
                            0 None in
  let ts' := playTurn ts Right (1 # 2) (1 # 3) in
  snd (GridApp.move st Right (1 # 2) (1 # 3)) = true
  /\ cell (GridApp.grid st') 0 3 = 2048
  /\ GridApp.won st' = false
  /\ (forall s d r1 r2,
        GridApp.won (fst (GridApp.move s d r1 r2)) = GridApp.won s)
  /\ TileApp.tilesToGrid (boardTiles winningBoard) = winningBoard
  /\ TileApp.tilesToGrid (TileApp.tiles ts') = GridApp.grid st'
  /\ TileApp.won ts' = true.
Proof.
  cbv zeta.
  split; [reflexivity |]. split; [reflexivity |]. split; [reflexivity |].
  split; [intros s d r1 r2; apply grid_move_keeps_won |].
  vm_compute. repeat split.
Qed.

(** ** The random draws *)

Lemma randIndex_lt (r : Q) (n : nat) :
  unit_interval r -> (0 < n)%nat -> (randIndex r n < n)%nat.
Proof.
  intros [H0 H1] Hn. unfold randIndex.
  set (z := inject_Z (Z.of_nat n)).
  assert (Hz : (0 < z)%Q).
  { unfold z. change (inject_Z 0 < inject_Z (Z.of_nat n))%Q.
    rewrite <- Zlt_Qlt. lia. }
  assert (Hlo : 0 <= Qfloor (r * z)).
  { change 0 with (Qfloor (inject_Z 0)). apply Qfloor_resp_le.
    apply Qmult_le_0_compat; [assumption | now apply Qlt_le_weak]. }
  assert (Hhi : Qfloor (r * z) < Z.of_nat n).
  { rewrite Zlt_Qlt. fold z.
    apply Qle_lt_trans with (y := (r * z)%Q); [apply Qfloor_le |].
    rewrite <- (Qmult_1_l z) at 2.
    apply Qmult_lt_compat_r; assumption. }
  lia.
Qed.

Lemma randValue_cases (r : Q) : randValue r = 2 \/ randValue r = 4.
Proof. unfold randValue. destruct (Qltb r (9 # 10)); auto. Qed.

(** ** [addRandomTile] *)

Lemma emptyCells_In (g : Grid) (i j : nat) :
  In (i, j) (GridApp.emptyCells g)
  <-> (i < GRID_SIZE)%nat /\ (j < GRID_SIZE)%nat /\ cell g i j = 0.
Proof.
  unfold GridApp.emptyCells. rewrite in_flat_map. split.
  - intros (i' & Hi' & H). apply in_flat_map in H.
    destruct H as (j' & Hj' & H). apply in_seq in Hi', Hj'.
    destruct (Z.eqb_spec (cell g i' j') 0) as [E | E]; [| destruct H].
    destruct H as [H | []]. injection H as <- <-.
    split; [lia |]. split; [lia | exact E].
  - intros (Hi & Hj & E). exists i. split; [apply in_seq; lia |].
    apply in_flat_map. exists j. split; [apply in_seq; lia |].
    rewrite E. now left.
Qed.

Lemma emptyCells_nil (g : Grid) :
  GridApp.emptyCells g = [] <-> ~ hasEmptyCell g.
Proof.
  split.
  - intros E (i & j & Hi & Hj & H).
    assert (In (i, j) (GridApp.emptyCells g)) by now apply emptyCells_In.
    rewrite E in *. contradiction.
  - intros H. destruct (GridApp.emptyCells g) as [| [i j] l] eqn:E;
      [reflexivity |].
    exfalso. apply H.
    assert (Hin : In (i, j) (GridApp.emptyCells g))
      by (rewrite E; now left).
    apply emptyCells_In in Hin. exists i, j. exact Hin.
Qed.

Lemma empty_scan_coordinates (g : Grid) (rows cols : list nat) :
  flat_map (fun i =>
    flat_map (fun j => if cell g i j =? 0
                       then [(Z.of_nat i, Z.of_nat j)] else []) cols) rows
  = map (fun ij => (Z.of_nat (fst ij), Z.of_nat (snd ij)))
        (flat_map (fun i =>
           flat_map (fun j => if cell g i j =? 0 then [(i, j)] else [])
                    cols) rows).
Proof.
  induction rows as [| i rows IH]; [reflexivity |].
  cbn [flat_map]. rewrite map_app, IH. f_equal. clear IH.
  induction cols as [| j cols IHc]; [reflexivity |].
  cbn [flat_map]. rewrite map_app, IHc. f_equal.
  now destruct (cell g i j =? 0).
Qed.

Lemma getEmptyCells_emptyCells (tl : list TileApp.Tile) :
  TileApp.getEmptyCells tl
  = map (fun ij => (Z.of_nat (fst ij), Z.of_nat (snd ij)))
        (GridApp.emptyCells (TileApp.tilesToGrid tl)).
Proof.
  unfold TileApp.getEmptyCells, GridApp.emptyCells.
  apply empty_scan_coordinates.
Qed.

Lemma tileCount_set_nth (row : list Z) (j : nat) (v : Z) :
  (j < length row)%nat -> nth j row 0 = 0 -> v <> 0 ->
  tileCount (set_nth j v row) = S (tileCount row).
Proof.
  unfold tileCount, compact. revert j.
  induction row as [| x row IH]; intros [| j] Hj E Hv; simpl in *;
    try lia.
  - subst x. unfold nonzero at 1 3.
    apply Z.eqb_neq in Hv. rewrite Hv. reflexivity.
  - destruct (nonzero x); simpl; rewrite IH; auto; lia.
Qed.

Lemma list_sum_set_nth (f : list Z -> nat) (g : Grid) (i : nat)
      (row : list Z) :
  (i < length g)%nat ->
  (list_sum (map f (set_nth i row g)) + f (nth i g []))%nat
  = (list_sum (map f g) + f row)%nat.
Proof.
  revert i. induction g as [| x g IH]; intros [| i] Hi; simpl in *;
    try lia.
  specialize (IH i ltac:(lia)). lia.
Qed.

Lemma set_cell_spawn (g : Grid) (i j : nat) (v : Z) :
  is_board g -> (i < GRID_SIZE)%nat -> (j < GRID_SIZE)%nat ->
  cell g i j = 0 -> v = 2 \/ v = 4 ->
  spawnedOne g (set_cell g i j v).
Proof.
  intros Hb Hi Hj E Hv. exists i, j.
  split; [assumption |]. split; [assumption |]. split; [assumption |].
  split; [rewrite cell_set_cell_same by assumption; exact Hv |].
  split; [intros i' j' _ _ Hne; apply cell_set_cell_other; congruence |].
  split; [| now apply set_cell_board].
  unfold boardTileCount, set_cell.
  pose proof (list_sum_set_nth tileCount g i (set_nth j v (nth i g [])))
    as S. destruct Hb as [Hl Hr].
  specialize (S ltac:(lia)).
  rewrite tileCount_set_nth in S.
  - lia.
  - rewrite (board_row_length g i (conj Hl Hr) Hi). exact Hj.
  - exact E.
  - destruct Hv; subst; discriminate.
Qed.

Lemma grid_addRandomTile_cases (g : Grid) (r1 r2 : Q) :
  unit_interval r1 ->
  (GridApp.emptyCells g = [] /\ GridApp.addRandomTile g r1 r2 = g)
  \/ (exists i j, In (i, j) (GridApp.emptyCells g)
                  /\ GridApp.addRandomTile g r1 r2
                     = set_cell g i j (randValue r2)).
Proof.
  intros Hr. unfold GridApp.addRandomTile. rewrite map_id.
  destruct (GridApp.emptyCells g) as [| e l] eqn:E; [left; now split |].
  right. rewrite <- E.
  assert (Hlen : (0 < length (GridApp.emptyCells g))%nat)
    by (rewrite E; simpl; lia).
  replace (0 <? length (GridApp.emptyCells g))%nat with true
    by (symmetry; now apply Nat.ltb_lt).
  pose proof (randIndex_lt r1 _ Hr Hlen) as Hidx.
  destruct (nth_error (GridApp.emptyCells g)
                      (randIndex r1 (length (GridApp.emptyCells g))))
    as [[i j] |] eqn:N.
  - exists i, j. split; [eapply nth_error_In; eassumption | reflexivity].
  - apply nth_error_None in N. lia.
Qed.

Lemma tilesToGrid_snoc (tl : list TileApp.Tile) (t : TileApp.Tile) :
  TileApp.tilesToGrid (tl ++ [t]) = placeV (TileApp.tilesToGrid tl) (vrc t).
Proof.
  rewrite !tilesToGrid_gridOf, map_app, gridOf_app. reflexivity.
Qed.

Lemma tile_addRandomTile_cases (tl : list TileApp.Tile) (ctr : Z)
      (r1 r2 : Q) :
  unit_interval r1 ->
  (GridApp.emptyCells (TileApp.tilesToGrid tl) = []
   /\ TileApp.addRandomTile tl ctr r1 r2 = (tl, ctr))
  \/ (exists i j newId,
         In (i, j) (GridApp.emptyCells (TileApp.tilesToGrid tl))
         /\ TileApp.addRandomTile tl ctr r1 r2
            = (tl ++ [TileApp.mkTile newId (randValue r2)
                                     (Z.of_nat i) (Z.of_nat j)
                                     (Some true) None],
               ctr + 1)).
Proof.
  intros Hr. unfold TileApp.addRandomTile.
  rewrite getEmptyCells_emptyCells, length_map.
  destruct (GridApp.emptyCells (TileApp.tilesToGrid tl)) as [| e l] eqn:E;
    [left; now split |].
  right. rewrite <- E.
  assert (Hlen : (0 < length (GridApp.emptyCells (TileApp.tilesToGrid tl)))%nat)
    by (rewrite E; simpl; lia).
  replace (length (GridApp.emptyCells (TileApp.tilesToGrid tl)) =? 0)%nat
    with false by (symmetry; apply Nat.eqb_neq; lia).
  pose proof (randIndex_lt r1 _ Hr Hlen) as Hidx.
  rewrite nth_error_map.
  destruct (nth_error (GridApp.emptyCells (TileApp.tilesToGrid tl)) _)
    as [[i j] |] eqn:N.
  - exists i, j, (fst (TileApp.generateId ctr)).
    split; [eapply nth_error_In; eassumption | reflexivity].
  - apply nth_error_None in N. lia.
Qed.

Lemma NoDup_snoc {A : Type} (l : list A) (x : A) :
  NoDup l -> ~ In x l -> NoDup (l ++ [x]).
Proof.
  induction l as [| a l IH]; intros Hnd Hx; simpl.
  - constructor; [intros [] | constructor].
  - apply NoDup_cons_iff in Hnd. destruct Hnd as [Ha Hnd].
    constructor.
    + rewrite in_app_iff. intros [H | [H | []]]; [contradiction |].
      apply Hx. left. congruence.
    + apply IH; [assumption |]. intros H. apply Hx. now right.
Qed.

(** A tile put on an empty cell keeps the tile list valid. *)
Lemma validTiles_snoc (tl : list TileApp.Tile) (t : TileApp.Tile)
      (i j : nat) :
  validTiles tl ->
  (i < GRID_SIZE)%nat -> (j < GRID_SIZE)%nat ->
  cell (TileApp.tilesToGrid tl) i j = 0 ->
  tilePos t = (Z.of_nat i, Z.of_nat j) ->
  TileApp.value t <> 0 ->
  validTiles (tl ++ [t]).
Proof.
  intros Hv Hi Hj E Hp Hval. pose proof Hv as [Hnd Hall]. split.
  - rewrite map_app. cbn [map]. apply NoDup_snoc; [assumption |].
    intros Hin. apply in_map_iff in Hin. destruct Hin as (t' & Ep & Ht').
    rewrite Forall_forall in Hall. destruct (Hall t' Ht') as [_ Hnz].
    apply Hnz. rewrite <- (tilesToGrid_cell_in tl t' Hv Ht').
    unfold tilePos in Ep, Hp. rewrite Hp in Ep. injection Ep as E1 E2.
    rewrite E1, E2, !Nat2Z.id. exact E.
  - apply Forall_app. split; [assumption |].
    constructor; [| constructor]. split; [| assumption].
    unfold tilePos in Hp. injection Hp as -> ->.
    apply inGrid_bounds. unfold GRID_SIZE in *. lia.
Qed.

(** C8.  With an empty cell on the board, [addRandomTile] puts a 2 or a 4
    on one cell that was empty and changes no other cell, so the board holds
    exactly one tile more; on a full board it returns the board as it was.
    In the tile version the new tile is appended to the list, which stays
    valid, and the grid of the list changes in the same way.  On the full
    checkerboard either version returns its input. *)
Theorem C8_addRandomTile_spawns_one_tile
        (g : Grid) (tl : list TileApp.Tile) (ctr : Z) (r1 r2 : Q) :
  is_board g ->
  validTiles tl ->
  unit_interval r1 ->
  let g' := GridApp.addRandomTile g r1 r2 in
  let tl' := fst (TileApp.addRandomTile tl ctr r1 r2) in
  (hasEmptyCell g -> spawnedOne g g')
  /\ (~ hasEmptyCell g -> g' = g)
  /\ (hasEmptyCell (TileApp.tilesToGrid tl) ->
      (exists t, tl' = tl ++ [t])
      /\ spawnedOne (TileApp.tilesToGrid tl) (TileApp.tilesToGrid tl')
      /\ validTiles tl')
  /\ (~ hasEmptyCell (TileApp.tilesToGrid tl) -> tl' = tl)
  /\ GridApp.addRandomTile checkerboard r1 r2 = checkerboard
  /\ fst (TileApp.addRandomTile (boardTiles checkerboard) ctr r1 r2)
     = boardTiles checkerboard.
Proof.
  intros Hb Hv Hr. cbv zeta.
  rewrite <- !and_assoc. split; [split; [| reflexivity] | reflexivity].
  rewrite !and_assoc.
  destruct (grid_addRandomTile_cases g r1 r2 Hr)
    as [[En Eg] | (i & j & Hin & Eg)];
    destruct (tile_addRandomTile_cases tl ctr r1 r2 Hr)
      as [[Tn Et] | (i' & j' & newId & Tin & Et)];
    rewrite Eg, Et; cbn [fst].
  all: repeat match goal with
         | H : GridApp.emptyCells _ = [] |- _ => apply emptyCells_nil in H
         | H : In _ (GridApp.emptyCells _) |- _ => apply emptyCells_In in H
         end.
  all: split; [| split; [| split]].
  all: try (intros; reflexivity).
  all: try (intros; contradiction).
  all: try (intros Hno; exfalso; apply Hno;
            match goal with
            | H : (?a < GRID_SIZE)%nat /\ (?b < GRID_SIZE)%nat /\ _ |- _ =>
                exists a, b; exact H
            end).
  all: try (intros _; destruct Hin as (Hi & Hj & E);
            apply set_cell_spawn; try assumption; apply randValue_cases).
  all: intros _; destruct Tin as (Hi' & Hj' & E'); split; [eauto |].
  all: rewrite tilesToGrid_snoc; unfold vrc, placeV;
    cbn [TileApp.value TileApp.row TileApp.col];
    replace (TileApp.inGrid (Z.of_nat i') (Z.of_nat j')) with true
      by (symmetry; apply inGrid_bounds; unfold GRID_SIZE in *; lia);
    rewrite !Nat2Z.id.
  all: split;
    [ apply set_cell_spawn; try assumption;
      [apply tilesToGrid_board | apply randValue_cases]
    | apply (validTiles_snoc tl _ i' j'); try assumption;
      [reflexivity
      | cbn [TileApp.value]; destruct (randValue_cases r2) as [-> | ->];
        discriminate] ].
Qed.

Lemma half_in_unit_interval : unit_interval (1 # 2).
Proof. split; vm_compute; [discriminate | reflexivity]. Defined.

Lemma C8_witness :
  is_board exampleBoard /\ validTiles exampleTiles /\ unit_interval (1 # 2)
  /\ (hasEmptyCell exampleBoard ->
      spawnedOne exampleBoard
                 (GridApp.addRandomTile exampleBoard (1 # 2) (1 # 3))).
Proof.
  split; [exact exampleBoard_board |].
  split; [exact exampleTiles_valid |].
  split; [exact half_in_unit_interval |].
  exact (proj1 (C8_addRandomTile_spawns_one_tile
                  exampleBoard exampleTiles 7 (1 # 2) (1 # 3)
                  exampleBoard_board exampleTiles_valid
                  half_in_unit_interval)).
Defined.

(** * Further properties of the code *)

(** ** Values closed under doubling *)

Lemma mergeLine_closed (P : Z -> Prop) (arr : list Z) :
  (forall v, P v -> P (v * 2)) -> Forall P arr -> Forall P (mergeLine arr).
Proof.
  intros Hdbl. merge_scan arr; intros HP; auto.
  - inversion HP as [| ? ? Ha HP']; subst. inversion HP'; subst.
    constructor; auto.
  - inversion HP; subst. constructor; auto.
Qed.

Lemma slideRow_closed (P : Z -> Prop) (l : list Z) :
  P 0 -> (forall v, P v -> P (v * 2)) -> Forall P l -> Forall P (slideRow l).
Proof.
  intros H0 Hdbl HP. rewrite slideRow_eq. unfold GridApp.pad.
  apply Forall_app. split.
  - apply mergeLine_closed; [assumption |].
    unfold compact. rewrite Forall_forall in *. intros v Hv.
    apply filter_In in Hv. now apply HP.
  - apply Forall_forall. intros v Hv. apply repeat_spec in Hv. now subst.
Qed.

Ltac cells_apart :=
  repeat match goal with
         | H : Forall _ (_ :: _) |- _ =>
             apply Forall_cons_iff in H; destruct H
         | H : Forall _ [] |- _ => clear H
         end.

Lemma allCells_lines (P : Z -> Prop) (d : Direction) (g : Grid) :
  is_board g -> allCells P g -> allCells P (lines d g).
Proof.
  intros H HP. board_cases g H. unfold allCells in *. cells_apart.
  destruct d; cbn; repeat constructor; assumption.
Qed.

Lemma allCells_unlines (P : Z -> Prop) (d : Direction) (ls : list (list Z)) :
  is_board ls -> allCells P ls -> allCells P (unlines d ls).
Proof.
  intros H HP. board_cases ls H. unfold allCells in *. cells_apart.
  destruct d; cbn; repeat constructor; assumption.
Qed.

(** Whatever holds of 0 and of every cell, and is kept by doubling, holds of
    every cell after the slide. *)
Lemma slide_closed (P : Z -> Prop) (g : Grid) (d : Direction) :
  P 0 -> (forall v, P v -> P (v * 2)) ->
  is_board g -> allCells P g ->
  allCells P (GridApp.newGrid (GridApp.slide g d)).
Proof.
  intros H0 Hdbl Hb HP. rewrite slide_lines by assumption.
  cbn [GridApp.newGrid].
  apply allCells_unlines; [now apply slideRow_board, lines_board |].
  unfold allCells. apply Forall_map.
  pose proof (allCells_lines P d g Hb HP) as HL. unfold allCells in HL.
  eapply Forall_impl; [| exact HL].
  intros l Hl. now apply slideRow_closed.
Qed.

Lemma set_cell_closed (P : Z -> Prop) (g : Grid) (i j : nat) (v : Z) :
  P v -> allCells P g -> allCells P (set_cell g i j v).
Proof.
  intros Hv HP. unfold allCells, set_cell in *.
  apply Forall_set_nth; [assumption |].
  apply Forall_set_nth; [| assumption].
  destruct (Nat.lt_ge_cases i (length g)) as [Hi | Hi].
  - rewrite Forall_forall in HP. now apply HP, nth_In.
  - rewrite nth_overflow by assumption. constructor.
Qed.

Lemma randValue_closed (P : Z -> Prop) (r : Q) :
  P 2 -> P 4 -> P (randValue r).
Proof. intros H2 H4. now destruct (randValue_cases r) as [-> | ->]. Qed.

Lemma grid_addRandomTile_closed (P : Z -> Prop) (g : Grid) (r1 r2 : Q) :
  P 2 -> P 4 -> allCells P g -> allCells P (GridApp.addRandomTile g r1 r2).
Proof.
  intros H2 H4 HP. unfold GridApp.addRandomTile. rewrite map_id.
  destruct (0 <? _)%nat; [| assumption].
  destruct (nth_error _ _) as [[i j] |]; [| assumption].
  apply set_cell_closed; [now apply randValue_closed | assumption].
Qed.

Lemma grid_addRandomTile_board (g : Grid) (r1 r2 : Q) :
  is_board g -> is_board (GridApp.addRandomTile g r1 r2).
Proof.
  intros Hb. unfold GridApp.addRandomTile. rewrite map_id.
  destruct (0 <? _)%nat; [| assumption].
  destruct (nth_error _ _) as [[i j] |]; [| assumption].
  now apply set_cell_board.
Qed.

Lemma grid_move_closed (P : Z -> Prop) (st : GridApp.State) (d : Direction)
      (r1 r2 : Q) :
  P 0 -> P 2 -> P 4 -> (forall v, P v -> P (v * 2)) ->
  is_board (GridApp.grid st) -> allCells P (GridApp.grid st) ->
  is_board (GridApp.grid (fst (GridApp.move st d r1 r2)))
  /\ allCells P (GridApp.grid (fst (GridApp.move st d r1 r2))).
Proof.
  intros H0 H2 H4 Hdbl Hb HP. unfold GridApp.move.
  destruct (GridApp.gameOver st); [now split |].
  destruct (GridApp.moved _); [| now split].
  cbn [fst GridApp.grid]. split.
  - now apply grid_addRandomTile_board, slide_board.
  - apply grid_addRandomTile_closed; try assumption.
    now apply slide_closed.
Qed.

Lemma isTileValue_double (v : Z) : isTileValue v -> isTileValue (v * 2).
Proof.
  intros [-> | (k & Hk & ->)]; [now left | right].
  exists (k + 1). split; [lia |]. rewrite Z.pow_add_r by lia. lia.
Qed.

Lemma isTileValue_2 : isTileValue 2.
Proof. right. exists 1. split; [lia | reflexivity]. Qed.

Lemma isTileValue_4 : isTileValue 4.
Proof. right. exists 2. split; [lia | reflexivity]. Qed.

Lemma isTileValue_nonneg (v : Z) : isTileValue v -> 0 <= v.
Proof.
  intros [-> | (k & Hk & ->)]; [lia |]. apply Z.pow_nonneg. lia.
Qed.

(** ** Points *)

Lemma mergePoints_nonneg (arr : list Z) :
  Forall (fun v => 0 <= v) arr -> 0 <= mergePoints arr.
Proof.
  merge_scan arr; intros HP; try (cbn [mergePoints]; lia).
  - inversion HP as [| ? ? Ha HP']; subst.
    inversion HP' as [| ? ? Ha' HP'']; subst.
    specialize (IHarr HP''). lia.
  - inversion HP; subst. auto.
Qed.

Lemma slidePoints_nonneg (l : list Z) :
  Forall (fun v => 0 <= v) l -> 0 <= slidePoints l.
Proof.
  intros HP. rewrite slidePoints_eq. apply mergePoints_nonneg.
  unfold compact. rewrite Forall_forall in *. intros v Hv.
  apply filter_In in Hv. now apply HP.
Qed.

Lemma totalScore_nonneg (g : Grid) (d : Direction) :
  is_board g -> allCells (fun v => 0 <= v) g ->
  0 <= GridApp.totalScore (GridApp.slide g d).
Proof.
  intros Hb HP. rewrite slide_lines by assumption.
  cbn [GridApp.totalScore].
  pose proof (allCells_lines _ d g Hb HP) as HL. unfold allCells in HL.
  induction HL as [| l ls Hl _ IH]; [cbn; lia |].
  cbn [map]. rewrite sumZ_cons.
  pose proof (slidePoints_nonneg l Hl). lia.
Qed.

(** X1.  A move of the grid version keeps the grid a 4x4 board whose cells
    are empty or powers of two from 2 on. *)
Theorem X1_grid_move_keeps_board_of_powers_of_two
        (st : GridApp.State) (d : Direction) (r1 r2 : Q) :
  is_board (GridApp.grid st) ->
  allCells isTileValue (GridApp.grid st) ->
  is_board (GridApp.grid (fst (GridApp.move st d r1 r2)))
  /\ allCells isTileValue (GridApp.grid (fst (GridApp.move st d r1 r2))).
Proof.
  intros Hb HP.
  apply grid_move_closed; try assumption.
  - now left.
  - apply isTileValue_2.
  - apply isTileValue_4.
  - apply isTileValue_double.
Qed.

Lemma exampleBoard_values : allCells isTileValue exampleBoard.
Proof.
  assert (H0 : isTileValue 0) by now left.
  assert (H8 : isTileValue 8) by (right; exists 3; split; [lia | reflexivity]).
  pose proof isTileValue_2. pose proof isTileValue_4.
  unfold allCells, exampleBoard.
  repeat (apply Forall_cons || apply Forall_nil); assumption.
Defined.

Lemma X1_witness :
  is_board exampleBoard /\ allCells isTileValue exampleBoard
  /\ is_board (GridApp.grid
                 (fst (GridApp.move
                         (GridApp.mkState exampleBoard 0 0 false false None)
                         Left (1 # 2) (1 # 3)))).
Proof.
  split; [exact exampleBoard_board |].
  split; [exact exampleBoard_values |].
  exact (proj1 (X1_grid_move_keeps_board_of_powers_of_two
                  (GridApp.mkState exampleBoard 0 0 false false None)
                  Left (1 # 2) (1 # 3)
                  exampleBoard_board exampleBoard_values)).
Defined.

(** X2.  Scores of the grid version.  With no negative cell on the board
    and the score not above the best score, a move never lowers the score,
    the best score becomes the larger of the old best score and the new
    score, and a stored best score that equals the best score still does
    afterwards. *)
Theorem X2_grid_scores_grow
        (st : GridApp.State) (d : Direction) (r1 r2 : Q) :
  is_board (GridApp.grid st) ->
  allCells (fun v => 0 <= v) (GridApp.grid st) ->
  GridApp.score st <= GridApp.bestScore st ->
  let st' := fst (GridApp.move st d r1 r2) in
  GridApp.score st <= GridApp.score st'
  /\ GridApp.score st'
     = GridApp.score st
       + (if snd (GridApp.move st d r1 r2)
          then GridApp.totalScore (GridApp.slide (GridApp.grid st) d)
          else 0)
  /\ GridApp.bestScore st' = Z.max (GridApp.bestScore st) (GridApp.score st')
  /\ GridApp.score st' <= GridApp.bestScore st'
  /\ (GridApp.stored st = Some (GridApp.bestScore st) ->
      GridApp.stored st' = Some (GridApp.bestScore st')).
Proof.
  intros Hb HP Hbest. cbv zeta.
  pose proof (totalScore_nonneg (GridApp.grid st) d Hb HP) as Hpts.
  unfold GridApp.move.
  destruct (GridApp.gameOver st);
    [cbn [fst snd]; repeat split; try lia; auto |].
  destruct (GridApp.moved _);
    [| cbn [fst snd]; repeat split; try lia; auto].
  cbn [fst snd GridApp.score GridApp.bestScore GridApp.stored].
  destruct (Z.gtb_spec (GridApp.score st
                        + GridApp.totalScore
                            (GridApp.slide (GridApp.grid st) d))
                       (GridApp.bestScore st)).
  - repeat split; try lia.
  - repeat split; try lia. auto.
Qed.

Lemma exampleBoard_nonneg : allCells (fun v => 0 <= v) exampleBoard.
Proof.
  unfold allCells, exampleBoard.
  repeat (apply Forall_cons || apply Forall_nil); lia.
Defined.

Lemma X2_witness :
  let st := GridApp.mkState exampleBoard 12 40 false false (Some 40) in
  is_board (GridApp.grid st)
  /\ allCells (fun v => 0 <= v) (GridApp.grid st)
  /\ GridApp.score st <= GridApp.bestScore st
  /\ GridApp.score st
     <= GridApp.score (fst (GridApp.move st Left (1 # 2) (1 # 3))).
Proof.
  cbv zeta.
  assert (H : 12 <= 40) by lia.
  split; [exact exampleBoard_board |].
  split; [exact exampleBoard_nonneg |].
  split; [exact H |].
  exact (proj1 (X2_grid_scores_grow
                  (GridApp.mkState exampleBoard 12 40 false false (Some 40))
                  Left (1 # 2) (1 # 3)
                  exampleBoard_board exampleBoard_nonneg H)).
Defined.

(** ** Lines that a slide leaves alone *)

(** X3.  In the grid version [moved] is [true] exactly when the slide has
    changed some cell of the board; points are counted only by slides that
    report a move. *)
Theorem X3_grid_moved_iff_board_changed (g : Grid) (d : Direction) :
  is_board g ->
  (GridApp.moved (GridApp.slide g d) = true
   <-> GridApp.newGrid (GridApp.slide g d) <> g)
  /\ (GridApp.totalScore (GridApp.slide g d) <> 0 ->
      GridApp.moved (GridApp.slide g d) = true).
Proof.
  intros Hb. pose proof (grid_moved_false_iff g d Hb) as Hiff.
  destruct (GridApp.moved (GridApp.slide g d)) eqn:Hm.
  - split; [| reflexivity]. split; [| reflexivity].
    intros _ E. apply Hiff in E. discriminate.
  - split.
    + split; [discriminate |]. intros Hne. exfalso. now apply Hne, Hiff.
    + intros Hpts. exfalso. apply Hpts.
      apply slide_not_moved in Hm; [| assumption].
      rewrite slide_lines by assumption. cbn [GridApp.totalScore].
      now apply fixed_lines_no_points.
Qed.

Lemma X3_witness :
  is_board exampleBoard
  /\ (GridApp.moved (GridApp.slide exampleBoard Left) = true
      <-> GridApp.newGrid (GridApp.slide exampleBoard Left) <> exampleBoard).
Proof.
  split; [exact exampleBoard_board |].
  exact (proj1 (X3_grid_moved_iff_board_changed exampleBoard Left
                  exampleBoard_board)).
Defined.

Lemma settled_four (a b c d : Z) :
  settled [a; b; c; d]
  <-> ((a = 0 -> b = 0) /\ (a <> 0 -> a <> b))
      /\ ((b = 0 -> c = 0) /\ (b <> 0 -> b <> c))
      /\ ((c = 0 -> d = 0) /\ (c <> 0 -> c <> d)).
Proof.
  unfold settled, GRID_SIZE. split.
  - intros H.
    pose proof (H 0%nat ltac:(lia)) as H0.
    pose proof (H 1%nat ltac:(lia)) as H1.
    pose proof (H 2%nat ltac:(lia)) as H2.
    cbn in H0, H1, H2. tauto.
  - intros (H0 & H1 & H2) k Hk.
    destruct k as [| [| [| k]]]; cbn; try lia; assumption.
Qed.

Lemma list_four_eq (x y z w a b c d : Z) :
  [x; y; z; w] = [a; b; c; d] <-> x = a /\ y = b /\ z = c /\ w = d.
Proof.
  split.
  - intros E. injection E as -> -> -> ->. repeat split.
  - intros (-> & -> & -> & ->). reflexivity.
Qed.

Lemma slideRow_four_fixed (a b c d : Z) :
  slideRow [a; b; c; d] = [a; b; c; d] <-> settled [a; b; c; d].
Proof.
  rewrite settled_four, slideRow_eq. unfold compact. cbn [filter].
  unfold nonzero.
  destruct (Z.eqb_spec a 0), (Z.eqb_spec b 0),
           (Z.eqb_spec c 0), (Z.eqb_spec d 0);
    cbn [negb mergeLine];
    repeat match goal with
           | |- context [?x =? ?y] => destruct (Z.eqb_spec x y)
           end;
    cbn [GridApp.pad app repeat length Nat.sub GRID_SIZE];
    rewrite list_four_eq; subst; try tauto; try (exfalso; congruence).
  all: lia.
Qed.

(** X4.  [slideLeft] returns a line of four as it was, and then with no
    points, exactly when no empty cell comes before a tile and no two equal
    tiles are neighbours. *)
Theorem X4_slideLeft_fixes_settled_lines (l : list Z) :
  length l = GRID_SIZE ->
  (fst (GridApp.slideLeft l) = l <-> settled l)
  /\ (settled l -> GridApp.slideLeft l = (l, 0)).
Proof.
  intros Hlen.
  destruct l as [| a [| b [| c [| d [| e l]]]]]; try discriminate.
  fold (slideRow [a; b; c; d]).
  split; [apply slideRow_four_fixed |].
  intros Hs. apply slideRow_four_fixed in Hs.
  rewrite slideLeft_pair, Hs. f_equal.
  now apply slideRow_fixed_points.
Qed.

Lemma X4_witness :
  length [2; 4; 2; 0] = GRID_SIZE
  /\ (fst (GridApp.slideLeft [2; 4; 2; 0]) = [2; 4; 2; 0]
      <-> settled [2; 4; 2; 0]).
Proof.
  assert (H : length [2; 4; 2; 0] = GRID_SIZE) by reflexivity.
  split; [exact H |].
  exact (proj1 (X4_slideLeft_fixes_settled_lines [2; 4; 2; 0] H)).
Defined.

(** ** The end of the game *)

Lemma slideRow_fixed_settled (l : list Z) :
  length l = GRID_SIZE -> (slideRow l = l <-> settled l).
Proof.
  intros Hlen.
  destruct l as [| a [| b [| c [| d [| e l]]]]]; try discriminate.
  apply slideRow_four_fixed.
Qed.

Lemma map_fixed_board (f : list Z -> list Z) (ls : list (list Z)) :
  is_board ls ->
  map f ls = ls
  <-> forall i, (i < GRID_SIZE)%nat -> f (nth i ls []) = nth i ls [].
Proof.
  intros [Hlen _].
  destruct ls as [| r0 [| r1 [| r2 [| r3 [| r4 ls]]]]]; try discriminate.
  cbn [map]. split.
  - intros E i Hi. injection E as E0 E1 E2 E3.
    small_index i; cbn [nth]; assumption.
  - intros H.
    pose proof (H 0%nat ltac:(unfold GRID_SIZE; lia)) as H0.
    pose proof (H 1%nat ltac:(unfold GRID_SIZE; lia)) as H1.
    pose proof (H 2%nat ltac:(unfold GRID_SIZE; lia)) as H2.
    pose proof (H 3%nat ltac:(unfold GRID_SIZE; lia)) as H3.
    cbn [nth] in H0, H1, H2, H3. congruence.
Qed.

Lemma nth_map_seq (f : nat -> Z) (n k : nat) :
  (k < n)%nat -> nth k (map f (seq 0 n)) 0 = f k.
Proof.
  intros Hk.
  rewrite (map_nth_in f _ k O 0) by (rewrite length_seq; exact Hk).
  now rewrite seq_nth.
Qed.

Lemma settled_line (d : Direction) (g : Grid) (i : nat) :
  is_board g -> (i < GRID_SIZE)%nat ->
  settled (nth i (lines d g) [])
  <-> forall k, (k + 1 < GRID_SIZE)%nat ->
        (lineCell d g i k = 0 -> lineCell d g i (k + 1) = 0)
        /\ (lineCell d g i k <> 0
            -> lineCell d g i k <> lineCell d g i (k + 1)).
Proof.
  intros Hb Hi. rewrite lines_nth by assumption. unfold settled.
  change (fun k => cell g (fst (cellAt d i k)) (snd (cellAt d i k)))
    with (lineCell d g i).
  split; intros H k Hk; specialize (H k Hk).
  - now rewrite !nth_map_seq in H by lia.
  - now rewrite !nth_map_seq by lia.
Qed.

Lemma unmoved_stuck (g : Grid) (d : Direction) :
  is_board g ->
  GridApp.moved (GridApp.slide g d) = false <-> stuck g d.
Proof.
  intros Hb. rewrite slide_not_moved by assumption.
  rewrite (map_fixed_board slideRow) by now apply lines_board.
  unfold stuck. split; intros H i Hi.
  - apply settled_line; try assumption.
    apply slideRow_fixed_settled; [| now apply H].
    apply board_row_length; [now apply lines_board | assumption].
  - apply slideRow_fixed_settled.
    + apply board_row_length; [now apply lines_board | assumption].
    + apply settled_line; try assumption. now apply H.
Qed.

Lemma no_pair_stuck (g : Grid) (d : Direction) :
  ~ hasEmptyCell g -> ~ someEqualPair g -> stuck g d.
Proof.
  intros Hne Hnp i Hi k Hk. unfold lineCell.
  destruct (cellAt_bounds d i k Hi ltac:(lia)) as [Hr Hc].
  split.
  - intros E. exfalso. apply Hne.
    exists (fst (cellAt d i k)), (snd (cellAt d i k)). auto.
  - intros _ E. apply Hnp. clear Hr Hc Hne.
    unfold someEqualPair, cellAt, GRID_SIZE in *.
    destruct d; cbn [fst snd] in E.
    + exists k, i.
      split; [lia | split; [lia | right; split; [lia | exact E]]].
    + exists (4 - 1 - (k + 1))%nat, i.
      split; [lia | split; [lia | right; split; [lia |]]].
      replace (4 - 1 - (k + 1) + 1)%nat with (4 - 1 - k)%nat by lia.
      now symmetry.
    + exists i, k.
      split; [lia | split; [lia | left; split; [lia | exact E]]].
    + exists i, (4 - 1 - (k + 1))%nat.
      split; [lia | split; [lia | left; split; [lia |]]].
      replace (4 - 1 - (k + 1) + 1)%nat with (4 - 1 - k)%nat by lia.
      now symmetry.
Qed.

Lemma stuck_neighbours (g : Grid) :
  (forall d, stuck g d) ->
  forall i j, (i < GRID_SIZE)%nat -> (j < GRID_SIZE)%nat ->
    ((j + 1 < GRID_SIZE)%nat ->
     (cell g i j = 0 <-> cell g i (j + 1) = 0)
     /\ (cell g i j <> 0 -> cell g i j <> cell g i (j + 1)))
    /\ ((i + 1 < GRID_SIZE)%nat ->
        (cell g i j = 0 <-> cell g (i + 1) j = 0)
        /\ (cell g i j <> 0 -> cell g i j <> cell g (i + 1) j)).
Proof.
  intros H i j Hi Hj. split; intros Hn.
  - pose proof (H Left i Hi j Hn) as [HL1 HL2].
    assert (Hk : (4 - 1 - (j + 1) + 1 < GRID_SIZE)%nat)
      by (unfold GRID_SIZE in *; lia).
    pose proof (H Right i Hi _ Hk) as [HR1 _].
    unfold lineCell, cellAt, GRID_SIZE in *. cbn [fst snd] in *.
    replace (4 - 1 - (4 - 1 - (j + 1) + 1))%nat with j in HR1 by lia.
    replace (4 - 1 - (4 - 1 - (j + 1)))%nat with (j + 1)%nat in HR1 by lia.
    tauto.
  - pose proof (H Up j Hj i Hn) as [HU1 HU2].
    assert (Hk : (4 - 1 - (i + 1) + 1 < GRID_SIZE)%nat)
      by (unfold GRID_SIZE in *; lia).
    pose proof (H Down j Hj _ Hk) as [HD1 _].
    unfold lineCell, cellAt, GRID_SIZE in *. cbn [fst snd] in *.
    replace (4 - 1 - (4 - 1 - (i + 1) + 1))%nat with i in HD1 by lia.
    replace (4 - 1 - (4 - 1 - (i + 1)))%nat with (i + 1)%nat in HD1 by lia.
    tauto.
Qed.

Lemma stuck_uniform (g : Grid) :
  (forall d, stuck g d) ->
  forall i j, (i < GRID_SIZE)%nat -> (j < GRID_SIZE)%nat ->
    (cell g i j = 0 <-> cell g 0 0 = 0).
Proof.
  intros H.
  assert (Hcol : forall i, (i < GRID_SIZE)%nat ->
                           (cell g i 0 = 0 <-> cell g 0 0 = 0)).
  { induction i as [| i IH]; intros Hi; [tauto |].
    assert (Hi' : (i < GRID_SIZE)%nat) by lia.
    destruct (stuck_neighbours g H i 0 Hi' ltac:(unfold GRID_SIZE; lia))
      as [_ Hv].
    replace (S i) with (i + 1)%nat in * by lia.
    specialize (Hv Hi). specialize (IH Hi'). tauto. }
  intros i j Hi. induction j as [| j IH]; intros Hj; [now apply Hcol |].
  assert (Hj' : (j < GRID_SIZE)%nat) by lia.
  destruct (stuck_neighbours g H i j Hi Hj') as [Hh _].
  replace (S j) with (j + 1)%nat in * by lia.
  specialize (Hh Hj). specialize (IH Hj'). tauto.
Qed.

Lemma grid_stuck_iff (g : Grid) :
  is_board g -> hasTile g ->
  GridApp.canMove g = false
  <-> forall d, GridApp.moved (GridApp.slide g d) = false.
Proof.
  intros Hb (i0 & j0 & Hi0 & Hj0 & Hne0). split.
  - intros Hcm d. apply unmoved_stuck; [assumption |].
    assert (Hns : ~ canMoveSpec g).
    { intros Hs. apply grid_canMove_spec in Hs. congruence. }
    rewrite canMoveSpec_pairs in Hns. apply no_pair_stuck; tauto.
  - intros Hall.
    assert (Hst : forall d, stuck g d)
      by (intros d; now apply unmoved_stuck).
    destruct (GridApp.canMove g) eqn:Hcm; [exfalso | reflexivity].
    apply grid_canMove_spec in Hcm.
    assert (Hfull : forall i j, (i < GRID_SIZE)%nat -> (j < GRID_SIZE)%nat ->
                                cell g i j <> 0).
    { intros i j Hi Hj E.
      apply (stuck_uniform g Hst i j Hi Hj) in E.
      apply (stuck_uniform g Hst i0 j0 Hi0 Hj0) in E. contradiction. }
    destruct Hcm as [(i & j & Hi & Hj & E) | (i & j & Hi & Hj & Hnz & Hor)].
    + now apply (Hfull i j).
    + destruct (stuck_neighbours g Hst i j Hi Hj) as [Hh Hv].
      destruct Hor as [[Hn E] | [Hn E]].
      * now apply (proj2 (Hh Hn)).
      * now apply (proj2 (Hv Hn)).
Qed.

Lemma empty_board_no_tile : ~ hasTile GridApp.createEmptyGrid.
Proof.
  intros (i & j & Hi & Hj & Hne). apply Hne.
  small_index i; small_index j; reflexivity.
Qed.

(** X5.  On a board with at least one tile, [canMove] answers [false]
    exactly when a slide in any of the four directions reports
    [moved = false]; on any board, [canMove = false] implies that no
    direction moves.  The board without tiles is the exception: no slide
    moves it, and [canMove] is [true]. *)
Theorem X5_grid_canMove_false_iff_no_direction_moves (g : Grid) :
  is_board g ->
  (GridApp.canMove g = false ->
   forall d, GridApp.moved (GridApp.slide g d) = false)
  /\ (hasTile g ->
      (forall d, GridApp.moved (GridApp.slide g d) = false) ->
      GridApp.canMove g = false)
  /\ (~ hasTile g ->
      GridApp.canMove g = true
      /\ forall d, GridApp.moved (GridApp.slide g d) = false).
Proof.
  intros Hb. split; [| split].
  - intros Hcm d. apply unmoved_stuck; [assumption |].
    assert (Hns : ~ canMoveSpec g).
    { intros Hs. apply grid_canMove_spec in Hs. congruence. }
    rewrite canMoveSpec_pairs in Hns. apply no_pair_stuck; tauto.
  - intros Ht Hall. now apply grid_stuck_iff.
  - intros Hnt.
    assert (Hz : forall i j, (i < GRID_SIZE)%nat -> (j < GRID_SIZE)%nat ->
                             cell g i j = 0).
    { intros i j Hi Hj. destruct (Z.eq_dec (cell g i j) 0) as [E | E];
        [exact E | exfalso; apply Hnt; now exists i, j]. }
    assert (Eg : g = GridApp.createEmptyGrid).
    { apply board_ext; [assumption | apply empty_board |].
      intros i j Hi Hj. rewrite Hz by assumption.
      small_index i; small_index j; reflexivity. }
    subst g. split; [reflexivity |]. intros d. now destruct d.
Qed.

Lemma X5_witness :
  is_board checkerboard
  /\ GridApp.canMove checkerboard = false
  /\ forall d, GridApp.moved (GridApp.slide checkerboard d) = false.
Proof.
  assert (Hb : is_board checkerboard) by concrete_board.
  split; [exact Hb |]. split; [reflexivity |].
  exact (proj1 (X5_grid_canMove_false_iff_no_direction_moves checkerboard Hb)
               eq_refl).
Defined.

Lemma spawn_has_tile (g : Grid) (r1 r2 : Q) :
  is_board g -> unit_interval r1 -> hasTile (GridApp.addRandomTile g r1 r2).
Proof.
  intros Hb Hr.
  destruct (grid_addRandomTile_cases g r1 r2 Hr)
    as [[Hnil ->] | (i & j & Hin & ->)].
  - apply emptyCells_nil in Hnil. exists 0%nat, 0%nat.
    split; [unfold GRID_SIZE; lia |]. split; [unfold GRID_SIZE; lia |].
    intros E. apply Hnil. exists 0%nat, 0%nat. unfold GRID_SIZE. auto with zarith.
  - apply emptyCells_In in Hin. destruct Hin as (Hi & Hj & _).
    exists i, j. split; [assumption |]. split; [assumption |].
    rewrite cell_set_cell_same by assumption.
    destruct (randValue_cases r2) as [-> | ->]; discriminate.
Qed.

(** X6.  After an accepted move of the grid version, [gameOver] is [true]
    exactly when no direction can change the board that the move has left,
    spawned tile included. *)
Theorem X6_grid_gameOver_iff_no_direction_moves
        (st : GridApp.State) (d : Direction) (r1 r2 : Q) :
  is_board (GridApp.grid st) ->
  unit_interval r1 ->
  snd (GridApp.move st d r1 r2) = true ->
  GridApp.gameOver (fst (GridApp.move st d r1 r2)) = true
  <-> forall d',
      GridApp.moved
        (GridApp.slide (GridApp.grid (fst (GridApp.move st d r1 r2))) d')
      = false.
Proof.
  intros Hb Hr. unfold GridApp.move.
  destruct (GridApp.gameOver st) eqn:Hover; [discriminate |].
  destruct (GridApp.moved (GridApp.slide (GridApp.grid st) d)) eqn:Hm;
    [| discriminate].
  intros _. cbn [fst GridApp.gameOver GridApp.grid].
  set (g' := GridApp.addRandomTile
               (GridApp.newGrid (GridApp.slide (GridApp.grid st) d)) r1 r2).
  assert (Hb' : is_board g')
    by (apply grid_addRandomTile_board; now apply slide_board).
  assert (Ht' : hasTile g')
    by (apply spawn_has_tile; [now apply slide_board | assumption]).
  rewrite <- (grid_stuck_iff g' Hb' Ht').
  destruct (GridApp.canMove g'); split; congruence.
Qed.

Lemma X6_witness :
  let st := GridApp.mkState exampleBoard 0 0 false false None in
  is_board (GridApp.grid st) /\ unit_interval (1 # 2)
  /\ snd (GridApp.move st Left (1 # 2) (1 # 3)) = true
  /\ (GridApp.gameOver (fst (GridApp.move st Left (1 # 2) (1 # 3))) = true
      <-> forall d',
          GridApp.moved
            (GridApp.slide
               (GridApp.grid (fst (GridApp.move st Left (1 # 2) (1 # 3)))) d')
          = false).
Proof.
  cbv zeta.
  assert (Hs : snd (GridApp.move
                      (GridApp.mkState exampleBoard 0 0 false false None)
                      Left (1 # 2) (1 # 3)) = true) by reflexivity.
  split; [exact exampleBoard_board |].
  split; [exact half_in_unit_interval |].
  split; [exact Hs |].
  exact (X6_grid_gameOver_iff_no_direction_moves
           (GridApp.mkState exampleBoard 0 0 false false None)
           Left (1 # 2) (1 # 3)
           exampleBoard_board half_in_unit_interval Hs).
Defined.

(** ** Where the tiles lie after a slide *)

Lemma slid_line_cell (g : Grid) (d : Direction) (i k : nat) :
  is_board g -> (i < GRID_SIZE)%nat -> (k < GRID_SIZE)%nat ->
  lineCell d (GridApp.newGrid (GridApp.slide g d)) i k
  = nth k (slideRow (nth i (lines d g) [])) 0.
Proof.
  intros Hb Hi Hk.
  assert (Hls : is_board (map slideRow (lines d g)))
    by now apply slideRow_board, lines_board.
  pose proof (lines_nth d _ i (slide_board g d Hb) Hi) as E.
  rewrite slide_lines in E |- * by assumption.
  cbn [GridApp.newGrid] in E |- *.
  rewrite lines_unlines in E by assumption.
  change (fun k => cell (unlines d (map slideRow (lines d g)))
                        (fst (cellAt d i k)) (snd (cellAt d i k)))
    with (lineCell d (unlines d (map slideRow (lines d g))) i) in E.
  rewrite <- (nth_map_seq
                (lineCell d (unlines d (map slideRow (lines d g))) i)
                GRID_SIZE k Hk).
  rewrite <- E.
  rewrite (map_nth_in slideRow _ i [] [])
    by (destruct (lines_board d g Hb) as [-> _]; exact Hi).
  reflexivity.
Qed.

Lemma nonzero_prefix (vals : list Z) (k : nat) :
  Forall (fun v => v <> 0) vals ->
  nth k vals 0 = 0 -> (length vals <= k)%nat.
Proof.
  intros Hnz E.
  destruct (Nat.lt_ge_cases k (length vals)) as [Hlt | Hge]; [| exact Hge].
  exfalso. rewrite Forall_forall in Hnz.
  apply (Hnz (nth k vals 0)); [now apply nth_In | exact E].
Qed.

Lemma slideRow_packed (l : list Z) (k : nat) :
  nth k (slideRow l) 0 = 0 -> nth (k + 1) (slideRow l) 0 = 0.
Proof.
  rewrite slideRow_eq, !nth_pad. intros E.
  apply nonzero_prefix in E;
    [| apply mergeLine_nonzero, compact_nonzero].
  apply nth_overflow. lia.
Qed.

(** X7.  A slide packs every line toward the edge it moves to: in travel
    order an empty cell of the new board is followed only by empty cells. *)
Theorem X7_slide_packs_lines_toward_the_edge
        (g : Grid) (d : Direction) (i k : nat) :
  is_board g -> (i < GRID_SIZE)%nat -> (k + 1 < GRID_SIZE)%nat ->
  lineCell d (GridApp.newGrid (GridApp.slide g d)) i k = 0 ->
  lineCell d (GridApp.newGrid (GridApp.slide g d)) i (k + 1) = 0.
Proof.
  intros Hb Hi Hk.
  rewrite !slid_line_cell by (assumption || lia).
  apply slideRow_packed.
Qed.

Lemma X7_witness :
  is_board exampleBoard /\ (2 < GRID_SIZE)%nat /\ (2 + 1 < GRID_SIZE)%nat
  /\ lineCell Right (GridApp.newGrid (GridApp.slide exampleBoard Right)) 2 2
     = 0
  /\ lineCell Right (GridApp.newGrid (GridApp.slide exampleBoard Right))
              2 (2 + 1) = 0.
Proof.
  assert (H2 : (2 < GRID_SIZE)%nat) by (unfold GRID_SIZE; lia).
  assert (H3 : (2 + 1 < GRID_SIZE)%nat) by (unfold GRID_SIZE; lia).
  assert (H0 : lineCell Right
                 (GridApp.newGrid (GridApp.slide exampleBoard Right)) 2 2 = 0)
    by reflexivity.
  split; [exact exampleBoard_board |].
  split; [exact H2 |]. split; [exact H3 |]. split; [exact H0 |].
  exact (X7_slide_packs_lines_toward_the_edge exampleBoard Right 2 2
           exampleBoard_board H2 H3 H0).
Defined.

(** ** Points and the number of tiles *)

Lemma tileCount_cons (x : Z) (l : list Z) :
  tileCount (x :: l) = (tileAt x + tileCount l)%nat.
Proof.
  unfold tileCount, tileAt, compact, nonzero. cbn [filter].
  now destruct (x =? 0).
Qed.

Lemma tileCount_nil : tileCount [] = O.
Proof. reflexivity. Qed.

Lemma boardTileCount_lines (d : Direction) (g : Grid) :
  is_board g -> boardTileCount (lines d g) = boardTileCount g.
Proof.
  intros H. board_cases g H.
  destruct d; unfold boardTileCount; cbn -[tileCount];
    rewrite !tileCount_cons, !tileCount_nil; lia.
Qed.

Lemma boardTileCount_unlines (d : Direction) (ls : list (list Z)) :
  is_board ls -> boardTileCount (unlines d ls) = boardTileCount ls.
Proof.
  intros H. board_cases ls H.
  destruct d; unfold boardTileCount; cbn -[tileCount];
    rewrite !tileCount_cons, !tileCount_nil; lia.
Qed.

Lemma tileCount_slideRow (l : list Z) :
  (tileCount (slideRow l) + mergeCount (compact l) = tileCount l)%nat.
Proof.
  unfold tileCount. rewrite slideRow_eq.
  rewrite compact_pad by (apply mergeLine_nonzero, compact_nonzero).
  apply mergeLine_length.
Qed.

Lemma mergePoints_zero_iff (arr : list Z) :
  Forall (fun v => 0 < v) arr ->
  mergePoints arr = 0 <-> mergeCount arr = O.
Proof.
  merge_scan arr; intros HP; try (cbn; tauto).
  - inversion HP as [| ? ? Ha HP']; subst.
    inversion HP' as [| ? ? Ha' HP'']; subst.
    assert (0 <= mergePoints arr).
    { apply mergePoints_nonneg. revert HP''. apply Forall_impl. lia. }
    split; [lia | discriminate].
  - inversion HP; subst. auto.
Qed.

Lemma slidePoints_zero_iff (l : list Z) :
  Forall (fun v => 0 <= v) l ->
  slidePoints l = 0 <-> mergeCount (compact l) = O.
Proof.
  intros HP. rewrite slidePoints_eq. apply mergePoints_zero_iff.
  pose proof (compact_nonzero l) as Hnz.
  rewrite Forall_forall in *. intros v Hv.
  specialize (Hnz v Hv). unfold compact in Hv. apply filter_In in Hv.
  destruct Hv as [Hv _]. specialize (HP v Hv). lia.
Qed.

Lemma lines_points_count (ls : list (list Z)) :
  Forall (Forall (fun v => 0 <= v)) ls ->
  0 <= sumZ (map slidePoints ls)
  /\ (boardTileCount (map slideRow ls) <= boardTileCount ls)%nat
  /\ (sumZ (map slidePoints ls) = 0
      <-> boardTileCount (map slideRow ls) = boardTileCount ls).
Proof.
  unfold boardTileCount.
  induction 1 as [| l ls Hl _ IH]; [cbn; lia |].
  cbn [map]. unfold list_sum in *. cbn [fold_right]. rewrite sumZ_cons.
  pose proof (slidePoints_nonneg l Hl).
  pose proof (slidePoints_zero_iff l Hl).
  pose proof (tileCount_slideRow l).
  lia.
Qed.

(** X8.  On a board without negative cells a slide never adds a tile, and it
    counts points exactly when it leaves fewer tiles than it found. *)
Theorem X8_points_iff_fewer_tiles (g : Grid) (d : Direction) :
  is_board g ->
  allCells (fun v => 0 <= v) g ->
  (boardTileCount (GridApp.newGrid (GridApp.slide g d))
   <= boardTileCount g)%nat
  /\ (GridApp.totalScore (GridApp.slide g d) = 0
      <-> boardTileCount (GridApp.newGrid (GridApp.slide g d))
          = boardTileCount g).
Proof.
  intros Hb HP. rewrite slide_lines by assumption.
  cbn [GridApp.newGrid GridApp.totalScore].
  rewrite boardTileCount_unlines
    by now apply slideRow_board, lines_board.
  rewrite <- (boardTileCount_lines d g Hb).
  pose proof (allCells_lines _ d g Hb HP) as HL.
  destruct (lines_points_count (lines d g) HL) as (_ & Hle & Hiff).
  split; assumption.
Qed.

Lemma X8_witness :
  is_board exampleBoard /\ allCells (fun v => 0 <= v) exampleBoard
  /\ (boardTileCount (GridApp.newGrid (GridApp.slide exampleBoard Left))
      <= boardTileCount exampleBoard)%nat.
Proof.
  split; [exact exampleBoard_board |].
  split; [exact exampleBoard_nonneg |].
  exact (proj1 (X8_points_iff_fewer_tiles exampleBoard Left
                  exampleBoard_board exampleBoard_nonneg)).
Defined.

(** ** The four directions *)

(** X9.  The four branches of [move] are one algorithm: a slide in direction
    [d] is the slide to the left of the board whose rows are the lines of
    [d] in travel order (the rows reversed for [Right], the columns for
    [Up], the columns reversed for [Down]), mapped back; points and [moved]
    are those of the slide to the left. *)
Theorem X9_every_direction_is_a_slide_to_the_left (g : Grid) (d : Direction) :
  is_board g ->
  unlines d (lines d g) = g
  /\ GridApp.newGrid (GridApp.slide g d)
     = unlines d (GridApp.newGrid (GridApp.slide (lines d g) Left))
  /\ GridApp.totalScore (GridApp.slide g d)
     = GridApp.totalScore (GridApp.slide (lines d g) Left)
  /\ GridApp.moved (GridApp.slide g d)
     = GridApp.moved (GridApp.slide (lines d g) Left).
Proof.
  intros Hb. split; [now apply unlines_lines |].
  rewrite (slide_lines g d Hb).
  rewrite (slide_lines (lines d g) Left (lines_board d g Hb)).
  cbn [GridApp.newGrid GridApp.totalScore GridApp.moved lines unlines].
  repeat split.
Qed.

Lemma X9_witness :
  is_board exampleBoard
  /\ GridApp.newGrid (GridApp.slide exampleBoard Down)
     = unlines Down
         (GridApp.newGrid (GridApp.slide (lines Down exampleBoard) Left)).
Proof.
  split; [exact exampleBoard_board |].
  exact (proj1 (proj2 (X9_every_direction_is_a_slide_to_the_left
                         exampleBoard Down exampleBoard_board))).
Defined.

(** ** The tile list and the grid *)

(** X10.  On a list of tiles with distinct cells of the board and nonzero
    values, the slide of the tile version leaves the board that the slide of
    the grid version leaves, counts the same points, keeps the tiles on
    distinct cells, and reports a move only when the grid version does. *)
Theorem X10_tile_slide_refines_grid_slide
        (tl : list TileApp.Tile) (d : Direction) (c0 : Z) :
  validTiles tl ->
  let T := TileApp.slide tl d c0 in
  let G := GridApp.slide (TileApp.tilesToGrid tl) d in
  TileApp.tilesToGrid (TileApp.newTiles T) = GridApp.newGrid G
  /\ TileApp.totalPoints T = GridApp.totalScore G
  /\ validTiles (TileApp.newTiles T)
  /\ (TileApp.moved T = true -> GridApp.moved G = true).
Proof.
  intros Hv. cbv zeta.
  destruct (tile_slide_grid tl d c0 Hv) as [Hg Hp].
  split; [exact Hg |]. split; [exact Hp |].
  split; [now apply slide_valid |].
  now apply tile_moved_grid_moved.
Qed.

Lemma X10_witness :
  validTiles exampleTiles
  /\ TileApp.tilesToGrid (TileApp.newTiles (TileApp.slide exampleTiles Up 9))
     = GridApp.newGrid (GridApp.slide (TileApp.tilesToGrid exampleTiles) Up).
Proof.
  split; [exact exampleTiles_valid |].
  exact (proj1 (X10_tile_slide_refines_grid_slide exampleTiles Up 9
                  exampleTiles_valid)).
Defined.

(** ** Counting the empty cells and the tiles *)

Lemma row_empty_count (g : Grid) (i : nat) :
  length (nth i g []) = GRID_SIZE ->
  (length (flat_map (fun j => if (cell g i j =? 0)%Z then [(i, j)] else [])
                    (seq 0 GRID_SIZE))
   + tileCount (nth i g []) = GRID_SIZE)%nat.
Proof.
  unfold cell. intros Hlen.
  destruct (nth i g []) as [| a [| b [| c [| d [| e l]]]]]; try discriminate.
  unfold tileCount, compact, nonzero. cbn [seq GRID_SIZE flat_map nth filter].
  destruct (a =? 0), (b =? 0), (c =? 0), (d =? 0); reflexivity.
Qed.

Lemma emptyCells_count (g : Grid) :
  is_board g ->
  (length (GridApp.emptyCells g) + boardTileCount g
   = GRID_SIZE * GRID_SIZE)%nat.
Proof.
  intros Hb.
  pose proof (row_empty_count g 0 (board_row_length g 0 Hb
                ltac:(unfold GRID_SIZE; lia))) as H0.
  pose proof (row_empty_count g 1 (board_row_length g 1 Hb
                ltac:(unfold GRID_SIZE; lia))) as H1.
  pose proof (row_empty_count g 2 (board_row_length g 2 Hb
                ltac:(unfold GRID_SIZE; lia))) as H2.
  pose proof (row_empty_count g 3 (board_row_length g 3 Hb
                ltac:(unfold GRID_SIZE; lia))) as H3.
  destruct Hb as [Hlen _].
  destruct g as [| r0 [| r1 [| r2 [| r3 [| r4 g]]]]]; try discriminate.
  unfold GridApp.emptyCells, boardTileCount, list_sum.
  change (seq 0 GRID_SIZE) with [0; 1; 2; 3]%nat in *.
  cbn [flat_map map nth fold_right] in *.
  rewrite !length_app in *. cbn [length] in *.
  unfold GRID_SIZE in *. lia.
Qed.

Lemma few_tiles_empty_cell (g : Grid) :
  is_board g ->
  (boardTileCount g < GRID_SIZE * GRID_SIZE)%nat -> hasEmptyCell g.
Proof.
  intros Hb Hlt. pose proof (emptyCells_count g Hb) as Hc.
  destruct (GridApp.emptyCells g) as [| [i j] l] eqn:E;
    [cbn [length] in Hc; lia |].
  assert (Hin : In (i, j) (GridApp.emptyCells g)) by (rewrite E; now left).
  apply emptyCells_In in Hin. now exists i, j.
Qed.

Lemma set_cell_count (g : Grid) (i j : nat) (v : Z) :
  is_board g -> (i < GRID_SIZE)%nat -> (j < GRID_SIZE)%nat ->
  cell g i j = 0 -> v <> 0 ->
  boardTileCount (set_cell g i j v) = S (boardTileCount g).
Proof.
  intros Hb Hi Hj E Hv. unfold boardTileCount, set_cell.
  pose proof (list_sum_set_nth tileCount g i (set_nth j v (nth i g [])))
    as HS.
  pose proof (board_row_length g i Hb Hi) as Hrow.
  destruct Hb as [Hl Hr]. specialize (HS ltac:(lia)).
  rewrite tileCount_set_nth in HS; try assumption; lia.
Qed.

Lemma grid_spawn_one (g : Grid) (r1 r2 : Q) :
  is_board g -> unit_interval r1 -> hasEmptyCell g ->
  spawnedOne g (GridApp.addRandomTile g r1 r2).
Proof.
  intros Hb Hr He.
  destruct (grid_addRandomTile_cases g r1 r2 Hr)
    as [[Hnil _] | (i & j & Hin & ->)].
  - apply emptyCells_nil in Hnil. contradiction.
  - apply emptyCells_In in Hin. destruct Hin as (Hi & Hj & E).
    apply set_cell_spawn; try assumption. apply randValue_cases.
Qed.

Lemma spawnedOne_count (g g' : Grid) :
  spawnedOne g g' -> boardTileCount g' = S (boardTileCount g) /\ is_board g'.
Proof. intros (i & j & _ & _ & _ & _ & _ & Hc & Hb). now split. Qed.

(** ** A new game *)

(** X14.  [initGame] of the grid version leaves a 4x4 board with exactly two
    tiles, each a 2 or a 4, on which a move is possible; the score is 0, the
    game is neither over nor won, and the best score is kept. *)
Theorem X14_grid_initGame_starts_with_two_tiles
        (st : GridApp.State) (r1 r2 r3 r4 : Q) :
  unit_interval r1 -> unit_interval r3 ->
  let st' := GridApp.initGame st r1 r2 r3 r4 in
  is_board (GridApp.grid st')
  /\ boardTileCount (GridApp.grid st') = 2%nat
  /\ allCells (fun v => v = 0 \/ v = 2 \/ v = 4) (GridApp.grid st')
  /\ GridApp.canMove (GridApp.grid st') = true
  /\ GridApp.score st' = 0
  /\ GridApp.gameOver st' = false
  /\ GridApp.won st' = false
  /\ GridApp.bestScore st' = GridApp.bestScore st
  /\ GridApp.stored st' = GridApp.stored st.
Proof.
  intros Hr1 Hr3. cbv zeta. unfold GridApp.initGame.
  cbn [GridApp.grid GridApp.score GridApp.gameOver GridApp.won
       GridApp.bestScore GridApp.stored].
  set (g0 := GridApp.createEmptyGrid).
  set (g1 := GridApp.addRandomTile g0 r1 r2).
  set (g2 := GridApp.addRandomTile g1 r3 r4).
  assert (Hb0 : is_board g0) by apply empty_board.
  assert (Hc0 : boardTileCount g0 = O) by reflexivity.
  assert (H1 : spawnedOne g0 g1).
  { apply grid_spawn_one; try assumption.
    apply few_tiles_empty_cell; [assumption |].
    rewrite Hc0. unfold GRID_SIZE. lia. }
  apply spawnedOne_count in H1. destruct H1 as [Hc1 Hb1].
  assert (H2 : spawnedOne g1 g2).
  { apply grid_spawn_one; try assumption.
    apply few_tiles_empty_cell; [assumption |].
    rewrite Hc1, Hc0. unfold GRID_SIZE. lia. }
  apply spawnedOne_count in H2. destruct H2 as [Hc2 Hb2].
  split; [assumption |]. split; [lia |]. split.
  - unfold g2, g1. repeat apply grid_addRandomTile_closed; auto.
    unfold g0, GridApp.createEmptyGrid, allCells.
    apply Forall_forall. intros row Hrow. apply repeat_spec in Hrow.
    subst row. apply Forall_forall. intros v Hv.
    apply repeat_spec in Hv. now left.
  - split; [| repeat split].
    apply grid_canMove_spec. left.
    apply few_tiles_empty_cell; [assumption |].
    rewrite Hc2, Hc1, Hc0. unfold GRID_SIZE. lia.
Qed.

Lemma X14_witness :
  unit_interval (1 # 2) /\ unit_interval (1 # 2)
  /\ boardTileCount
       (GridApp.grid (GridApp.initGame blankGridState
                                       (1 # 2) (1 # 3) (1 # 2) (19 # 20)))
     = 2%nat.
Proof.
  split; [exact half_in_unit_interval |].
  split; [exact half_in_unit_interval |].
  exact (proj1 (proj2 (X14_grid_initGame_starts_with_two_tiles
                         blankGridState (1 # 2) (1 # 3) (1 # 2) (19 # 20)
                         half_in_unit_interval half_in_unit_interval))).
Defined.

(** ** The board of a tile list *)

Lemma cell_zero_iff_free (tl : list TileApp.Tile) (r c : nat) :
  validTiles tl -> (r < GRID_SIZE)%nat -> (c < GRID_SIZE)%nat ->
  cell (TileApp.tilesToGrid tl) r c = 0
  <-> forall t, In t tl -> tilePos t <> (Z.of_nat r, Z.of_nat c).
Proof.
  intros Hv Hr Hc. split.
  - intros E t Ht Hp. pose proof (tilesToGrid_cell_in tl t Hv Ht) as Hcell.
    unfold tilePos in Hp. injection Hp as Er Ec.
    rewrite Er, Ec, !Nat2Z.id, E in Hcell.
    destruct Hv as [_ Hall]. rewrite Forall_forall in Hall.
    destruct (Hall t Ht) as [_ Hnz]. now apply Hnz.
  - now apply tilesToGrid_cell_out.
Qed.

Lemma validTiles_unsnoc (tl : list TileApp.Tile) (t : TileApp.Tile) :
  validTiles (tl ++ [t]) ->
  validTiles tl
  /\ ~ In (tilePos t) (map tilePos tl)
  /\ TileApp.inGrid (TileApp.row t) (TileApp.col t) = true
  /\ TileApp.value t <> 0.
Proof.
  intros [Hnd Hall]. rewrite map_app in Hnd. cbn [map] in Hnd.
  apply Forall_app in Hall. destruct Hall as [Hall Ht].
  inversion Ht as [| ? ? [Hin Hnz] _]; subst.
  pose proof (NoDup_remove_1 _ _ _ Hnd) as Hnd1.
  pose proof (NoDup_remove_2 _ _ _ Hnd) as Hnd2.
  rewrite app_nil_r in Hnd1, Hnd2.
  repeat split; assumption.
Qed.

Lemma tiles_count (tl : list TileApp.Tile) :
  validTiles tl -> boardTileCount (TileApp.tilesToGrid tl) = length tl.
Proof.
  induction tl as [| t tl IH] using rev_ind; intros Hv; [reflexivity |].
  apply validTiles_unsnoc in Hv. destruct Hv as (Hv & Hfree & Hin & Hnz).
  rewrite tilesToGrid_snoc, length_app. cbn [length].
  unfold placeV, vrc. rewrite Hin.
  apply inGrid_bounds in Hin.
  rewrite set_cell_count; try assumption.
  - rewrite IH by assumption. lia.
  - apply tilesToGrid_board.
  - unfold GRID_SIZE. lia.
  - unfold GRID_SIZE. lia.
  - apply tilesToGrid_cell_out; try (unfold GRID_SIZE; lia).
    intros t' Ht' Hp. apply Hfree. apply in_map_iff. exists t'.
    split; [| assumption]. rewrite Hp. unfold tilePos.
    now rewrite !Z2Nat.id by lia.
Qed.

(** X12.  The board of a list of tiles on distinct cells with nonzero
    values: a cell holds the value of the tile that lies on it, it is empty
    exactly when no tile lies on it, and the board has as many tiles as the
    list. *)
Theorem X12_tilesToGrid_holds_the_tiles
        (tl : list TileApp.Tile) (r c : nat) :
  validTiles tl -> (r < GRID_SIZE)%nat -> (c < GRID_SIZE)%nat ->
  is_board (TileApp.tilesToGrid tl)
  /\ boardTileCount (TileApp.tilesToGrid tl) = length tl
  /\ (forall t, In t tl -> tilePos t = (Z.of_nat r, Z.of_nat c) ->
                cell (TileApp.tilesToGrid tl) r c = TileApp.value t)
  /\ (cell (TileApp.tilesToGrid tl) r c = 0
      <-> forall t, In t tl -> tilePos t <> (Z.of_nat r, Z.of_nat c)).
Proof.
  intros Hv Hr Hc.
  split; [apply tilesToGrid_board |].
  split; [now apply tiles_count |].
  split; [| now apply cell_zero_iff_free].
  intros t Ht Hp. pose proof (tilesToGrid_cell_in tl t Hv Ht) as Hcell.
  unfold tilePos in Hp. injection Hp as Er Ec.
  now rewrite Er, Ec, !Nat2Z.id in Hcell.
Qed.

Lemma X12_witness :
  validTiles exampleTiles /\ (1 < GRID_SIZE)%nat /\ (2 < GRID_SIZE)%nat
  /\ boardTileCount (TileApp.tilesToGrid exampleTiles)
     = length exampleTiles.
Proof.
  assert (H1 : (1 < GRID_SIZE)%nat) by (unfold GRID_SIZE; lia).
  assert (H2 : (2 < GRID_SIZE)%nat) by (unfold GRID_SIZE; lia).
  split; [exact exampleTiles_valid |].
  split; [exact H1 |]. split; [exact H2 |].
  exact (proj1 (proj2 (X12_tilesToGrid_holds_the_tiles exampleTiles 1 2
                         exampleTiles_valid H1 H2))).
Defined.

Lemma emptyCells_NoDup (g : Grid) : NoDup (GridApp.emptyCells g).
Proof.
  unfold GridApp.emptyCells. apply NoDup_flat_map_lines.
  - intros i _. apply NoDup_flat_map_lines.
    + intros j _. destruct (cell g i j =? 0); repeat constructor.
      intros [].
    + intros a b x _ _ Ha Hb.
      destruct (cell g i a =? 0); [| destruct Ha].
      destruct (cell g i b =? 0); [| destruct Hb].
      destruct Ha as [<- | []]. destruct Hb as [Hb | []]. congruence.
    + apply seq_NoDup.
  - intros a b x _ _ Ha Hb.
    apply in_flat_map in Ha, Hb.
    destruct Ha as (ja & _ & Ha). destruct Hb as (jb & _ & Hb).
    destruct (cell g a ja =? 0); [| destruct Ha].
    destruct (cell g b jb =? 0); [| destruct Hb].
    destruct Ha as [<- | []]. destruct Hb as [Hb | []]. congruence.
  - apply seq_NoDup.
Qed.

(** X13.  [getEmptyCells] lists exactly the cells of the board on which no
    tile lies, each of them once; with the tiles on distinct cells, the
    empty cells and the tiles add up to the sixteen cells of the board. *)
Theorem X13_getEmptyCells_lists_the_free_cells (tl : list TileApp.Tile) :
  validTiles tl ->
  (forall r c, In (r, c) (TileApp.getEmptyCells tl)
               <-> TileApp.inGrid r c = true
                   /\ forall t, In t tl -> tilePos t <> (r, c))
  /\ NoDup (TileApp.getEmptyCells tl)
  /\ (length (TileApp.getEmptyCells tl) + length tl
      = GRID_SIZE * GRID_SIZE)%nat.
Proof.
  intros Hv. rewrite getEmptyCells_emptyCells. split; [| split].
  - intros r c. rewrite in_map_iff, inGrid_bounds. split.
    + intros ([i j] & E & Hin). cbn [fst snd] in E. injection E as <- <-.
      apply emptyCells_In in Hin. destruct Hin as (Hi & Hj & Hz).
      split; [unfold GRID_SIZE in *; lia |].
      now apply cell_zero_iff_free.
    + intros [[Hr Hc] Hfree].
      exists (Z.to_nat r, Z.to_nat c). cbn [fst snd].
      rewrite !Z2Nat.id by lia. split; [reflexivity |].
      apply emptyCells_In.
      split; [unfold GRID_SIZE; lia |]. split; [unfold GRID_SIZE; lia |].
      apply cell_zero_iff_free; try assumption;
        try (unfold GRID_SIZE; lia).
      now rewrite !Z2Nat.id by lia.
  - apply (NoDup_map_coarser (fun ij : nat * nat => ij)).
    + rewrite map_id. apply emptyCells_NoDup.
    + intros [i j] [i' j'] _ _ E. cbn [fst snd] in E.
      injection E as Ei Ej. apply Nat2Z.inj in Ei, Ej. congruence.
  - rewrite length_map, <- (tiles_count tl Hv).
    apply emptyCells_count, tilesToGrid_board.
Qed.

Lemma X13_witness :
  validTiles exampleTiles
  /\ (length (TileApp.getEmptyCells exampleTiles) + length exampleTiles
      = GRID_SIZE * GRID_SIZE)%nat.
Proof.
  split; [exact exampleTiles_valid |].
  exact (proj2 (proj2 (X13_getEmptyCells_lists_the_free_cells exampleTiles
                         exampleTiles_valid))).
Defined.

(** ** A new game of the tile version *)

Lemma tile_spawn_one (tl : list TileApp.Tile) (ctr : Z) (r1 r2 : Q) :
  validTiles tl -> unit_interval r1 ->
  (length tl < GRID_SIZE * GRID_SIZE)%nat ->
  exists i j,
    (i < GRID_SIZE)%nat /\ (j < GRID_SIZE)%nat
    /\ cell (TileApp.tilesToGrid tl) i j = 0
    /\ TileApp.addRandomTile tl ctr r1 r2
       = (tl ++ [TileApp.mkTile (fst (TileApp.generateId ctr)) (randValue r2)
                                (Z.of_nat i) (Z.of_nat j) (Some true) None],
          ctr + 1).
Proof.
  intros Hv Hr Hlt. unfold TileApp.addRandomTile.
  rewrite getEmptyCells_emptyCells, length_map.
  pose proof (emptyCells_count _ (tilesToGrid_board tl)) as Hc.
  rewrite (tiles_count tl Hv) in Hc.
  assert (Hlen : (0 < length (GridApp.emptyCells (TileApp.tilesToGrid tl)))%nat)
    by lia.
  replace (length (GridApp.emptyCells (TileApp.tilesToGrid tl)) =? 0)%nat
    with false by (symmetry; apply Nat.eqb_neq; lia).
  pose proof (randIndex_lt r1 _ Hr Hlen) as Hidx.
  rewrite nth_error_map.
  destruct (nth_error (GridApp.emptyCells (TileApp.tilesToGrid tl)) _)
    as [[i j] |] eqn:N.
  - apply nth_error_In, emptyCells_In in N. destruct N as (Hi & Hj & E).
    exists i, j. repeat split; assumption.
  - apply nth_error_None in N. lia.
Qed.

(** X15.  [initGame] of the tile version leaves two tiles, with the ids
    [tile-1] and [tile-2], each a 2 or a 4 and marked new, on two distinct
    cells of the board; the id counter stands at 2, the score is 0, the game
    is neither over nor won nor animating, a move is possible and the best
    score is kept. *)
Theorem X15_tile_initGame_starts_with_two_tiles
        (st : TileApp.State) (r1 r2 r3 r4 : Q) :
  unit_interval r1 -> unit_interval r3 ->
  let st' := TileApp.initGame st r1 r2 r3 r4 in
  (exists t1 t2,
      TileApp.tiles st' = [t1; t2]
      /\ TileApp.id t1 = "tile-1" /\ TileApp.id t2 = "tile-2"
      /\ (TileApp.value t1 = 2 \/ TileApp.value t1 = 4)
      /\ (TileApp.value t2 = 2 \/ TileApp.value t2 = 4)
      /\ TileApp.isNew t1 = Some true /\ TileApp.isNew t2 = Some true)
  /\ validTiles (TileApp.tiles st')
  /\ TileApp.canMove (TileApp.tiles st') = true
  /\ TileApp.tileIdCounter st' = 2
  /\ TileApp.score st' = 0
  /\ TileApp.gameOver st' = false
  /\ TileApp.won st' = false
  /\ TileApp.isAnimating st' = false
  /\ TileApp.bestScore st' = TileApp.bestScore st
  /\ TileApp.stored st' = TileApp.stored st.
Proof.
  intros Hr1 Hr3. cbv zeta. unfold TileApp.initGame.
  assert (Hv0 : validTiles []) by (split; constructor).
  destruct (tile_spawn_one [] 0 r1 r2 Hv0 Hr1 ltac:(cbn; lia))
    as (i1 & j1 & Hi1 & Hj1 & E1 & ->).
  cbn [app]. set (t1 := TileApp.mkTile _ _ _ _ _ _).
  assert (Hv1 : validTiles [t1]).
  { apply (validTiles_snoc [] t1 i1 j1); try assumption; try reflexivity.
    unfold t1. cbn [TileApp.value].
    destruct (randValue_cases r2) as [-> | ->]; discriminate. }
  destruct (tile_spawn_one [t1] (0 + 1) r3 r4 Hv1 Hr3 ltac:(cbn; lia))
    as (i2 & j2 & Hi2 & Hj2 & E2 & ->).
  cbn [app]. set (t2 := TileApp.mkTile _ _ _ _ _ _).
  assert (Hv2 : validTiles [t1; t2]).
  { apply (validTiles_snoc [t1] t2 i2 j2); try assumption; try reflexivity.
    unfold t2. cbn [TileApp.value].
    destruct (randValue_cases r4) as [-> | ->]; discriminate. }
  cbn [TileApp.tiles TileApp.tileIdCounter TileApp.score TileApp.gameOver
       TileApp.won TileApp.isAnimating TileApp.bestScore TileApp.stored].
  split.
  - exists t1, t2. unfold t1, t2.
    cbn [TileApp.id TileApp.value TileApp.isNew].
    repeat split; try reflexivity; apply randValue_cases.
  - split; [assumption |]. split; [| repeat split].
    apply tile_canMove_spec. left.
    apply few_tiles_empty_cell; [apply tilesToGrid_board |].
    rewrite tiles_count by assumption. cbn. lia.
Qed.

Lemma X15_witness :
  unit_interval (1 # 2) /\ unit_interval (1 # 2)
  /\ TileApp.tileIdCounter
       (TileApp.initGame blankTileState (1 # 2) (1 # 3) (1 # 2) (19 # 20))
     = 2.
Proof.
  split; [exact half_in_unit_interval |].
  split; [exact half_in_unit_interval |].
  exact (proj1 (proj2 (proj2 (proj2
           (X15_tile_initGame_starts_with_two_tiles
              blankTileState (1 # 2) (1 # 3) (1 # 2) (19 # 20)
              half_in_unit_interval half_in_unit_interval))))).
Defined.

(** ** Swipes *)

Lemma Qltb_true (a b : Q) : Qltb a b = true <-> (a < b)%Q.
Proof.
  unfold Qltb. rewrite negb_true_iff, <- not_true_iff_false, Qle_bool_iff.
  split; [apply Qnot_le_lt | apply Qlt_not_le].
Qed.

Lemma Qltb_false (a b : Q) : Qltb a b = false <-> (b <= a)%Q.
Proof.
  unfold Qltb. now rewrite negb_false_iff, Qle_bool_iff.
Qed.

Lemma Qabs_cases (d : Q) :
  ((0 <= d)%Q /\ (Qabs d == d)%Q) \/ ((d <= 0)%Q /\ (Qabs d == - d)%Q).
Proof.
  destruct (Qlt_le_dec d 0) as [H | H].
  - right. split; [now apply Qlt_le_weak |]. apply Qabs_neg.
    now apply Qlt_le_weak.
  - left. split; [assumption |]. now apply Qabs_pos.
Qed.

Ltac swipe_tests :=
  repeat match goal with
         | |- context [Qltb ?a ?b] =>
             let E := fresh "E" in
             destruct (Qltb a b) eqn:E;
             [apply Qltb_true in E | apply Qltb_false in E]
         end.

(** X16.  What a swipe does, from the two differences [deltaX] and
    [deltaY] that the handler computes between the end and the start of the
    touch, whatever the rounding of the subtraction: nothing when neither
    exceeds 30 in absolute value; otherwise the larger one decides, a tie
    going to the vertical axis, and its sign gives the direction.  With a
    subtraction that changes sign when its arguments are exchanged, as the
    subtraction of doubles does, the swipe traced backwards gives the
    opposite direction. *)
Theorem X16_swipe_picks_the_dominant_axis
        (minus : Q -> Q -> Q) (x y ex ey : Q) :
  let dx := minus ex x in
  let dy := minus ey y in
  let r := handleTouchEnd minus (Some (x, y)) ex ey in
  (r = None <-> (Qabs dx <= inject_Z 30)%Q /\ (Qabs dy <= inject_Z 30)%Q)
  /\ (r = Some Right <-> (inject_Z 30 < dx)%Q /\ (Qabs dy < dx)%Q)
  /\ (r = Some Left <-> (dx < - inject_Z 30)%Q /\ (Qabs dy < - dx)%Q)
  /\ (r = Some Down <-> (inject_Z 30 < dy)%Q /\ (Qabs dx <= dy)%Q)
  /\ (r = Some Up <-> (dy < - inject_Z 30)%Q /\ (Qabs dx <= - dy)%Q)
  /\ ((forall a b, (minus a b == - minus b a)%Q) ->
      handleTouchEnd minus (Some (ex, ey)) x y = option_map opposite r).
Proof.
  cbv zeta. unfold handleTouchEnd.
  rewrite <- !and_assoc. split.
  - rewrite !and_assoc.
    destruct (Qabs_cases (minus ex x)) as [[Hx Ex] | [Hx Ex]],
             (Qabs_cases (minus ey y)) as [[Hy Ey] | [Hy Ey]];
      change (inject_Z 30) with (30 # 1)%Q in *;
      swipe_tests;
      repeat split; intros;
      repeat match goal with
             | H : _ /\ _ |- _ => destruct H
             end;
      try discriminate; try reflexivity; try lra.
  - intros Hanti.
    pose proof (Hanti x ex) as Ax. pose proof (Hanti y ey) as Ay.
    destruct (Qabs_cases (minus ex x)) as [[Hx Ex] | [Hx Ex]],
             (Qabs_cases (minus ey y)) as [[Hy Ey] | [Hy Ey]],
             (Qabs_cases (minus x ex)) as [[Hx' Ex'] | [Hx' Ex']],
             (Qabs_cases (minus y ey)) as [[Hy' Ey'] | [Hy' Ey']];
      change (inject_Z 30) with (30 # 1)%Q in *;
      swipe_tests; cbn [option_map opposite];
      try reflexivity; exfalso; lra.
Qed.

Lemma Qminus_changes_sign (a b : Q) : (a - b == - (b - a))%Q.
Proof. ring. Qed.

Lemma X16_witness :
  (forall a b, (Qminus a b == - Qminus b a)%Q)
  /\ handleTouchEnd Qminus (Some (100 # 1, 40 # 1)%Q) (10 # 1) (60 # 1)
     = option_map opposite
         (handleTouchEnd Qminus (Some (10 # 1, 60 # 1)%Q) (100 # 1) (40 # 1)).
Proof.
  split; [exact Qminus_changes_sign |].
  exact (proj2 (proj2 (proj2 (proj2 (proj2
           (X16_swipe_picks_the_dominant_axis
              Qminus (10 # 1) (60 # 1) (100 # 1) (40 # 1))))))
           Qminus_changes_sign).
Defined.

(** ** A whole turn of the tile version *)

Lemma vrc_clearFlags (l : list TileApp.Tile) :
  map vrc (map TileApp.clearFlags l) = map vrc l.
Proof. rewrite map_map. now apply map_ext. Qed.

Lemma tilesToGrid_clearFlags (l : list TileApp.Tile) :
  TileApp.tilesToGrid (map TileApp.clearFlags l) = TileApp.tilesToGrid l.
Proof. now rewrite !tilesToGrid_gridOf, vrc_clearFlags. Qed.

Lemma validTiles_clearFlags (l : list TileApp.Tile) :
  validTiles (map TileApp.clearFlags l) <-> validTiles l.
Proof. now rewrite !validTiles_validV, vrc_clearFlags. Qed.

Lemma hasTile2048_clearFlags (l : list TileApp.Tile) :
  TileApp.hasTile2048 (map TileApp.clearFlags l) = TileApp.hasTile2048 l.
Proof.
  unfold TileApp.hasTile2048. induction l as [| t l IH]; [reflexivity |].
  cbn [map existsb]. now rewrite IH.
Qed.

Lemma canMove_agree (tl : list TileApp.Tile) :
  TileApp.canMove tl = GridApp.canMove (TileApp.tilesToGrid tl).
Proof.
  pose proof (tile_canMove_spec tl) as HT.
  pose proof (grid_canMove_spec (TileApp.tilesToGrid tl)) as HG.
  destruct (TileApp.canMove tl), (GridApp.canMove (TileApp.tilesToGrid tl));
    try reflexivity.
  - symmetry. apply HG, HT. reflexivity.
  - apply HT, HG. reflexivity.
Qed.

Lemma tilesToGrid_spawn (tl : list TileApp.Tile) (t : TileApp.Tile)
      (i j : nat) :
  (i < GRID_SIZE)%nat -> (j < GRID_SIZE)%nat ->
  tilePos t = (Z.of_nat i, Z.of_nat j) ->
  TileApp.tilesToGrid (tl ++ [t])
  = set_cell (TileApp.tilesToGrid tl) i j (TileApp.value t).
Proof.
  intros Hi Hj Hp. rewrite tilesToGrid_snoc. unfold placeV, vrc.
  unfold tilePos in Hp. injection Hp as -> ->.
  replace (TileApp.inGrid (Z.of_nat i) (Z.of_nat j)) with true
    by (symmetry; apply inGrid_bounds; unfold GRID_SIZE in *; lia).
  now rewrite !Nat2Z.id.
Qed.

Lemma tile_addRandomTile_grid (tl : list TileApp.Tile) (ctr : Z)
      (r1 r2 : Q) :
  TileApp.tilesToGrid (fst (TileApp.addRandomTile tl ctr r1 r2))
  = GridApp.addRandomTile (TileApp.tilesToGrid tl) r1 r2.
Proof.
  unfold TileApp.addRandomTile, GridApp.addRandomTile.
  rewrite map_id, getEmptyCells_emptyCells, length_map, nth_error_map.
  set (empty := GridApp.emptyCells (TileApp.tilesToGrid tl)).
  destruct (length empty) as [| n] eqn:Hlen; [reflexivity |].
  cbn [Nat.eqb Nat.ltb Nat.leb].
  destruct (nth_error empty (randIndex r1 (S n))) as [[i j] |] eqn:N;
    [| reflexivity].
  cbn [option_map fst snd]. unfold TileApp.generateId. cbn [fst].
  apply nth_error_In, emptyCells_In in N. destruct N as (Hi & Hj & _).
  now apply tilesToGrid_spawn.
Qed.

Lemma tile_addRandomTile_valid (tl : list TileApp.Tile) (ctr : Z)
      (r1 r2 : Q) :
  validTiles tl -> validTiles (fst (TileApp.addRandomTile tl ctr r1 r2)).
Proof.
  intros Hv. unfold TileApp.addRandomTile.
  rewrite getEmptyCells_emptyCells, length_map, nth_error_map.
  set (empty := GridApp.emptyCells (TileApp.tilesToGrid tl)).
  destruct (length empty =? 0)%nat; [assumption |].
  destruct (nth_error empty _) as [[i j] |] eqn:N; [| assumption].
  cbn [option_map fst snd]. unfold TileApp.generateId. cbn [fst].
  apply nth_error_In, emptyCells_In in N. destruct N as (Hi & Hj & E).
  apply (validTiles_snoc tl _ i j); try assumption; try reflexivity.
  cbn [TileApp.value]. destruct (randValue_cases r2) as [-> | ->];
    discriminate.
Qed.

Lemma slide_count_le (g : Grid) (d : Direction) :
  is_board g ->
  (boardTileCount (GridApp.newGrid (GridApp.slide g d))
   <= boardTileCount g)%nat.
Proof.
  intros Hb. rewrite slide_lines by assumption. cbn [GridApp.newGrid].
  rewrite boardTileCount_unlines by now apply slideRow_board, lines_board.
  rewrite <- (boardTileCount_lines d g Hb).
  unfold boardTileCount, list_sum.
  induction (lines d g) as [| l ls IH]; [cbn; lia |].
  cbn [map fold_right]. pose proof (tileCount_slideRow l). lia.
Qed.

Lemma playTurn_unfold (st : TileApp.State) (d : Direction) (r1 r2 : Q) :
  TileApp.gameOver st = false -> TileApp.isAnimating st = false ->
  TileApp.moved (TileApp.slide (TileApp.tiles st) d (TileApp.tileIdCounter st))
  = true ->
  let s := TileApp.slide (TileApp.tiles st) d (TileApp.tileIdCounter st) in
  let spawn := TileApp.addRandomTile (TileApp.newTiles s) (TileApp.counter s)
                                     r1 r2 in
  let newScore := TileApp.score st + TileApp.totalPoints s in
  playTurn st d r1 r2
  = TileApp.mkState
      (map TileApp.clearFlags (fst spawn))
      newScore
      (if newScore >? TileApp.bestScore st
       then newScore else TileApp.bestScore st)
      (if TileApp.canMove (fst spawn) then false else true)
      (if TileApp.hasTile2048 (fst spawn) && negb (TileApp.won st)
       then true else TileApp.won st)
      false
      (snd spawn)
      (if newScore >? TileApp.bestScore st
       then Some newScore else TileApp.stored st).
Proof.
  intros Hover Hanim Hm. cbv zeta.
  unfold playTurn, TileApp.move. rewrite Hover, Hanim, Hm.
  cbn [orb negb]. unfold TileApp.finishMove.
  cbn [TileApp.pendingTiles TileApp.tileIdCounter TileApp.seenWon
       TileApp.score TileApp.pendingPoints TileApp.seenBestScore
       TileApp.bestScore TileApp.gameOver TileApp.won TileApp.stored].
  destruct (TileApp.addRandomTile _ _ r1 r2) as [finalTiles counter'].
  reflexivity.
Qed.

Lemma playTurn_idle (st : TileApp.State) (d : Direction) (r1 r2 : Q) :
  TileApp.gameOver st = true \/ TileApp.isAnimating st = true
  \/ TileApp.moved (TileApp.slide (TileApp.tiles st) d
                                  (TileApp.tileIdCounter st)) = false ->
  TileApp.tiles (playTurn st d r1 r2) = TileApp.tiles st
  /\ TileApp.score (playTurn st d r1 r2) = TileApp.score st
  /\ TileApp.bestScore (playTurn st d r1 r2) = TileApp.bestScore st
  /\ TileApp.gameOver (playTurn st d r1 r2) = TileApp.gameOver st
  /\ TileApp.won (playTurn st d r1 r2) = TileApp.won st
  /\ TileApp.isAnimating (playTurn st d r1 r2) = TileApp.isAnimating st
  /\ TileApp.stored (playTurn st d r1 r2) = TileApp.stored st.
Proof.
  intros H. unfold playTurn, TileApp.move.
  destruct (TileApp.gameOver st || TileApp.isAnimating st) eqn:Hb;
    [repeat split |].
  apply orb_false_iff in Hb. destruct Hb as [Hover Hanim].
  destruct H as [H | [H | H]]; try congruence.
  rewrite H. cbn [negb]. repeat split.
Qed.

(** X11.  A turn of the tile version keeps the tiles on distinct cells of
    the board with nonzero values, adds at most one tile to their number,
    and leaves the animation flag off when it was off. *)
Theorem X11_tile_turn_keeps_tiles_on_distinct_cells
        (st : TileApp.State) (d : Direction) (r1 r2 : Q) :
  validTiles (TileApp.tiles st) ->
  validTiles (TileApp.tiles (playTurn st d r1 r2))
  /\ (length (TileApp.tiles (playTurn st d r1 r2))
      <= length (TileApp.tiles st) + 1)%nat
  /\ (TileApp.isAnimating st = false ->
      TileApp.isAnimating (playTurn st d r1 r2) = false).
Proof.
  intros Hv.
  destruct (TileApp.gameOver st) eqn:Hover.
  { destruct (playTurn_idle st d r1 r2 (or_introl Hover))
      as (-> & _ & _ & _ & _ & -> & _).
    split; [assumption |]. split; [lia | congruence]. }
  destruct (TileApp.isAnimating st) eqn:Hanim.
  { destruct (playTurn_idle st d r1 r2 (or_intror (or_introl Hanim)))
      as (-> & _ & _ & _ & _ & -> & _).
    split; [assumption |]. split; [lia | congruence]. }
  destruct (TileApp.moved (TileApp.slide (TileApp.tiles st) d
                                         (TileApp.tileIdCounter st))) eqn:Hm.
  2:{ destruct (playTurn_idle st d r1 r2 (or_intror (or_intror Hm)))
        as (-> & _ & _ & _ & _ & -> & _).
      split; [assumption |]. split; [lia | congruence]. }
  rewrite (playTurn_unfold st d r1 r2 Hover Hanim Hm).
  cbn [TileApp.tiles TileApp.isAnimating].
  set (s := TileApp.slide (TileApp.tiles st) d (TileApp.tileIdCounter st)).
  assert (Hvs : validTiles (TileApp.newTiles s)) by now apply slide_valid.
  assert (Hva : validTiles (fst (TileApp.addRandomTile
                                   (TileApp.newTiles s) (TileApp.counter s)
                                   r1 r2)))
    by now apply tile_addRandomTile_valid.
  split; [now apply validTiles_clearFlags |]. split; [| reflexivity].
  rewrite length_map, <- (tiles_count _ Hva), tile_addRandomTile_grid.
  rewrite <- (tiles_count _ Hv).
  destruct (tile_slide_grid (TileApp.tiles st) d (TileApp.tileIdCounter st) Hv)
    as [Hg _].
  fold s in Hg. rewrite Hg.
  pose proof (slide_count_le (TileApp.tilesToGrid (TileApp.tiles st)) d
                (tilesToGrid_board _)) as Hle.
  set (g' := GridApp.newGrid
               (GridApp.slide (TileApp.tilesToGrid (TileApp.tiles st)) d))
    in *.
  assert (Hb' : is_board g')
    by (apply slide_board, tilesToGrid_board).
  unfold GridApp.addRandomTile. rewrite map_id.
  destruct (0 <? _)%nat; [| lia].
  destruct (nth_error _ _) as [[i j] |] eqn:N; [| lia].
  apply nth_error_In, emptyCells_In in N. destruct N as (Hi & Hj & E).
  rewrite set_cell_count; try assumption; [lia |].
  destruct (randValue_cases r2) as [-> | ->]; discriminate.
Qed.

Lemma X11_witness :
  validTiles exampleTiles
  /\ validTiles
       (TileApp.tiles
          (playTurn (TileApp.mkState exampleTiles 0 0 false false false 9 None)
                    Left (1 # 2) (1 # 3))).
Proof.
  split; [exact exampleTiles_valid |].
  exact (proj1 (X11_tile_turn_keeps_tiles_on_distinct_cells
                  (TileApp.mkState exampleTiles 0 0 false false false 9 None)
                  Left (1 # 2) (1 # 3) exampleTiles_valid)).
Defined.

(** X17.  The two versions of [addRandomTile] spawn alike: for the same two
    draws, the board of the tile list that the tile version returns is the
    grid that the grid version returns on the board of its input. *)
Theorem X17_tile_addRandomTile_is_grid_addRandomTile
        (tl : list TileApp.Tile) (ctr : Z) (r1 r2 : Q) :
  TileApp.tilesToGrid (fst (TileApp.addRandomTile tl ctr r1 r2))
  = GridApp.addRandomTile (TileApp.tilesToGrid tl) r1 r2
  /\ (snd (TileApp.addRandomTile tl ctr r1 r2) = ctr
      \/ snd (TileApp.addRandomTile tl ctr r1 r2) = ctr + 1)
  /\ TileApp.canMove (fst (TileApp.addRandomTile tl ctr r1 r2))
     = GridApp.canMove (GridApp.addRandomTile (TileApp.tilesToGrid tl) r1 r2).
Proof.
  split; [apply tile_addRandomTile_grid |]. split.
  - unfold TileApp.addRandomTile.
    destruct (length _ =? 0)%nat; [now left |].
    destruct (nth_error _ _) as [[r c] |]; [| now left].
    right. reflexivity.
  - now rewrite canMove_agree, tile_addRandomTile_grid.
Qed.

(** X18.  A turn that the tile version accepts is the move of the grid
    version: on tiles on distinct cells, when the slide of the tile version
    reports [moved = true], the turn leaves the board, the score, the best
    score, the stored best score and the game-over flag that [move] of the
    grid version leaves on the board of the tiles, for the same draws. *)
Theorem X18_accepted_tile_turn_is_the_grid_move
        (st : TileApp.State) (d : Direction) (r1 r2 : Q) :
  validTiles (TileApp.tiles st) ->
  TileApp.gameOver st = false ->
  TileApp.isAnimating st = false ->
  TileApp.moved (TileApp.slide (TileApp.tiles st) d (TileApp.tileIdCounter st))
  = true ->
  let st' := playTurn st d r1 r2 in
  let G := GridApp.move (gridState st) d r1 r2 in
  snd G = true
  /\ TileApp.tilesToGrid (TileApp.tiles st') = GridApp.grid (fst G)
  /\ TileApp.score st' = GridApp.score (fst G)
  /\ TileApp.bestScore st' = GridApp.bestScore (fst G)
  /\ TileApp.stored st' = GridApp.stored (fst G)
  /\ TileApp.gameOver st' = GridApp.gameOver (fst G).
Proof.
  intros Hv Hover Hanim Hm. cbv zeta.
  rewrite (playTurn_unfold st d r1 r2 Hover Hanim Hm).
  pose proof (tile_moved_grid_moved _ d _ Hv Hm) as HmG.
  destruct (tile_slide_grid (TileApp.tiles st) d (TileApp.tileIdCounter st) Hv)
    as [Hg Hp].
  unfold GridApp.move, gridState.
  cbn [GridApp.gameOver GridApp.grid GridApp.score GridApp.bestScore
       GridApp.stored GridApp.won].
  rewrite Hover, HmG.
  cbn [fst snd GridApp.gameOver GridApp.grid GridApp.score GridApp.bestScore
       GridApp.stored TileApp.tiles TileApp.score TileApp.bestScore
       TileApp.stored TileApp.gameOver].
  rewrite tilesToGrid_clearFlags, tile_addRandomTile_grid, canMove_agree,
    tile_addRandomTile_grid, Hg, Hp.
  repeat split.
Qed.

Lemma X18_witness :
  let st := TileApp.mkState exampleTiles 0 0 false false false 9 None in
  validTiles (TileApp.tiles st)
  /\ TileApp.gameOver st = false
  /\ TileApp.isAnimating st = false
  /\ TileApp.moved (TileApp.slide (TileApp.tiles st) Left
                                  (TileApp.tileIdCounter st)) = true
  /\ TileApp.tilesToGrid (TileApp.tiles (playTurn st Left (1 # 2) (1 # 3)))
     = GridApp.grid (fst (GridApp.move (gridState st) Left (1 # 2) (1 # 3))).
Proof.
  cbv zeta.
  assert (Hm : TileApp.moved
                 (TileApp.slide exampleTiles Left 9) = true) by reflexivity.
  split; [exact exampleTiles_valid |].
  split; [reflexivity |]. split; [reflexivity |]. split; [exact Hm |].
  exact (proj1 (proj2 (X18_accepted_tile_turn_is_the_grid_move
                         (TileApp.mkState exampleTiles 0 0 false false false
                                          9 None)
                         Left (1 # 2) (1 # 3)
                         exampleTiles_valid eq_refl eq_refl Hm))).
Defined.

(** X19.  The win flag of the tile version is a latch: a turn never clears
    it, and a turn sets it exactly when the move is accepted and a tile of
    value 2048 is on the board once the new tile has been added. *)
Theorem X19_tile_won_is_a_latch
        (st : TileApp.State) (d : Direction) (r1 r2 : Q) :
  (TileApp.won st = true -> TileApp.won (playTurn st d r1 r2) = true)
  /\ (TileApp.won st = false ->
      (TileApp.won (playTurn st d r1 r2) = true
       <-> snd (TileApp.move st d) <> None
           /\ exists t, In t (TileApp.tiles (playTurn st d r1 r2))
                        /\ TileApp.value t = 2048)).
Proof.
  destruct (TileApp.gameOver st) eqn:Hover.
  { destruct (playTurn_idle st d r1 r2 (or_introl Hover))
      as (_ & _ & _ & _ & -> & _).
    split; [auto |]. intros Hw. rewrite Hw.
    unfold TileApp.move. rewrite Hover. cbn [orb snd].
    split; [discriminate | now intros [H _]]. }
  destruct (TileApp.isAnimating st) eqn:Hanim.
  { destruct (playTurn_idle st d r1 r2 (or_intror (or_introl Hanim)))
      as (_ & _ & _ & _ & -> & _).
    split; [auto |]. intros Hw. rewrite Hw.
    unfold TileApp.move. rewrite Hover, Hanim. cbn [orb snd].
    split; [discriminate | now intros [H _]]. }
  destruct (TileApp.moved (TileApp.slide (TileApp.tiles st) d
                                         (TileApp.tileIdCounter st))) eqn:Hm.
  2:{ destruct (playTurn_idle st d r1 r2 (or_intror (or_intror Hm)))
        as (_ & _ & _ & _ & -> & _).
      split; [auto |]. intros Hw. rewrite Hw.
      unfold TileApp.move. rewrite Hover, Hanim, Hm. cbn [orb negb snd].
      split; [discriminate | now intros [H _]]. }
  rewrite (playTurn_unfold st d r1 r2 Hover Hanim Hm).
  cbn [TileApp.won TileApp.tiles].
  unfold TileApp.move. rewrite Hover, Hanim, Hm. cbn [orb negb snd].
  rewrite <- hasTile2048_In, hasTile2048_clearFlags.
  split.
  - intros ->. now destruct (TileApp.hasTile2048 _).
  - intros ->. cbn [negb]. rewrite andb_true_r.
    destruct (TileApp.hasTile2048 _); split; try discriminate; auto.
    + split; [discriminate | reflexivity].
    + now intros [_ H].
Qed.

(** ** The ids of the tiles *)

Lemma tileId_inj (a b : Z) : tileId a = tileId b -> a = b.
Proof.
  unfold tileId. cbn [String.append]. intros E.
  injection E as E. now apply numToString_inj.
Qed.

Lemma pushMerged_ids (isH : bool) (i : nat) (pos : Z) (tile : TileApp.Tile)
      (s : TileApp.LineState) :
  map TileApp.id (TileApp.processedLine (TileApp.pushMerged isH i pos tile s))
  = map TileApp.id (TileApp.processedLine s)
    ++ [tileId (TileApp.lineCounter s + 1)]
  /\ TileApp.lineCounter (TileApp.pushMerged isH i pos tile s)
     = TileApp.lineCounter s + 1.
Proof.
  unfold TileApp.pushMerged, TileApp.generateId.
  cbn [TileApp.processedLine TileApp.lineCounter].
  rewrite map_app. split; reflexivity.
Qed.

Lemma pushMoved_ids (isH : bool) (i : nat) (pos : Z) (tile : TileApp.Tile)
      (s : TileApp.LineState) :
  map TileApp.id (TileApp.processedLine (TileApp.pushMoved isH i pos tile s))
  = map TileApp.id (TileApp.processedLine s) ++ [TileApp.id tile]
  /\ TileApp.lineCounter (TileApp.pushMoved isH i pos tile s)
     = TileApp.lineCounter s.
Proof.
  unfold TileApp.pushMoved.
  cbn [TileApp.processedLine TileApp.lineCounter].
  rewrite map_app. split; reflexivity.
Qed.

Lemma lineIds_merge (tile nextTile : TileApp.Tile)
      (rest : list TileApp.Tile) (c : Z) :
  TileApp.value tile = TileApp.value nextTile ->
  lineIds (tile :: nextTile :: rest) c
  = tileId (c + 1) :: lineIds rest (c + 1).
Proof.
  intros E. apply Z.eqb_eq in E. cbn [lineIds]. now rewrite E.
Qed.

Lemma lineIds_move (tile nextTile : TileApp.Tile)
      (rest : list TileApp.Tile) (c : Z) :
  TileApp.value tile <> TileApp.value nextTile ->
  lineIds (tile :: nextTile :: rest) c
  = TileApp.id tile :: lineIds (nextTile :: rest) c.
Proof.
  intros E. apply Z.eqb_neq in E. cbn [lineIds]. now rewrite E.
Qed.

Lemma lineLoop_ids (isH : bool) (i : nat) (step : Z) (n : nat) :
  forall (line : list TileApp.Tile) (pos : Z) (s : TileApp.LineState),
    (length line <= n)%nat ->
    map TileApp.id
        (TileApp.processedLine (TileApp.lineLoop isH i step line pos s))
    = map TileApp.id (TileApp.processedLine s)
      ++ lineIds line (TileApp.lineCounter s)
    /\ TileApp.lineCounter (TileApp.lineLoop isH i step line pos s)
       = TileApp.lineCounter s
         + Z.of_nat (mergeCount (map TileApp.value line)).
Proof.
  induction n as [| n IH]; intros line pos s Hlen.
  - destruct line; [| simpl in Hlen; lia].
    cbn. rewrite app_nil_r. split; [reflexivity | lia].
  - destruct line as [| tile [| nextTile rest]].
    + cbn. rewrite app_nil_r. split; [reflexivity | lia].
    + rewrite lineLoop_one. cbn [map mergeCount lineIds].
      destruct (pushMoved_ids isH i pos tile s) as [E1 E2].
      rewrite E1, E2. split; [reflexivity | cbn; lia].
    + cbn [map].
      destruct (Z.eq_dec (TileApp.value tile) (TileApp.value nextTile))
        as [Hv | Hv].
      * rewrite lineLoop_merge, lineIds_merge by assumption.
        rewrite Hv, mergeCount_same.
        destruct (IH rest (pos + step)
                     (TileApp.pushMerged isH i pos tile s)) as [E1 E2];
          [simpl in Hlen; lia |].
        destruct (pushMerged_ids isH i pos tile s) as [M1 M2].
        rewrite E1, E2, M1, M2. rewrite <- app_assoc.
        split; [reflexivity | lia].
      * rewrite lineLoop_move, lineIds_move by assumption.
        rewrite mergeCount_diff by assumption.
        destruct (IH (nextTile :: rest) (pos + step)
                     (TileApp.pushMoved isH i pos tile s)) as [E1 E2];
          [simpl in Hlen |- *; lia |].
        destruct (pushMoved_ids isH i pos tile s) as [M1 M2].
        cbn [map] in E1, E2.
        rewrite E1, E2, M1, M2. rewrite <- app_assoc.
        split; [reflexivity | lia].
Qed.

Lemma stepLine_ids (isH reverse : bool) (cur : list TileApp.Tile)
      (s : TileApp.Locals) (i : nat) :
  map TileApp.id (TileApp.newTiles (TileApp.stepLine isH reverse cur s i))
  = map TileApp.id (TileApp.newTiles s)
    ++ lineIds (sortedLine isH reverse cur i) (TileApp.counter s)
  /\ TileApp.counter (TileApp.stepLine isH reverse cur s i)
     = TileApp.counter s
       + Z.of_nat (mergeCount (lineValues isH reverse cur i)).
Proof.
  unfold TileApp.stepLine, lineValues, sortedLine.
  set (line := filter _ cur).
  destruct (length line =? 0)%nat eqn:Hlen.
  - apply Nat.eqb_eq in Hlen. rewrite sortBy_of_empty by assumption.
    cbn. rewrite app_nil_r. split; [reflexivity | lia].
  - cbn [TileApp.newTiles TileApp.counter].
    destruct (lineLoop_ids isH i (if reverse then -1 else 1) _
                (TileApp.sortBy (TileApp.compareFn isH reverse) line)
                (if reverse then Z.of_nat GRID_SIZE - 1 else 0)
                (TileApp.mkLineState [] (TileApp.totalPoints s)
                   (TileApp.moved s) (TileApp.counter s))
                (Nat.le_refl _)) as [E1 E2].
    rewrite map_app, E1, E2. split; reflexivity.
Qed.

Lemma lineIds_spec (c0 : Z) (n : nat) :
  forall (line : list TileApp.Tile) (c : Z),
    (length line <= n)%nat -> c0 <= c ->
    NoDup (map TileApp.id line) ->
    Forall (fun t => exists m, m <= c0 /\ TileApp.id t = tileId m) line ->
    NoDup (lineIds line c)
    /\ forall x, In x (lineIds line c) ->
         In x (map TileApp.id line)
         \/ exists m,
             c < m <= c + Z.of_nat (mergeCount (map TileApp.value line))
             /\ x = tileId m.
Proof.
  induction n as [| n IH]; intros line c Hlen Hc Hnd Hold.
  - destruct line; [| simpl in Hlen; lia].
    split; [constructor | intros x []].
  - destruct line as [| tile [| nextTile rest]].
    + split; [constructor | intros x []].
    + cbn [lineIds map]. split.
      * constructor; [intros [] | constructor].
      * intros x [<- | []]. left. now left.
    + inversion Hold as [| ? ? (m & Hm & Em) Hold']; subst.
      inversion Hold' as [| ? ? _ Hold'']; subst.
      cbn [map] in Hnd. apply NoDup_cons_iff in Hnd. destruct Hnd as [Hn1 Hnd'].
      pose proof Hnd' as Hnd''. apply NoDup_cons_iff in Hnd''.
      destruct Hnd'' as [_ Hnd''].
      destruct (Z.eq_dec (TileApp.value tile) (TileApp.value nextTile))
        as [Hv | Hv].
      * rewrite lineIds_merge by assumption. cbn [map].
        rewrite Hv, mergeCount_same.
        destruct (IH rest (c + 1) ltac:(simpl in Hlen; lia) ltac:(lia)
                     Hnd'' Hold'') as [N1 N2].
        split.
        -- constructor; [| assumption]. intros Hin.
           destruct (N2 _ Hin) as [Hx | (m' & Hm' & Ex)].
           ++ apply in_map_iff in Hx. destruct Hx as (t & Et & Ht).
              rewrite Forall_forall in Hold''.
              destruct (Hold'' t Ht) as (m' & Hm' & Em').
              rewrite Em' in Et. apply tileId_inj in Et. lia.
           ++ apply tileId_inj in Ex. lia.
        -- intros x [<- | Hin].
           ++ right. exists (c + 1). split; [lia | reflexivity].
           ++ destruct (N2 _ Hin) as [Hx | (m' & Hm' & Ex)].
              ** left. right. right. exact Hx.
              ** right. exists m'. split; [lia | exact Ex].
      * rewrite lineIds_move by assumption. cbn [map].
        rewrite mergeCount_diff by assumption.
        destruct (IH (nextTile :: rest) c ltac:(simpl in Hlen |- *; lia) Hc
                     Hnd' Hold') as [N1 N2].
        cbn [map] in N2.
        split.
        -- constructor; [| assumption]. intros Hin.
           destruct (N2 _ Hin) as [Hx | (m' & Hm' & Ex)].
           ++ now apply Hn1.
           ++ rewrite Em in Ex. apply tileId_inj in Ex. lia.
        -- intros x [<- | Hin]; [left; now left |].
           destruct (N2 _ Hin) as [Hx | (m' & Hm' & Ex)].
           ++ left. right. exact Hx.
           ++ right. exists m'. split; [lia | exact Ex].
Qed.

Lemma NoDup_map_eq {A B : Type} (f : A -> B) (l : list A) (a b : A) :
  NoDup (map f l) -> In a l -> In b l -> f a = f b -> a = b.
Proof.
  induction l as [| x l IH]; intros Hnd Ha Hb E; [destruct Ha |].
  cbn [map] in Hnd. apply NoDup_cons_iff in Hnd. destruct Hnd as [Hx Hnd].
  destruct Ha as [-> | Ha], Hb as [-> | Hb]; try reflexivity.
  - exfalso. apply Hx. rewrite E. now apply in_map.
  - exfalso. apply Hx. rewrite <- E. now apply in_map.
  - now apply IH.
Qed.

Lemma NoDup_map_sortBy {K : Type} (f : TileApp.Tile -> K)
      (cmp : TileApp.Tile -> TileApp.Tile -> Z) (l : list TileApp.Tile) :
  NoDup (map f l) -> NoDup (map f (TileApp.sortBy cmp l)).
Proof.
  intros Hnd. apply NoDup_incl_NoDup with (l := map f l); [assumption | |].
  - rewrite !length_map, sortBy_length. lia.
  - intros x Hx. apply in_map_iff in Hx. destruct Hx as (t & <- & Ht).
    apply in_map, sortBy_In. exact Ht.
Qed.

Lemma sortedLine_key (isH reverse : bool) (cur : list TileApp.Tile)
      (i : nat) (t : TileApp.Tile) :
  In t (sortedLine isH reverse cur i) ->
  In t cur /\ lineKey isH t = Z.of_nat i.
Proof.
  unfold sortedLine, lineKey. rewrite sortBy_In, filter_In.
  intros [Ht Hk]. split; [assumption |].
  destruct isH; now apply Z.eqb_eq.
Qed.

Section TileIds.

Variables (isH reverse : bool) (cur : list TileApp.Tile) (c0 : Z).
Hypothesis cur_distinct : NoDup (map TileApp.id cur).
Hypothesis cur_old :
  Forall (fun t => exists m, m <= c0 /\ TileApp.id t = tileId m) cur.

Lemma fold_stepLine_ids (idx : list nat) :
  forall (done : list nat) (s : TileApp.Locals),
    NoDup idx -> (forall i, In i idx -> ~ In i done) ->
    c0 <= TileApp.counter s ->
    NoDup (map TileApp.id (TileApp.newTiles s)) ->
    (forall x, In x (map TileApp.id (TileApp.newTiles s)) ->
       (exists t i, In t cur /\ TileApp.id t = x
                    /\ In i done /\ lineKey isH t = Z.of_nat i)
       \/ exists m, c0 < m <= TileApp.counter s /\ x = tileId m) ->
    let r := fold_left (TileApp.stepLine isH reverse cur) idx s in
    TileApp.counter s <= TileApp.counter r
    /\ NoDup (map TileApp.id (TileApp.newTiles r))
    /\ forall x, In x (map TileApp.id (TileApp.newTiles r)) ->
         (exists t, In t cur /\ TileApp.id t = x)
         \/ exists m, c0 < m <= TileApp.counter r /\ x = tileId m.
Proof.
  induction idx as [| i idx IH]; intros done s Hidx Hdone Hc Hnd Hall.
  - cbn [fold_left]. split; [lia |]. split; [assumption |].
    intros x Hx. destruct (Hall x Hx) as [(t & _ & Ht & Ex & _) | Hf].
    + left. now exists t.
    + now right.
  - cbn [fold_left]. apply NoDup_cons_iff in Hidx.
    destruct Hidx as [Hi Hidx].
    destruct (stepLine_ids isH reverse cur s i) as [E1 E2].
    unfold lineValues in E2.
    set (s1 := TileApp.stepLine isH reverse cur s i) in *.
    set (line := sortedLine isH reverse cur i) in *.
    assert (Hline : forall t, In t line ->
                              In t cur /\ lineKey isH t = Z.of_nat i)
      by (intros t; apply sortedLine_key).
    assert (Hlnd : NoDup (map TileApp.id line)).
    { unfold line, sortedLine. apply NoDup_map_sortBy.
      now apply NoDup_map_filter. }
    assert (Hlold : Forall (fun t => exists m, m <= c0
                                               /\ TileApp.id t = tileId m)
                           line).
    { apply Forall_forall. intros t Ht. rewrite Forall_forall in cur_old.
      apply cur_old. now apply Hline. }
    destruct (lineIds_spec c0 (length line) line (TileApp.counter s)
                (Nat.le_refl _) Hc Hlnd Hlold) as [N1 N2].
    assert (Hc1 : TileApp.counter s <= TileApp.counter s1) by lia.
    destruct (IH (i :: done) s1) as (R1 & R2 & R3); try assumption.
    + intros j Hj [<- | Hd]; [contradiction |].
      apply (Hdone j); [now right | assumption].
    + lia.
    + rewrite E1. apply NoDup_app; try assumption.
      intros x Hx Hin.
      destruct (Hall x Hx) as [(t & j & Ht & Et & Hj & Kj) | (m & Hm & Em)];
        destruct (N2 x Hin) as [Hl | (m' & Hm' & Em')].
      * apply in_map_iff in Hl. destruct Hl as (t' & Et' & Ht').
        destruct (Hline t' Ht') as [Hc' Kt'].
        assert (t = t')
          by (apply (NoDup_map_eq TileApp.id cur); congruence).
        subst t'. rewrite Kj in Kt'. apply Nat2Z.inj in Kt'. subst j.
        apply (Hdone i); [now left | assumption].
      * rewrite Forall_forall in cur_old.
        destruct (cur_old t Ht) as (m & Hm & Em).
        rewrite <- Et, Em in Em'. apply tileId_inj in Em'. lia.
      * apply in_map_iff in Hl. destruct Hl as (t' & Et' & Ht').
        rewrite Forall_forall in Hlold.
        destruct (Hlold t' Ht') as (m' & Hm' & Em').
        rewrite <- Et', Em' in Em. apply tileId_inj in Em. lia.
      * rewrite Em in Em'. apply tileId_inj in Em'. lia.
    + intros x Hx. rewrite E1 in Hx. apply in_app_iff in Hx.
      destruct Hx as [Hx | Hx].
      * destruct (Hall x Hx) as [(t & j & Ht & Et & Hj & Kj) | (m & Hm & Em)].
        -- left. exists t, j. repeat split; try assumption. now right.
        -- right. exists m. split; [lia | assumption].
      * destruct (N2 x Hx) as [Hl | (m' & Hm' & Em')].
        -- apply in_map_iff in Hl. destruct Hl as (t' & Et' & Ht').
           destruct (Hline t' Ht') as [Hc' Kt'].
           left. exists t', i. repeat split; try assumption. now left.
        -- right. exists m'. split; [lia | assumption].
    + split; [lia |]. split; assumption.
Qed.

End TileIds.

Lemma freshIds_mono (tl : list TileApp.Tile) (c c' : Z) :
  c <= c' -> freshIds tl c -> freshIds tl c'.
Proof.
  intros Hc [Hnd Hall]. split; [assumption |].
  revert Hall. apply Forall_impl. intros t (n & Hn & E).
  exists n. split; [lia | assumption].
Qed.

Lemma freshIds_clearFlags (tl : list TileApp.Tile) (c : Z) :
  freshIds tl c -> freshIds (map TileApp.clearFlags tl) c.
Proof.
  intros [Hnd Hall]. split.
  - rewrite map_map. exact Hnd.
  - rewrite Forall_map. exact Hall.
Qed.

Lemma slide_ids (tl : list TileApp.Tile) (d : Direction) (c : Z) :
  freshIds tl c ->
  c <= TileApp.counter (TileApp.slide tl d c)
  /\ freshIds (TileApp.newTiles (TileApp.slide tl d c))
              (TileApp.counter (TileApp.slide tl d c)).
Proof.
  intros Hf. apply freshIds_clearFlags in Hf. destruct Hf as [Hnd Hall].
  rewrite tile_slide_unfold.
  destruct (fold_stepLine_ids (isHorizontalOf d) (reverseOf d)
              (map TileApp.clearFlags tl) c Hnd Hall
              (seq 0 GRID_SIZE) [] (TileApp.mkLocals [] 0 false c))
    as (R1 & R2 & R3).
  - apply seq_NoDup.
  - intros i _ [].
  - cbn. lia.
  - constructor.
  - intros x [].
  - cbn [TileApp.counter] in R1. split; [assumption |].
    split; [assumption |].
    apply Forall_forall. intros t Ht.
    destruct (R3 (TileApp.id t) (in_map _ _ _ Ht))
      as [(t' & Ht' & Et') | (m & Hm & Em)].
    + rewrite Forall_forall in Hall.
      destruct (Hall t' Ht') as (m & Hm & Em).
      exists m. split; [lia | congruence].
    + exists m. split; [lia | assumption].
Qed.

Lemma addRandomTile_ids (tl : list TileApp.Tile) (c : Z) (r1 r2 : Q) :
  freshIds tl c ->
  c <= snd (TileApp.addRandomTile tl c r1 r2)
  /\ freshIds (fst (TileApp.addRandomTile tl c r1 r2))
              (snd (TileApp.addRandomTile tl c r1 r2)).
Proof.
  intros Hf. unfold TileApp.addRandomTile.
  destruct (length _ =? 0)%nat; [split; [cbn; lia | assumption] |].
  destruct (nth_error _ _) as [[r c'] |];
    [| split; [cbn; lia | assumption]].
  unfold TileApp.generateId. cbn [fst snd]. split; [lia |].
  destruct Hf as [Hnd Hall]. split.
  - rewrite map_app. cbn [map TileApp.id]. apply NoDup_snoc; [assumption |].
    intros Hin. apply in_map_iff in Hin. destruct Hin as (t & Et & Ht).
    rewrite Forall_forall in Hall. destruct (Hall t Ht) as (n & Hn & En).
    fold (tileId (c + 1)) in Et. rewrite En in Et.
    apply tileId_inj in Et. lia.
  - apply Forall_app. split.
    + revert Hall. apply Forall_impl. intros t (n & Hn & E).
      exists n. split; [lia | assumption].
    + constructor; [| constructor]. exists (c + 1).
      split; [lia | reflexivity].
Qed.

(** X20.  The ids of the tiles stay distinct.  When the ids of the tiles are
    distinct and none was generated beyond the id counter, the same holds
    after the slide of [move] and after a whole turn, accepted or not; the
    counter never decreases. *)
Theorem X20_tile_ids_stay_distinct
        (st : TileApp.State) (d : Direction) (r1 r2 : Q) :
  freshIds (TileApp.tiles st) (TileApp.tileIdCounter st) ->
  (let s := TileApp.slide (TileApp.tiles st) d (TileApp.tileIdCounter st) in
   freshIds (TileApp.newTiles s) (TileApp.counter s)
   /\ TileApp.tileIdCounter st <= TileApp.counter s)
  /\ freshIds (TileApp.tiles (playTurn st d r1 r2))
              (TileApp.tileIdCounter (playTurn st d r1 r2))
  /\ TileApp.tileIdCounter st <= TileApp.tileIdCounter (playTurn st d r1 r2).
Proof.
  intros Hf. cbv zeta.
  destruct (slide_ids _ d _ Hf) as [Hc Hs].
  split; [split; assumption |].
  unfold playTurn, TileApp.move.
  destruct (TileApp.gameOver st || TileApp.isAnimating st);
    [split; [assumption | lia] |].
  destruct (TileApp.moved _); cbn [negb].
  - unfold TileApp.finishMove.
    cbn [TileApp.pendingTiles TileApp.tileIdCounter].
    destruct (addRandomTile_ids _ _ r1 r2 Hs) as [Hc' Hs'].
    destruct (TileApp.addRandomTile _ _ r1 r2) as [finalTiles counter'].
    cbn [fst snd TileApp.tiles TileApp.tileIdCounter] in *.
    split; [now apply freshIds_clearFlags | lia].
  - cbn [TileApp.tiles TileApp.tileIdCounter].
    split; [now apply (freshIds_mono _ (TileApp.tileIdCounter st)) | lia].
Qed.

Ltac known_id :=
  first [ exists 1; split; [lia | reflexivity]
        | exists 2; split; [lia | reflexivity]
        | exists 3; split; [lia | reflexivity]
        | exists 4; split; [lia | reflexivity]
        | exists 5; split; [lia | reflexivity]
        | exists 6; split; [lia | reflexivity]
        | exists 7; split; [lia | reflexivity] ].

Lemma exampleTiles_ids : freshIds exampleTiles 9.
Proof.
  split.
  - vm_compute.
    repeat (apply NoDup_cons; [cbn; intuition discriminate |]).
    apply NoDup_nil.
  - unfold exampleTiles.
    repeat (apply Forall_cons; [known_id |]). apply Forall_nil.
Defined.

Lemma X20_witness :
  let st := TileApp.mkState exampleTiles 0 0 false false false 9 None in
  freshIds (TileApp.tiles st) (TileApp.tileIdCounter st)
  /\ freshIds (TileApp.tiles (playTurn st Left (1 # 2) (1 # 3)))
              (TileApp.tileIdCounter (playTurn st Left (1 # 2) (1 # 3))).
Proof.
  cbv zeta. split; [exact exampleTiles_ids |].
  exact (proj1 (proj2 (X20_tile_ids_stay_distinct
                         (TileApp.mkState exampleTiles 0 0 false false false
                                          9 None)
                         Left (1 # 2) (1 # 3) exampleTiles_ids))).
Defined.

(** ** Where the two [moved] flags agree *)

Lemma lineLoop_moved_inv (isH : bool) (i : nat) (step : Z)
      (line : list TileApp.Tile) :
  forall (pos : Z) (s : TileApp.LineState),
    mergeCount (map TileApp.value line) = O ->
    TileApp.lineMoved (TileApp.lineLoop isH i step line pos s) = false ->
    TileApp.lineMoved s = false /\ inPlace isH i step pos line.
Proof.
  induction line as [| t rest IH]; intros pos s Hno Hm;
    [split; [exact Hm | exact I] |].
  cbn [map] in Hno. apply mergeCount_zero_tail in Hno.
  destruct Hno as [Hno Hhead].
  assert (Hpush : TileApp.lineMoved (TileApp.pushMoved isH i pos t s) = false
                  -> TileApp.lineMoved s = false
                     /\ tilePos t = slot isH i pos).
  { unfold TileApp.pushMoved, tilePos, slot.
    cbn [TileApp.lineMoved TileApp.row TileApp.col].
    destruct (TileApp.row t =? (if isH then Z.of_nat i else pos)) eqn:E1;
      [| discriminate].
    destruct (TileApp.col t =? (if isH then pos else Z.of_nat i)) eqn:E2;
      [| discriminate].
    cbn [negb orb]. intros ->. apply Z.eqb_eq in E1, E2.
    split; [reflexivity | congruence]. }
  destruct rest as [| t' rest'].
  - rewrite lineLoop_one in Hm. destruct (Hpush Hm) as [Hs Hp].
    split; [assumption |]. cbn [inPlace]. split; [assumption | exact I].
  - cbn [map] in Hhead. rewrite lineLoop_move in Hm by assumption.
    destruct (IH _ _ Hno Hm) as [Hs' Hin].
    destruct (Hpush Hs') as [Hs Hp].
    split; [assumption |]. cbn [inPlace] in *. split; assumption.
Qed.

Lemma stepLine_moved_inv (isH reverse : bool) (cur : list TileApp.Tile)
      (s : TileApp.Locals) (i : nat) :
  mergeCount (map TileApp.value (sortedLine isH reverse cur i)) = O ->
  TileApp.moved (TileApp.stepLine isH reverse cur s i) = false ->
  TileApp.moved s = false
  /\ inPlace isH i (stepOf reverse) (startPos reverse)
             (sortedLine isH reverse cur i).
Proof.
  unfold TileApp.stepLine, sortedLine, stepOf, startPos.
  set (line := filter _ cur).
  intros Hno Hm.
  destruct (length line =? 0)%nat eqn:Hlen.
  - apply Nat.eqb_eq in Hlen. rewrite sortBy_of_empty by assumption.
    split; [exact Hm | exact I].
  - cbn [TileApp.moved] in Hm.
    apply lineLoop_moved_inv in Hm; [| assumption].
    exact Hm.
Qed.

Lemma fold_stepLine_moved_inv (isH reverse : bool)
      (cur : list TileApp.Tile) (idx : list nat) :
  (forall i, In i idx ->
     mergeCount (map TileApp.value (sortedLine isH reverse cur i)) = O) ->
  forall s,
    TileApp.moved (fold_left (TileApp.stepLine isH reverse cur) idx s)
    = false ->
    TileApp.moved s = false
    /\ forall i, In i idx ->
         inPlace isH i (stepOf reverse) (startPos reverse)
                 (sortedLine isH reverse cur i).
Proof.
  induction idx as [| i idx IH]; intros Hno s Hm;
    [split; [exact Hm | intros i []] |].
  cbn [fold_left] in Hm.
  destruct (IH (fun j Hj => Hno j (or_intror Hj)) _ Hm) as [Hs1 Hrest].
  destruct (stepLine_moved_inv isH reverse cur s i
              (Hno i (or_introl eq_refl)) Hs1) as [Hs Hi].
  split; [assumption |]. intros j [<- | Hj]; [assumption | now apply Hrest].
Qed.

Lemma inPlace_at (isH : bool) (i : nat) (step : Z) (dflt : TileApp.Tile)
      (line : list TileApp.Tile) :
  forall pos m,
    inPlace isH i step pos line -> (m < length line)%nat ->
    tilePos (nth m line dflt) = slot isH i (pos + Z.of_nat m * step).
Proof.
  induction line as [| t rest IH]; intros pos m Hin Hm;
    [simpl in Hm; lia |].
  destruct Hin as [Hp Hin]. destruct m as [| m].
  - cbn [nth]. rewrite Hp. f_equal. lia.
  - cbn [nth]. rewrite (IH (pos + step) m Hin) by (simpl in Hm; lia).
    f_equal. lia.
Qed.

Lemma still_line_fixed (d : Direction) (tl : list TileApp.Tile) (i : nat) :
  validTiles tl -> (i < GRID_SIZE)%nat ->
  let L := sortedLine (isHorizontalOf d) (reverseOf d)
                      (map TileApp.clearFlags tl) i in
  mergeCount (map TileApp.value L) = O ->
  inPlace (isHorizontalOf d) i (stepOf (reverseOf d))
          (startPos (reverseOf d)) L ->
  slideRow (nth i (lines d (TileApp.tilesToGrid tl)) [])
  = nth i (lines d (TileApp.tilesToGrid tl)) [].
Proof.
  intros Hv Hi L Hno Hin.
  pose proof (lineValues_cells d tl i Hv Hi) as Hvals.
  unfold lineValues in Hvals. fold L in Hvals.
  pose proof Hv as [Hnd Hall]. rewrite Forall_forall in Hall.
  pose proof (tilesToGrid_board tl) as Hb.
  assert (Hl : length (nth i (lines d (TileApp.tilesToGrid tl)) [])
               = GRID_SIZE)
    by (apply board_row_length; [now apply lines_board | assumption]).
  assert (HL : forall t, In t L ->
             exists t0, In t0 tl /\ t = TileApp.clearFlags t0
               /\ (if isHorizontalOf d then TileApp.row t0 else TileApp.col t0)
                  = Z.of_nat i)
    by (intros t Ht; now apply sortedLine_In in Ht).
  set (dflt := TileApp.mkTile "" 0 0 0 None None).
  (* the rank of the tile at index [m] of the scanned line is [m] *)
  assert (Hrank : forall m, (m < length L)%nat ->
            exists t0, In t0 tl /\ nth m L dflt = TileApp.clearFlags t0
                       /\ (if isHorizontalOf d
                           then TileApp.row t0 else TileApp.col t0)
                          = Z.of_nat i
                       /\ tileKey d t0 = m /\ (m < GRID_SIZE)%nat).
  { intros m Hm.
    destruct (HL (nth m L dflt) (nth_In _ _ Hm)) as (t0 & Ht0 & Et & Hline).
    exists t0. split; [assumption |]. split; [assumption |].
    split; [assumption |].
    pose proof (inPlace_at _ _ _ dflt _ _ m Hin Hm) as Hp.
    rewrite Et in Hp.
    change (tilePos (TileApp.clearFlags t0)) with (tilePos t0) in Hp.
    destruct (Hall t0 Ht0) as [Hg _]. pose proof Hg as Hbd.
    apply inGrid_bounds in Hbd.
    destruct (cellAt_tileKey d i t0 Hg Hline) as [_ Hk4].
    assert (Hm4 : (m < GRID_SIZE)%nat).
    { pose proof (compact_length
                    (nth i (lines d (TileApp.tilesToGrid tl)) [])) as Hc.
      rewrite <- Hvals, length_map in Hc. lia. }
    split; [| assumption].
    unfold tilePos in Hp. symmetry in Hp.
    rewrite <- (Z2Nat.id (TileApp.row t0)), <- (Z2Nat.id (TileApp.col t0))
      in Hp by lia.
    apply slot_cell in Hp; try assumption; try (unfold GRID_SIZE; lia).
    destruct Hp as [_ Hp]. exact Hp. }
  (* the line is its tiles followed by empty cells *)
  assert (Epad : GridApp.pad
                   (compact (nth i (lines d (TileApp.tilesToGrid tl)) []))
                 = nth i (lines d (TileApp.tilesToGrid tl)) []).
  { apply (nth_ext _ _ 0 0).
    - rewrite pad_length, Hl; [reflexivity |].
      rewrite <- Hl. apply compact_length.
    - intros k Hk. rewrite pad_length in Hk
        by (rewrite <- Hl; apply compact_length).
      rewrite nth_pad, <- Hvals.
      rewrite lines_nth by assumption.
      rewrite (map_nth_in _ _ _ O 0) by (rewrite length_seq; exact Hk).
      rewrite seq_nth by exact Hk. cbn [Nat.add].
      destruct (cellAt_bounds d i k Hi Hk) as [Br Bc].
      destruct (Nat.lt_ge_cases k (length L)) as [Hlt | Hge].
      + destruct (Hrank k Hlt) as (t0 & Ht0 & Et & Hline & Hkey & _).
        rewrite (map_nth_in TileApp.value L k dflt 0) by exact Hlt.
        rewrite Et. cbn [TileApp.clearFlags TileApp.value].
        destruct (Hall t0 Ht0) as [Hg _].
        destruct (cellAt_tileKey d i t0 Hg Hline) as [Ec _].
        rewrite Hkey in Ec. rewrite Ec. cbn [fst snd].
        symmetry. now apply tilesToGrid_cell_in.
      + rewrite nth_overflow by (rewrite length_map; exact Hge).
        destruct (Z.eq_dec (cell (TileApp.tilesToGrid tl)
                                 (fst (cellAt d i k)) (snd (cellAt d i k))) 0)
          as [E | E]; [now rewrite E | exfalso].
        destruct (tilesToGrid_cell_tile tl _ _ Br Bc E) as (t0 & Ht0 & Ep).
        destruct (tilePos_cellAt d i k t0 Hi Hk Ep) as [Hline Hkey].
        assert (HinL : In (TileApp.clearFlags t0) L)
          by (apply sortedLine_In; now exists t0).
        destruct (In_nth _ _ dflt HinL) as (m & Hm & Em).
        destruct (Hrank m Hm) as (t1 & Ht1 & Et1 & _ & Hkey1 & _).
        assert (Epos : tilePos t1 = tilePos t0).
        { change (tilePos t1) with (tilePos (TileApp.clearFlags t1)).
          rewrite <- Et1, Em. reflexivity. }
        assert (t1 = t0)
          by (apply (NoDup_map_eq tilePos tl); assumption).
        subst t1. lia. }
  rewrite slideRow_eq.
  rewrite <- Hvals in *. destruct (mergeCount_zero _ Hno) as [E _].
  rewrite E. exact Epad.
Qed.

Lemma tilesToGrid_closed (P : Z -> Prop) (tl : list TileApp.Tile) :
  P 0 -> Forall (fun t => P (TileApp.value t)) tl ->
  allCells P (TileApp.tilesToGrid tl).
Proof.
  intros H0. induction tl as [| t tl IH] using rev_ind; intros Hall.
  - unfold allCells. apply Forall_forall. intros row Hrow.
    apply repeat_spec in Hrow. subst row. apply Forall_forall.
    intros v Hv. apply repeat_spec in Hv. now subst v.
  - apply Forall_app in Hall. destruct Hall as [Hall Ht].
    inversion Ht as [| ? ? Hv _]; subst.
    rewrite tilesToGrid_snoc. unfold placeV, vrc.
    destruct (TileApp.inGrid _ _); [| now apply IH].
    apply set_cell_closed; [assumption | now apply IH].
Qed.

Lemma no_points_no_merge (ls : list (list Z)) :
  Forall (Forall (fun v => 0 <= v)) ls ->
  sumZ (map slidePoints ls) = 0 ->
  forall l, In l ls -> mergeCount (compact l) = O.
Proof.
  induction 1 as [| l ls Hl Hls IH]; intros Hsum l' Hin; [destruct Hin |].
  cbn [map] in Hsum. rewrite sumZ_cons in Hsum.
  pose proof (slidePoints_nonneg l Hl) as H1.
  destruct (lines_points_count ls Hls) as [H2 _].
  destruct Hin as [<- | Hin].
  - apply slidePoints_zero_iff; [assumption | lia].
  - apply IH; [lia | assumption].
Qed.

(** X21.  The two [moved] flags can differ only on a slide that merges: on
    tiles with positive values on distinct cells, when the slide of the tile
    version counts no points, it reports [moved] exactly when the grid
    version does, that is, exactly when the board changes. *)
Theorem X21_moved_flags_agree_without_merge
        (tl : list TileApp.Tile) (d : Direction) (c0 : Z) :
  validTiles tl ->
  Forall (fun t => 0 < TileApp.value t) tl ->
  TileApp.totalPoints (TileApp.slide tl d c0) = 0 ->
  TileApp.moved (TileApp.slide tl d c0)
  = GridApp.moved (GridApp.slide (TileApp.tilesToGrid tl) d)
  /\ (TileApp.moved (TileApp.slide tl d c0) = false
      <-> TileApp.tilesToGrid (TileApp.newTiles (TileApp.slide tl d c0))
          = TileApp.tilesToGrid tl).
Proof.
  intros Hv Hpos Hpts.
  pose proof (tilesToGrid_board tl) as Hb.
  destruct (tile_slide_grid tl d c0 Hv) as [Eg Ep].
  assert (Hagree : TileApp.moved (TileApp.slide tl d c0)
                   = GridApp.moved (GridApp.slide (TileApp.tilesToGrid tl) d)).
  { destruct (TileApp.moved (TileApp.slide tl d c0)) eqn:Hm.
    - symmetry. now apply (tile_moved_grid_moved tl d c0).
    - symmetry. apply slide_not_moved; [assumption |].
      apply map_fixed_board; [now apply lines_board |].
      intros i Hi.
      assert (Hnn : allCells (fun v => 0 <= v) (TileApp.tilesToGrid tl)).
      { apply tilesToGrid_closed; [lia |].
        revert Hpos. apply Forall_impl. intros t Ht. lia. }
      assert (Hno : forall j, (j < GRID_SIZE)%nat ->
                mergeCount (map TileApp.value
                              (sortedLine (isHorizontalOf d) (reverseOf d)
                                          (map TileApp.clearFlags tl) j)) = O).
      { intros j Hj.
        change (map TileApp.value (sortedLine _ _ _ j))
          with (lineValues (isHorizontalOf d) (reverseOf d)
                           (map TileApp.clearFlags tl) j).
        rewrite lineValues_cells by assumption.
        apply (no_points_no_merge (lines d (TileApp.tilesToGrid tl))).
        - now apply allCells_lines.
        - rewrite Ep, slide_lines in Hpts by assumption. exact Hpts.
        - apply nth_In. destruct (lines_board d _ Hb) as [-> _]. exact Hj. }
      rewrite tile_slide_unfold in Hm.
      apply fold_stepLine_moved_inv in Hm.
      + destruct Hm as [_ Hin].
        apply (still_line_fixed d tl i Hv Hi); [now apply Hno |].
        apply Hin, in_seq. unfold GRID_SIZE in *. lia.
      + intros j Hj. apply in_seq in Hj. apply Hno. lia. }
  split; [exact Hagree |].
  rewrite Hagree, Eg. now apply grid_moved_false_iff.
Qed.

Lemma farTwos_valid : validTiles (TileApp.tiles farTwosState).
Proof. concrete_valid. Defined.

Lemma X21_witness :
  validTiles (TileApp.tiles farTwosState)
  /\ Forall (fun t => 0 < TileApp.value t) (TileApp.tiles farTwosState)
  /\ TileApp.totalPoints (TileApp.slide (TileApp.tiles farTwosState) Down 2)
     = 0
  /\ TileApp.moved (TileApp.slide (TileApp.tiles farTwosState) Down 2)
     = GridApp.moved
         (GridApp.slide (TileApp.tilesToGrid (TileApp.tiles farTwosState))
                        Down).
Proof.
  assert (Hpos : Forall (fun t => 0 < TileApp.value t)
                        (TileApp.tiles farTwosState))
    by (vm_compute; repeat constructor).
  assert (Hpts : TileApp.totalPoints
                   (TileApp.slide (TileApp.tiles farTwosState) Down 2) = 0)
    by reflexivity.
  split; [exact farTwos_valid |]. split; [exact Hpos |].
  split; [exact Hpts |].
  exact (proj1 (X21_moved_flags_agree_without_merge
                  (TileApp.tiles farTwosState) Down 2
                  farTwos_valid Hpos Hpts)).
Defined.

(** ** The cell of the new tile *)

Lemma slideRow_four_gap (a b c d : Z) :
  slideRow [a; b; c; d] = [a; b; c; d] \/ In 0 (slideRow [a; b; c; d]).
Proof.
  rewrite slideRow_eq. unfold compact. cbn [filter]. unfold nonzero.
  destruct (Z.eqb_spec a 0), (Z.eqb_spec b 0),
           (Z.eqb_spec c 0), (Z.eqb_spec d 0);
    cbn [negb mergeLine];
    repeat match goal with
           | |- context [?x =? ?y] => destruct (Z.eqb_spec x y)
           end;
    cbn [GridApp.pad app repeat length Nat.sub GRID_SIZE];
    first [ left; reflexivity | right; cbn [In]; auto 10 ].
Qed.

Lemma slideRow_gap (l : list Z) :
  length l = GRID_SIZE ->
  slideRow l = l
  \/ exists k, (k < GRID_SIZE)%nat /\ nth k (slideRow l) 0 = 0.
Proof.
  intros Hlen.
  pose proof (slideRow_length l ltac:(lia)) as Hlen'.
  destruct l as [| a [| b [| c [| d [| e l]]]]]; try discriminate.
  destruct (slideRow_four_gap a b c d) as [E | Hin]; [now left | right].
  destruct (In_nth _ _ 0 Hin) as (k & Hk & Ek).
  exists k. split; [now rewrite <- Hlen' | exact Ek].
Qed.

Lemma moved_leaves_gap (g : Grid) (d : Direction) :
  is_board g ->
  GridApp.moved (GridApp.slide g d) = true ->
  hasEmptyCell (GridApp.newGrid (GridApp.slide g d)).
Proof.
  intros Hb Hm.
  assert (Hgap : forall i, (i < GRID_SIZE)%nat ->
            slideRow (nth i (lines d g) []) = nth i (lines d g) []
            \/ hasEmptyCell (GridApp.newGrid (GridApp.slide g d))).
  { intros i Hi.
    destruct (slideRow_gap (nth i (lines d g) [])) as [E | (k & Hk & Ek)].
    - apply board_row_length; [now apply lines_board | assumption].
    - now left.
    - right. rewrite <- (slid_line_cell g d i k Hb Hi Hk) in Ek.
      destruct (cellAt_bounds d i k Hi Hk) as [Br Bc].
      exists (fst (cellAt d i k)), (snd (cellAt d i k)). auto. }
  destruct (Hgap 0%nat ltac:(unfold GRID_SIZE; lia)) as [E0 | ?];
    [| assumption].
  destruct (Hgap 1%nat ltac:(unfold GRID_SIZE; lia)) as [E1 | ?];
    [| assumption].
  destruct (Hgap 2%nat ltac:(unfold GRID_SIZE; lia)) as [E2 | ?];
    [| assumption].
  destruct (Hgap 3%nat ltac:(unfold GRID_SIZE; lia)) as [E3 | ?];
    [| assumption].
  exfalso.
  assert (Hfalse : GridApp.moved (GridApp.slide g d) = false).
  { apply slide_not_moved; [assumption |].
    apply map_fixed_board; [now apply lines_board |].
    intros i Hi. small_index i; assumption. }
  congruence.
Qed.

(** X22.  An accepted move of the grid version always spawns a tile: the
    slide that has changed the board leaves an empty cell, so [addRandomTile]
    puts a 2 or a 4 on one empty cell and leaves the other cells alone. *)
Theorem X22_accepted_move_always_spawns
        (st : GridApp.State) (d : Direction) (r1 r2 : Q) :
  is_board (GridApp.grid st) ->
  unit_interval r1 ->
  snd (GridApp.move st d r1 r2) = true ->
  hasEmptyCell (GridApp.newGrid (GridApp.slide (GridApp.grid st) d))
  /\ spawnedOne (GridApp.newGrid (GridApp.slide (GridApp.grid st) d))
                (GridApp.grid (fst (GridApp.move st d r1 r2))).
Proof.
  intros Hb Hr. unfold GridApp.move.
  destruct (GridApp.gameOver st); [discriminate |].
  destruct (GridApp.moved (GridApp.slide (GridApp.grid st) d)) eqn:Hm;
    [| discriminate].
  intros _. cbn [fst GridApp.grid].
  pose proof (moved_leaves_gap _ d Hb Hm) as Hgap.
  split; [assumption |].
  apply grid_spawn_one; try assumption. now apply slide_board.
Qed.

Lemma X22_witness :
  let st := GridApp.mkState exampleBoard 0 0 false false None in
  is_board (GridApp.grid st) /\ unit_interval (1 # 2)
  /\ snd (GridApp.move st Up (1 # 2) (1 # 3)) = true
  /\ hasEmptyCell (GridApp.newGrid (GridApp.slide (GridApp.grid st) Up)).
Proof.
  cbv zeta.
  assert (Hs : snd (GridApp.move
                      (GridApp.mkState exampleBoard 0 0 false false None)
                      Up (1 # 2) (1 # 3)) = true) by reflexivity.
  split; [exact exampleBoard_board |].
  split; [exact half_in_unit_interval |].
  split; [exact Hs |].
  exact (proj1 (X22_accepted_move_always_spawns
                  (GridApp.mkState exampleBoard 0 0 false false None)
                  Up (1 # 2) (1 # 3)
                  exampleBoard_board half_in_unit_interval Hs)).
Defined.

(** ** Sliding twice *)

Lemma slideRow_twice (l : list Z) :
  mergeCount (compact l) = O -> slideRow (slideRow l) = slideRow l.
Proof.
  intros Hno. destruct (mergeCount_zero _ Hno) as [E _].
  rewrite (slideRow_eq l), E.
  rewrite slideRow_eq, compact_pad by apply compact_nonzero.
  now rewrite E.
Qed.

(** X23.  A slide without merge settles the board: on a board without
    negative cells, when a slide counts no points, a second slide in the
    same direction changes nothing and reports [moved = false]. *)
Theorem X23_slide_without_merge_settles (g : Grid) (d : Direction) :
  is_board g ->
  allCells (fun v => 0 <= v) g ->
  GridApp.totalScore (GridApp.slide g d) = 0 ->
  let g' := GridApp.newGrid (GridApp.slide g d) in
  GridApp.moved (GridApp.slide g' d) = false
  /\ GridApp.newGrid (GridApp.slide g' d) = g'.
Proof.
  intros Hb HP Hpts. cbv zeta.
  assert (Hm : GridApp.moved
                 (GridApp.slide (GridApp.newGrid (GridApp.slide g d)) d)
               = false).
  { apply slide_not_moved; [now apply slide_board |].
    rewrite slide_lines in Hpts |- * by assumption.
    cbn [GridApp.newGrid GridApp.totalScore] in Hpts |- *.
    rewrite lines_unlines by now apply slideRow_board, lines_board.
    rewrite map_map. apply map_ext_in. intros l Hl.
    apply slideRow_twice.
    apply (no_points_no_merge (lines d g)); try assumption.
    now apply allCells_lines. }
  split; [exact Hm |].
  apply grid_moved_false_iff; [now apply slide_board | exact Hm].
Qed.

Lemma X23_witness :
  is_board checkerboard /\ allCells (fun v => 0 <= v) checkerboard
  /\ GridApp.totalScore (GridApp.slide checkerboard Left) = 0
  /\ GridApp.moved
       (GridApp.slide (GridApp.newGrid (GridApp.slide checkerboard Left))
                      Left) = false.
Proof.
  assert (Hb : is_board checkerboard) by concrete_board.
  assert (HP : allCells (fun v => 0 <= v) checkerboard).
  { unfold allCells, checkerboard.
    repeat (apply Forall_cons || apply Forall_nil); lia. }
  assert (Hpts : GridApp.totalScore (GridApp.slide checkerboard Left) = 0)
    by reflexivity.
  split; [exact Hb |]. split; [exact HP |]. split; [exact Hpts |].
  exact (proj1 (X23_slide_without_merge_settles checkerboard Left
                  Hb HP Hpts)).
Defined.

(** ** The first tile of 2048 *)

Lemma mergeLine_step (P Q : Z -> Prop) (arr : list Z) :
  (forall v, P v -> Q v) -> (forall v, P v -> Q (v * 2)) ->
  Forall P arr -> Forall Q (mergeLine arr).
Proof.
  intros Hkeep Hdbl. merge_scan arr; intros HP.
  - constructor.
  - inversion HP; subst. cbn [mergeLine]. constructor; auto.
  - inversion HP as [| ? ? Ha HP']; subst. inversion HP'; subst.
    constructor; auto.
  - inversion HP; subst. constructor; auto.
Qed.

Lemma slide_step (P Q : Z -> Prop) (g : Grid) (d : Direction) :
  Q 0 -> (forall v, P v -> Q v) -> (forall v, P v -> Q (v * 2)) ->
  is_board g -> allCells P g ->
  allCells Q (GridApp.newGrid (GridApp.slide g d)).
Proof.
  intros H0 Hkeep Hdbl Hb HP. rewrite slide_lines by assumption.
  cbn [GridApp.newGrid].
  apply allCells_unlines; [now apply slideRow_board, lines_board |].
  unfold allCells. apply Forall_map.
  pose proof (allCells_lines P d g Hb HP) as HL. unfold allCells in HL.
  eapply Forall_impl; [| exact HL].
  intros l Hl. rewrite slideRow_eq. unfold GridApp.pad.
  apply Forall_app. split.
  - apply (mergeLine_step P Q); try assumption.
    unfold compact. rewrite Forall_forall in *. intros v Hv.
    apply filter_In in Hv. now apply Hl.
  - apply Forall_forall. intros v Hv. apply repeat_spec in Hv. now subst.
Qed.

Lemma allCells_cell (P : Z -> Prop) (g : Grid) (i j : nat) :
  is_board g -> allCells P g ->
  (i < GRID_SIZE)%nat -> (j < GRID_SIZE)%nat -> P (cell g i j).
Proof.
  intros Hb HP Hi Hj. unfold allCells, cell in *.
  pose proof (board_row_length g i Hb Hi) as Hrow.
  destruct Hb as [Hlen _]. rewrite Forall_forall in HP.
  assert (Hin : In (nth i g []) g) by (apply nth_In; lia).
  specialize (HP _ Hin). rewrite Forall_forall in HP.
  apply HP, nth_In. lia.
Qed.

Lemma tiles_of_board_closed (P : Z -> Prop) (tl : list TileApp.Tile) :
  validTiles tl -> allCells P (TileApp.tilesToGrid tl) ->
  Forall (fun t => P (TileApp.value t)) tl.
Proof.
  intros Hv HP. apply Forall_forall. intros t Ht.
  rewrite <- (tilesToGrid_cell_in tl t Hv Ht).
  destruct Hv as [_ Hall]. rewrite Forall_forall in Hall.
  destruct (Hall t Ht) as [Hg _]. apply inGrid_bounds in Hg.
  apply allCells_cell; try assumption;
    [apply tilesToGrid_board | unfold GRID_SIZE; lia
     | unfold GRID_SIZE; lia].
Qed.

Lemma below_2048 (v : Z) :
  isTileValue v -> v <= 2048 -> v <> 2048 -> v <= 1024.
Proof.
  intros [-> | (k & Hk & ->)] Hle Hne; [lia |].
  destruct (Z_lt_le_dec k 11) as [Hlt | Hge].
  - change 1024 with (2 ^ 10). apply Z.pow_le_mono_r; lia.
  - exfalso. apply Hne.
    assert (2 ^ 11 <= 2 ^ k) by (apply Z.pow_le_mono_r; lia).
    change (2 ^ 11) with 2048 in *. lia.
Qed.

(** X24.  The win test of the tile version never misses: while the game is
    not won no tile exceeds 1024, a turn brings no tile beyond 2048, and the
    turn that brings a tile of 2048 sets [won]; so no larger tile appears
    before [won] is set. *)
Theorem X24_no_tile_exceeds_1024_before_winning
        (st : TileApp.State) (d : Direction) (r1 r2 : Q) :
  validTiles (TileApp.tiles st) ->
  (TileApp.won st = false -> tilesWithin 1024 (TileApp.tiles st)) ->
  (TileApp.won st = false ->
   tilesWithin 2048 (TileApp.tiles (playTurn st d r1 r2)))
  /\ (TileApp.won (playTurn st d r1 r2) = false ->
      tilesWithin 1024 (TileApp.tiles (playTurn st d r1 r2))).
Proof.
  intros Hv Hinv.
  assert (Hwide : forall tl, tilesWithin 1024 tl -> tilesWithin 2048 tl).
  { intros tl. apply Forall_impl. intros t [H1 H2]. split; [assumption | lia]. }
  assert (Hidle :
    TileApp.tiles (playTurn st d r1 r2) = TileApp.tiles st ->
    TileApp.won (playTurn st d r1 r2) = TileApp.won st ->
    (TileApp.won st = false ->
     tilesWithin 2048 (TileApp.tiles (playTurn st d r1 r2)))
    /\ (TileApp.won (playTurn st d r1 r2) = false ->
        tilesWithin 1024 (TileApp.tiles (playTurn st d r1 r2)))).
  { intros -> ->. split; auto. }
  destruct (TileApp.gameOver st) eqn:Hover.
  { destruct (playTurn_idle st d r1 r2 (or_introl Hover))
      as (Et & _ & _ & _ & Ew & _). now apply Hidle. }
  destruct (TileApp.isAnimating st) eqn:Hanim.
  { destruct (playTurn_idle st d r1 r2 (or_intror (or_introl Hanim)))
      as (Et & _ & _ & _ & Ew & _). now apply Hidle. }
  destruct (TileApp.moved (TileApp.slide (TileApp.tiles st) d
                                         (TileApp.tileIdCounter st))) eqn:Hm.
  2:{ destruct (playTurn_idle st d r1 r2 (or_intror (or_intror Hm)))
        as (Et & _ & _ & _ & Ew & _). now apply Hidle. }
  rewrite (playTurn_unfold st d r1 r2 Hover Hanim Hm).
  cbn [TileApp.tiles TileApp.won].
  set (s := TileApp.slide (TileApp.tiles st) d (TileApp.tileIdCounter st)).
  set (final := fst (TileApp.addRandomTile (TileApp.newTiles s)
                                           (TileApp.counter s) r1 r2)).
  assert (Hfinal : TileApp.won st = false -> tilesWithin 2048 final).
  { intros Hw. specialize (Hinv Hw).
    assert (Hvs : validTiles (TileApp.newTiles s)) by now apply slide_valid.
    assert (Hvf : validTiles final) by now apply tile_addRandomTile_valid.
    apply (tiles_of_board_closed
             (fun v => isTileValue v /\ v <= 2048)); [assumption |].
    unfold final. rewrite tile_addRandomTile_grid.
    apply grid_addRandomTile_closed;
      [split; [apply isTileValue_2 | lia]
      | split; [apply isTileValue_4 | lia] |].
    destruct (tile_slide_grid (TileApp.tiles st) d (TileApp.tileIdCounter st)
                Hv) as [Hg _].
    fold s in Hg. rewrite Hg.
    apply (slide_step (fun v => isTileValue v /\ v <= 1024)).
    - split; [now left | lia].
    - intros v [H1 H2]. split; [assumption | lia].
    - intros v [H1 H2]. split; [now apply isTileValue_double | lia].
    - apply tilesToGrid_board.
    - apply tilesToGrid_closed; [split; [now left | lia] | exact Hinv]. }
  split.
  - intros Hw. unfold tilesWithin. rewrite Forall_map. now apply Hfinal.
  - destruct (TileApp.won st) eqn:Hw.
    + destruct (TileApp.hasTile2048 final && negb true); discriminate.
    + cbn [negb]. rewrite andb_true_r.
      destruct (TileApp.hasTile2048 final) eqn:H48; [discriminate |].
      intros _. unfold tilesWithin. rewrite Forall_map.
      specialize (Hfinal eq_refl). unfold tilesWithin in Hfinal.
      rewrite Forall_forall in *. intros t Ht.
      destruct (Hfinal t Ht) as [H1 H2].
      cbn [TileApp.clearFlags TileApp.value]. split; [assumption |].
      apply below_2048; try assumption.
      intros E. assert (TileApp.hasTile2048 final = true)
        by (apply hasTile2048_In; now exists t).
      congruence.
Qed.

Lemma exampleTiles_within : tilesWithin 1024 exampleTiles.
Proof.
  unfold tilesWithin, exampleTiles.
  repeat (apply Forall_cons
          || apply Forall_nil);
    (split; [first [apply isTileValue_2 | apply isTileValue_4] | cbn; lia]).
Defined.

Lemma X24_witness :
  let st := TileApp.mkState exampleTiles 0 0 false false false 9 None in
  validTiles (TileApp.tiles st)
  /\ (TileApp.won st = false -> tilesWithin 1024 (TileApp.tiles st))
  /\ (TileApp.won (playTurn st Left (1 # 2) (1 # 3)) = false ->
      tilesWithin 1024 (TileApp.tiles (playTurn st Left (1 # 2) (1 # 3)))).
Proof.
  cbv zeta. split; [exact exampleTiles_valid |].
  split; [exact (fun _ => exampleTiles_within) |].
  exact (proj2 (X24_no_tile_exceeds_1024_before_winning
                  (TileApp.mkState exampleTiles 0 0 false false false 9 None)
                  Left (1 # 2) (1 # 3)
                  exampleTiles_valid (fun _ => exampleTiles_within))).
Defined.

(** ** The tiles that come out of a slide *)

Lemma mergedTile_mono (tl : list TileApp.Tile) (c0 c c' : Z)
      (t : TileApp.Tile) :
  c <= c' -> mergedTile tl c0 c t -> mergedTile tl c0 c' t.
Proof.
  intros Hc (t0 & n & H0 & Hn & H). exists t0, n.
  split; [assumption |]. split; [lia | assumption].
Qed.

Section SlideTiles.

Variables (isH : bool) (i : nat) (step : Z) (tl : list TileApp.Tile)
          (c0 : Z).

Lemma pushMoved_tiles (pos : Z) (t0 : TileApp.Tile)
      (s : TileApp.LineState) (t : TileApp.Tile) :
  In t0 tl ->
  In t (TileApp.processedLine
          (TileApp.pushMoved isH i pos (TileApp.clearFlags t0) s)) ->
  In t (TileApp.processedLine s) \/ keptTile tl t.
Proof.
  intros H0. unfold TileApp.pushMoved. cbn [TileApp.processedLine].
  intros Hin. apply in_app_iff in Hin.
  destruct Hin as [Hin | [<- | []]]; [now left | right].
  exists t0. repeat split; assumption || reflexivity.
Qed.

Lemma pushMerged_tiles (pos : Z) (t0 : TileApp.Tile)
      (s : TileApp.LineState) (t : TileApp.Tile) :
  In t0 tl -> c0 <= TileApp.lineCounter s ->
  In t (TileApp.processedLine
          (TileApp.pushMerged isH i pos (TileApp.clearFlags t0) s)) ->
  In t (TileApp.processedLine s)
  \/ mergedTile tl c0 (TileApp.lineCounter s + 1) t.
Proof.
  intros H0 Hc. unfold TileApp.pushMerged, TileApp.generateId.
  cbn [TileApp.processedLine]. intros Hin. apply in_app_iff in Hin.
  destruct Hin as [Hin | [<- | []]]; [now left | right].
  exists t0, (TileApp.lineCounter s + 1).
  split; [assumption |]. split; [lia |]. repeat split.
Qed.

Lemma lineLoop_tiles (n : nat) :
  forall (line : list TileApp.Tile) (pos : Z) (s : TileApp.LineState),
    (length line <= n)%nat ->
    c0 <= TileApp.lineCounter s ->
    (forall t, In t line -> exists t0, In t0 tl /\ t = TileApp.clearFlags t0) ->
    (forall t, In t (TileApp.processedLine s) ->
               keptTile tl t \/ mergedTile tl c0 (TileApp.lineCounter s) t) ->
    let r := TileApp.lineLoop isH i step line pos s in
    TileApp.lineCounter s <= TileApp.lineCounter r
    /\ forall t, In t (TileApp.processedLine r) ->
                 keptTile tl t \/ mergedTile tl c0 (TileApp.lineCounter r) t.
Proof.
  induction n as [| n IH]; intros line pos s Hlen Hc Hline Hs; cbv zeta.
  - destruct line; [| simpl in Hlen; lia].
    cbn [TileApp.lineLoop]. split; [lia | assumption].
  - assert (Hmoved : forall t0 t,
              In t0 tl ->
              In t (TileApp.processedLine
                      (TileApp.pushMoved isH i pos (TileApp.clearFlags t0) s))
              -> keptTile tl t
                 \/ mergedTile tl c0
                      (TileApp.lineCounter
                         (TileApp.pushMoved isH i pos
                                            (TileApp.clearFlags t0) s)) t).
    { intros t0 t H0 Hin.
      destruct (pushMoved_tiles pos t0 s t H0 Hin) as [Hold | Hk];
        [| now left].
      destruct (pushMoved_ids isH i pos (TileApp.clearFlags t0) s)
        as [_ ->].
      now apply Hs. }
    destruct line as [| tile [| nextTile rest]].
    + cbn [TileApp.lineLoop]. split; [lia | assumption].
    + destruct (Hline tile (or_introl eq_refl)) as (t0 & H0 & ->).
      rewrite lineLoop_one.
      destruct (pushMoved_ids isH i pos (TileApp.clearFlags t0) s)
        as [_ Ec].
      split; [lia |]. intros t Hin. now apply (Hmoved t0).
    + destruct (Hline tile (or_introl eq_refl)) as (t0 & H0 & ->).
      destruct (Z.eq_dec (TileApp.value (TileApp.clearFlags t0))
                         (TileApp.value nextTile)) as [Hv | Hv].
      * rewrite lineLoop_merge by assumption.
        destruct (pushMerged_ids isH i pos (TileApp.clearFlags t0) s)
          as [_ Ec].
        destruct (IH rest (pos + step)
                     (TileApp.pushMerged isH i pos (TileApp.clearFlags t0) s))
          as [R1 R2].
        -- simpl in Hlen. lia.
        -- lia.
        -- intros t Ht. apply Hline. now do 2 right.
        -- intros t Hin. rewrite Ec.
           destruct (pushMerged_tiles pos t0 s t H0 Hc Hin) as [Hold | Hm];
             [| now right].
           destruct (Hs t Hold) as [Hk | Hm]; [now left | right].
           apply (mergedTile_mono tl c0 (TileApp.lineCounter s)); [lia |].
           assumption.
        -- split; [lia | assumption].
      * rewrite lineLoop_move by assumption.
        destruct (pushMoved_ids isH i pos (TileApp.clearFlags t0) s)
          as [_ Ec].
        destruct (IH (nextTile :: rest) (pos + step)
                     (TileApp.pushMoved isH i pos (TileApp.clearFlags t0) s))
          as [R1 R2].
        -- simpl in Hlen |- *. lia.
        -- lia.
        -- intros t Ht. apply Hline. now right.
        -- intros t Hin. now apply (Hmoved t0).
        -- split; [lia | assumption].
Qed.

End SlideTiles.

Lemma stepLine_tiles (isH reverse : bool) (tl : list TileApp.Tile) (c0 : Z)
      (s : TileApp.Locals) (i : nat) :
  c0 <= TileApp.counter s ->
  (forall t, In t (TileApp.newTiles s) ->
             keptTile tl t \/ mergedTile tl c0 (TileApp.counter s) t) ->
  let r := TileApp.stepLine isH reverse (map TileApp.clearFlags tl) s i in
  TileApp.counter s <= TileApp.counter r
  /\ forall t, In t (TileApp.newTiles r) ->
               keptTile tl t \/ mergedTile tl c0 (TileApp.counter r) t.
Proof.
  intros Hc Hs. cbv zeta. unfold TileApp.stepLine.
  set (line := filter _ (map TileApp.clearFlags tl)).
  destruct (length line =? 0)%nat; [split; [lia | assumption] |].
  cbn [TileApp.counter TileApp.newTiles].
  destruct (lineLoop_tiles isH i (if reverse then -1 else 1) tl c0
              (length (TileApp.sortBy (TileApp.compareFn isH reverse) line))
              (TileApp.sortBy (TileApp.compareFn isH reverse) line)
              (if reverse then Z.of_nat GRID_SIZE - 1 else 0)
              (TileApp.mkLineState [] (TileApp.totalPoints s)
                                   (TileApp.moved s) (TileApp.counter s)))
    as [R1 R2].
  - apply Nat.le_refl.
  - exact Hc.
  - intros t Ht. apply sortBy_In in Ht. unfold line in Ht.
    apply filter_In in Ht. destruct Ht as [Ht _].
    apply in_map_iff in Ht. destruct Ht as (t0 & <- & H0). now exists t0.
  - intros t [].
  - cbn [TileApp.lineCounter] in R1, R2. split; [assumption |].
    intros t Hin. apply in_app_iff in Hin. destruct Hin as [Hin | Hin].
    + destruct (Hs t Hin) as [Hk | Hm]; [now left | right].
      now apply (mergedTile_mono tl c0 (TileApp.counter s)).
    + now apply R2.
Qed.

Lemma fold_stepLine_tiles (isH reverse : bool) (tl : list TileApp.Tile)
      (c0 : Z) (idx : list nat) :
  forall s : TileApp.Locals,
    c0 <= TileApp.counter s ->
    (forall t, In t (TileApp.newTiles s) ->
               keptTile tl t \/ mergedTile tl c0 (TileApp.counter s) t) ->
    let r := fold_left (TileApp.stepLine isH reverse
                                         (map TileApp.clearFlags tl)) idx s in
    forall t, In t (TileApp.newTiles r) ->
              keptTile tl t \/ mergedTile tl c0 (TileApp.counter r) t.
Proof.
  induction idx as [| i idx IH]; intros s Hc Hs; [exact Hs |].
  cbn [fold_left].
  destruct (stepLine_tiles isH reverse tl c0 s i Hc Hs) as [R1 R2].
  apply IH; [lia | assumption].
Qed.

Lemma fold_stepLine_counter (isH reverse : bool) (cur : list TileApp.Tile)
      (idx : list nat) :
  forall s : TileApp.Locals,
    TileApp.counter (fold_left (TileApp.stepLine isH reverse cur) idx s)
    = TileApp.counter s
      + Z.of_nat (list_sum (map (fun i => mergeCount
                                            (lineValues isH reverse cur i))
                                idx)).
Proof.
  induction idx as [| i idx IH]; intros s; [cbn; lia |].
  cbn [fold_left map]. rewrite IH.
  destruct (stepLine_ids isH reverse cur s i) as [_ ->].
  unfold list_sum. cbn [fold_right]. lia.
Qed.

(** X25.  What a slide of the tile version does to the tiles: every tile that
    comes out either keeps the id and the value of a tile that went in, its
    two flags cleared, or is a merged tile with a newly generated id, twice
    the value of a tile that went in, marked merged.  On tiles on distinct
    cells the id counter advances by the number of tiles that the slide has
    removed, one id for each merge. *)
Theorem X25_slide_keeps_ids_of_moved_tiles
        (tl : list TileApp.Tile) (d : Direction) (c0 : Z) :
  let s := TileApp.slide tl d c0 in
  (forall t, In t (TileApp.newTiles s) ->
             keptTile tl t \/ mergedTile tl c0 (TileApp.counter s) t)
  /\ (validTiles tl ->
      TileApp.counter s
      = c0 + Z.of_nat (length tl) - Z.of_nat (length (TileApp.newTiles s))).
Proof.
  cbv zeta. split.
  - rewrite tile_slide_unfold.
    apply (fold_stepLine_tiles (isHorizontalOf d) (reverseOf d) tl c0).
    + cbn. lia.
    + intros t [].
  - intros Hv.
    pose proof (tilesToGrid_board tl) as Hb.
    pose proof (slide_valid tl d c0 Hv) as Hv'.
    rewrite <- (tiles_count tl Hv), <- (tiles_count _ Hv').
    destruct (tile_slide_grid tl d c0 Hv) as [-> _].
    rewrite tile_slide_unfold, fold_stepLine_counter.
    cbn [TileApp.counter].
    rewrite slide_lines by assumption. cbn [GridApp.newGrid].
    rewrite boardTileCount_unlines
      by now apply slideRow_board, lines_board.
    rewrite <- (boardTileCount_lines d _ Hb).
    assert (Hline : forall i, (i < GRID_SIZE)%nat ->
              (tileCount (slideRow (nth i (lines d (TileApp.tilesToGrid tl))
                                        []))
               + mergeCount (lineValues (isHorizontalOf d) (reverseOf d)
                                        (map TileApp.clearFlags tl) i)
               = tileCount (nth i (lines d (TileApp.tilesToGrid tl)) []))%nat).
    { intros i Hi. rewrite lineValues_cells by assumption.
      apply tileCount_slideRow. }
    pose proof (Hline 0%nat ltac:(unfold GRID_SIZE; lia)) as H0.
    pose proof (Hline 1%nat ltac:(unfold GRID_SIZE; lia)) as H1.
    pose proof (Hline 2%nat ltac:(unfold GRID_SIZE; lia)) as H2.
    pose proof (Hline 3%nat ltac:(unfold GRID_SIZE; lia)) as H3.
    destruct (lines_board d _ Hb) as [Hlen _].
    destruct (lines d (TileApp.tilesToGrid tl))
      as [| l0 [| l1 [| l2 [| l3 [| l4 ls]]]]]; try discriminate.
    unfold boardTileCount, list_sum.
    change (seq 0 GRID_SIZE) with [0; 1; 2; 3]%nat.
    cbn [map fold_right nth] in *. lia.
Qed.

Lemma X25_witness :
  validTiles exampleTiles
  /\ TileApp.counter (TileApp.slide exampleTiles Left 9)
     = 9 + Z.of_nat (length exampleTiles)
       - Z.of_nat (length (TileApp.newTiles
                             (TileApp.slide exampleTiles Left 9))).
Proof.
  split; [exact exampleTiles_valid |].
  exact (proj2 (X25_slide_keeps_ids_of_moved_tiles exampleTiles Left 9)
               exampleTiles_valid).
Defined.
